(** * Result aggregation of bzt: KPISet, DataPoint, ResultsReader,
    ConsolidatingAggregator (bzt/modules/aggregator.py) and the JTL row
    reader (bzt/modules/jmeter.py).

    Numbers.  Python integers are [Z].  Python floats (response times,
    latencies, averages) are modelled as exact rationals [Qc]; rounding of
    binary floating point is not modelled there.  Where the rounding is the
    subject, the float attributes of a KPISet are modelled a second time as
    binary64 numbers ([KPISetFloat]), and a statement that holds only when
    the float operations involved are exact says so ([binary64]).
    [math.sqrt] has no rational counterpart and is a parameter of the
    development ([MathSqrt]).

    Strings.  Labels and names are strings of 8-bit characters; the
    character classes of the regular expressions are those of ASCII, which
    is what Python's [re] matches on labels made of ASCII characters.

    Dictionaries are [gmap]s.  A function that only computes returns a
    [result]; a method that mutates objects returns the objects as they are
    when it returns or raises, paired with a [result unit]. *)

From Stdlib Require Import ZArith QArith Qcanon Lia String Ascii Floats.
From stdpp Require Import sorting base numbers option list strings gmap fin_maps countable.

Open Scope Z_scope.

(** ** Exceptions and results *)

Inductive exn : Type :=
| AssertionError
| IndexError
| KeyError
| ValueError (message : string).

(** [OutOfFuel] is not a Python outcome: it marks a loop of the model that
    was given too few iterations. *)
Inductive result (A : Type) : Type :=
| Ok (a : A)
| Raise (e : exn)
| OutOfFuel.
Arguments Ok {A} a.
Arguments Raise {A} e.
Arguments OutOfFuel {A}.

#[global] Instance result_ret : MRet result := λ A a, Ok a.
#[global] Instance result_bind : MBind result := λ A B f m,
  match m with
  | Ok a => f a
  | Raise e => Raise e
  | OutOfFuel => OutOfFuel
  end.

(** [l[i]] on a Python list. *)
Definition index {A} (l : list A) (i : nat) : result A :=
  match l !! i with
  | Some x => Ok x
  | None => Raise IndexError
  end.

(** [for x in l: acc = f acc x], stopping at the first exception. *)
Fixpoint for_each {A S} (f : S → A → result S) (acc : S) (l : list A) : result S :=
  match l with
  | [] => Ok acc
  | x :: l' => acc' ← f acc x; for_each f acc' l'
  end.

(** [math.sqrt] *)
Class MathSqrt := math_sqrt : Qc → Qc.

Definition Zsum (l : list Z) : Z := foldr Z.add 0 l.

(** ** collections.Counter *)

Module Counter.
Section counter.
Context `{Countable K}.

(** [c[k]] : missing keys count zero *)
Definition get (c : gmap K Z) (k : K) : Z := default 0 (c !! k).

(** [c[k] += n] *)
Definition incr (c : gmap K Z) (k : K) (n : Z) : gmap K Z :=
  <[k := get c k + n]> c.

(** [c.update(other)] : counts are added *)
Definition update (c other : gmap K Z) : gmap K Z :=
  union_with (λ x y, Some (x + y)) c other.

(** [c += other] : counts are added, then only positive counts are kept *)
Definition iadd (c other : gmap K Z) : gmap K Z :=
  filter (λ kv, 0 < kv.2) (update c other).

(** [sum(c.values())] *)
Definition total (c : gmap K Z) : Z := Zsum (map_to_list c).*2.
End counter.
End Counter.

(** ** BetterDict *)

(** Modelled from the spec: [BetterDict.get(key, default)] of bzt/utils.py,
    which is not among the sources.  The spec has it as find-or-create: when
    [key] is missing, [default] is stored under it, and the stored value is
    returned.  The result is that value and the dictionary after the call. *)
Definition BetterDict_get `{Countable K} {V} (d : gmap K V) (key : K) (default : V)
    : V * gmap K V :=
  match d !! key with
  | Some v => (v, d)
  | None => (default, <[key := default]> d)
  end.

(** ** KPISet *)

Module KPISet.

Definition ERRTYPE_ERROR : Z := 0.
Definition ERRTYPE_ASSERT : Z := 1.

(** The dictionaries built by [error_item_skel]. *)
Record error_item := {
  err_cnt : Z;
  err_msg : string;
  err_rc : option string;
  err_type : Z;
  err_urls : gmap string Z
}.

Definition error_item_skel (error : string) (ret_c : option string) (cnt : Z)
    (errtype : Z) (urls : gmap string Z) : error_item :=
  {| err_cnt := cnt; err_msg := error; err_rc := ret_c; err_type := errtype; err_urls := urls |}.

(** Keys of [_concurrencies]: a thread name in [add_sample], a source id
    (possibly [None]) in [merge_kpis]. *)
Definition ckey : Type := string + option Z.

(** The attributes [sum_rt], [sum_lt], [sum_cn], [perc_levels],
    [_concurrencies] and the dictionary entries of a KPISet.  The entry
    [perc] is keyed by [str(float(level))]; the model keys it by the level. *)
Record t := mk {
  sum_rt : Qc;
  sum_lt : Qc;
  sum_cn : Qc;
  perc_levels : list Qc;
  throughput : Z;          (* SAMPLE_COUNT *)
  concurrency : Z;         (* CONCURRENCY *)
  succ : Z;                (* SUCCESSES *)
  fail : Z;                (* FAILURES *)
  avg_rt : Qc;             (* AVG_RESP_TIME *)
  stdev_rt : Qc;           (* STDEV_RESP_TIME *)
  avg_lt : Qc;             (* AVG_LATENCY *)
  avg_ct : Qc;             (* AVG_CONN_TIME *)
  errors : list error_item;  (* ERRORS *)
  rt : gmap Qc Z;          (* RESP_TIMES *)
  rc : gmap string Z;      (* RESP_CODES *)
  perc : gmap Qc Qc;       (* PERCENTILES *)
  _concurrencies : gmap ckey Z
}.

(** [KPISet(perc_levels)] *)
Definition init (levels : list Qc) : t :=
  {| sum_rt := 0; sum_lt := 0; sum_cn := 0; perc_levels := levels;
     throughput := 0; concurrency := 0; succ := 0; fail := 0;
     avg_rt := 0; stdev_rt := 0; avg_lt := 0; avg_ct := 0;
     errors := []; rt := ∅; rc := ∅; perc := ∅; _concurrencies := ∅ |}.

(** [__deepcopy__]: the sums and every dictionary entry are copied;
    [_concurrencies] of the copy is the fresh one of [KPISet(...)]. *)
Definition deepcopy (self : t) : t :=
  {| sum_rt := sum_rt self; sum_lt := sum_lt self; sum_cn := sum_cn self;
     perc_levels := perc_levels self;
     throughput := throughput self; concurrency := concurrency self;
     succ := succ self; fail := fail self;
     avg_rt := avg_rt self; stdev_rt := stdev_rt self;
     avg_lt := avg_lt self; avg_ct := avg_ct self;
     errors := errors self; rt := rt self; rc := rc self; perc := perc self;
     _concurrencies := ∅ |}.

(** [inc_list(values, ("msg", selector), value)], on the records as values:
    the list that [values] holds after the call.  The source increments the
    record it finds in place and appends [value] itself; what that means for
    a record that several lists hold is the subject of [Shared]. *)
Fixpoint inc_list (values : list error_item) (selector : string) (value : error_item)
    : list error_item :=
  match values with
  | [] => [value]
  | item :: rest =>
      if decide (err_msg item = selector) then
        {| err_cnt := err_cnt item + err_cnt value;
           err_msg := err_msg item; err_rc := err_rc item; err_type := err_type item;
           err_urls := Counter.iadd (err_urls item) (err_urls value) |} :: rest
      else item :: inc_list rest selector value
  end.

(** A sample: [(cnc, r_time, con_time, latency, r_code, error, trname)]. *)
Record sample := {
  s_cnc : Z;
  s_r_time : Qc;
  s_con_time : option Qc;
  s_latency : Qc;
  s_r_code : option string;
  s_error : option string;
  s_trname : string
}.

(** Truth value of [con_time]: [None] and zero are false. *)
Definition truthy (x : option Qc) : bool :=
  match x with
  | Some q => bool_decide (q ≠ 0%Qc)
  | None => false
  end.

Definition add_sample (self : t) (s : sample) : t :=
  let counted := bool_decide (is_Some (s_r_code s)) in
  {| throughput := throughput self + 1;
     _concurrencies :=
       if bool_decide (s_cnc s ≠ 0)
       then <[inl (s_trname s) := s_cnc s]> (_concurrencies self)
       else _concurrencies self;
     rc := match s_r_code s with
           | Some r_code => <[r_code := default 0 (rc self !! r_code) + 1]> (rc self)
           | None => rc self
           end;
     sum_cn := if counted && truthy (s_con_time s)
               then (sum_cn self + default 0 (s_con_time s))%Qc else sum_cn self;
     sum_lt := if counted then (sum_lt self + s_latency s)%Qc else sum_lt self;
     sum_rt := if counted then (sum_rt self + s_r_time s)%Qc else sum_rt self;
     fail := match s_error s with Some _ => fail self + 1 | None => fail self end;
     errors := match s_error s with
               | Some error =>
                   inc_list (errors self) error
                     (error_item_skel error (s_r_code s) 1 ERRTYPE_ERROR ∅)
               | None => errors self
               end;
     succ := match s_error s with Some _ => succ self | None => succ self + 1 end;
     rt := Counter.incr (rt self) (s_r_time s) 1;
     perc_levels := perc_levels self; concurrency := concurrency self;
     avg_rt := avg_rt self; stdev_rt := stdev_rt self;
     avg_lt := avg_lt self; avg_ct := avg_ct self; perc := perc self |}.

(** *** Percentiles and standard deviation *)

(** Order of the tuples [(value, count)] under [sorted]. *)
Definition item_le (a b : Qc * Z) : Prop :=
  (a.1 < b.1)%Qc ∨ (a.1 = b.1 ∧ a.2 ≤ b.2).

#[global] Instance item_le_dec : RelDecision item_le.
Proof. intros a b. unfold item_le. apply _. Defined.

(** [sorted(cnts_dict.items())] *)
Definition sorted_items (cnts_dict : gmap Qc Z) : list (Qc * Z) :=
  merge_sort item_le (map_to_list cnts_dict).

(** State of the scan: [curr_cnts_pos], [curr_pos], [sqr_diffs]. *)
Record scan := {
  curr_cnts_pos : nat;
  curr_pos : Z;
  sqr_diffs : Qc
}.

(** [cnt * math.pow(value - avg, 2)] *)
Definition sqr_term (avg : Qc) (e : Qc * Z) : Qc :=
  (Qc_of_Z e.2 * ((e.1 - avg) * (e.1 - avg)))%Qc.

(** The inner loop
    [while curr_pos <= percentile_pos and curr_cnts_pos < len(cnts)]. *)
Fixpoint advance (fuel : nat) (cnts : list (Qc * Z)) (avg percentile_pos : Qc)
    (st : scan) : result scan :=
  if bool_decide (Qc_of_Z (curr_pos st) ≤ percentile_pos)%Qc
     && bool_decide (curr_cnts_pos st < length cnts)%nat
  then
    match fuel with
    | O => OutOfFuel
    | S fuel' =>
        e ← index cnts (curr_cnts_pos st);
        let sqr := (sqr_diffs st + sqr_term avg e)%Qc in
        let pos := S (curr_cnts_pos st) in
        e' ← index cnts pos;
        advance fuel' cnts avg percentile_pos
          {| curr_cnts_pos := pos; curr_pos := curr_pos st + e'.2; sqr_diffs := sqr |}
    end
  else Ok st.

(** One round of [for percentile in sorted(percentiles_to_calc)]. *)
Definition perc_step (cnts : list (Qc * Z)) (num : Z) (avg : Qc)
    (acc : scan * list (Qc * Qc)) (percentile : Qc) : result (scan * list (Qc * Qc)) :=
  let '(st, percentiles) := acc in
  if bool_decide (percentile < Qc_of_Z 100)%Qc then
    let percentile_pos := (percentile / Qc_of_Z 100 * Qc_of_Z num)%Qc in
    st' ← advance (length cnts) cnts avg percentile_pos st;
    e ← index cnts (curr_cnts_pos st');
    Ok (st', percentiles ++ [(percentile, e.1)])
  else
    e ← index cnts (length cnts - 1);
    Ok (st, percentiles ++ [(percentile, e.1)]).

(** [__perc_and_stdev(cnts_dict, percentiles_to_calc, avg)] *)
Definition perc_and_stdev `{MathSqrt} (cnts_dict : gmap Qc Z)
    (percentiles_to_calc : list Qc) (avg : Qc) : result (list (Qc * Qc) * Qc) :=
  if negb (forallb (λ p, bool_decide (0 ≤ p)%Qc && bool_decide (p ≤ Qc_of_Z 100)%Qc)
             percentiles_to_calc)
  then Raise AssertionError
  else if bool_decide (cnts_dict = ∅) then Ok ([], 0%Qc)
  else
    let num := Counter.total cnts_dict in
    let cnts := sorted_items cnts_dict in
    first ← index cnts 0;
    let st := {| curr_cnts_pos := 0; curr_pos := first.2; sqr_diffs := 0 |} in
    '(st, percentiles) ←
       for_each (perc_step cnts num avg) (st, []) (merge_sort Qcle percentiles_to_calc);
    (* while curr_cnts_pos < len(cnts): sqr_diffs += ...; curr_cnts_pos += 1 *)
    let sqr := foldl (λ acc e, (acc + sqr_term avg e)%Qc) (sqr_diffs st)
                 (drop (curr_cnts_pos st) cnts) in
    let stdev := math_sqrt (sqr / Qc_of_Z (Z.of_nat (length cnts)))%Qc in
    Ok (percentiles, stdev).

(** [self.recalculate()]: the averages and the concurrency are stored
    before [__perc_and_stdev] is called, and stay stored when it raises. *)
Definition recalculate `{MathSqrt} (self : t) : t * result unit :=
  let n := throughput self in
  let avg_ct' := if bool_decide (n ≠ 0) then (sum_cn self / Qc_of_Z n)%Qc else avg_ct self in
  let avg_lt' := if bool_decide (n ≠ 0) then (sum_lt self / Qc_of_Z n)%Qc else avg_lt self in
  let avg_rt' := if bool_decide (n ≠ 0) then (sum_rt self / Qc_of_Z n)%Qc else avg_rt self in
  let concurrency' :=
    if bool_decide (_concurrencies self ≠ ∅)
    then Zsum (map_to_list (_concurrencies self)).*2 else concurrency self in
  let upd (perc' : gmap Qc Qc) (stdev' : Qc) : t :=
    {| avg_ct := avg_ct'; avg_lt := avg_lt'; avg_rt := avg_rt';
       concurrency := concurrency'; perc := perc'; stdev_rt := stdev';
       sum_rt := sum_rt self; sum_lt := sum_lt self; sum_cn := sum_cn self;
       perc_levels := perc_levels self; throughput := throughput self;
       succ := succ self; fail := fail self; errors := errors self;
       rt := rt self; rc := rc self; _concurrencies := _concurrencies self |} in
  match perc_and_stdev (rt self) (perc_levels self) avg_rt' with
  | Ok (percs, stdev) =>
      (upd (foldl (λ m lv, <[lv.1 := lv.2]> m) (perc self) percs) stdev, Ok ())
  | Raise e => (upd (perc self) (stdev_rt self), Raise e)
  | OutOfFuel => (upd (perc self) (stdev_rt self), OutOfFuel)
  end.

(** [self.merge_kpis(src, sid)].  [src] is recalculated in place, so the
    state is the pair of [self] and [src]. *)
Definition merge_kpis `{MathSqrt} (self src : t) (sid : option Z) : (t * t) * result unit :=
  let '(src', r) := recalculate src in
  match r with
  | Ok _ =>
      (({| sum_cn := (sum_cn self + sum_cn src')%Qc;
           sum_lt := (sum_lt self + sum_lt src')%Qc;
           sum_rt := (sum_rt self + sum_rt src')%Qc;
           throughput := throughput self + throughput src';
           succ := succ self + succ src';
           fail := fail self + fail src';
           _concurrencies := <[inr sid := concurrency src']> (_concurrencies self);
           rt := Counter.update (rt self) (rt src');
           rc := Counter.update (rc self) (rc src');
           errors := foldl (λ acc src_item, inc_list acc (err_msg src_item) src_item)
                       (errors self) (errors src');
           perc_levels := perc_levels self; concurrency := concurrency self;
           avg_rt := avg_rt self; stdev_rt := stdev_rt self;
           avg_lt := avg_lt self; avg_ct := avg_ct self; perc := perc self |},
        src'), Ok ())
  | bad => ((self, src'), bad)
  end.

(** [KPISet.from_dict(obj)].  [obj] is a dictionary with the entries of a
    KPISet, given here as a [t] of which only the dictionary entries are
    read.  The sums are restored from the averages, the percentile levels
    are the keys of the entry [perc], and the result starts with the
    [_concurrencies] of [KPISet()]. *)
Definition from_dict (obj : t) : t :=
  {| sum_cn := (avg_ct obj * Qc_of_Z (throughput obj))%Qc;
     sum_lt := (avg_lt obj * Qc_of_Z (throughput obj))%Qc;
     sum_rt := (avg_rt obj * Qc_of_Z (throughput obj))%Qc;
     perc_levels := (map_to_list (perc obj)).*1;
     throughput := throughput obj; concurrency := concurrency obj;
     succ := succ obj; fail := fail obj;
     avg_rt := avg_rt obj; stdev_rt := stdev_rt obj;
     avg_lt := avg_lt obj; avg_ct := avg_ct obj;
     errors := errors obj; rt := rt obj; rc := rc obj; perc := perc obj;
     _concurrencies := ∅ |}.

End KPISet.

(** ** The float attributes of a KPISet in binary64

    The sums [sum_rt], [sum_lt], [sum_cn] and the three averages are Python
    floats, as are the times of a sample.  Here they are binary64 numbers
    with the rounding of the interpreter; the sample count is carried along
    because [recalculate] divides by it.  The counters, the error records
    and the percentiles do not enter these attributes and are left out, and
    with them the exceptions of [__perc_and_stdev]. *)

Module KPISetFloat.

Record t := mk {
  sum_rt : float;
  sum_lt : float;
  sum_cn : float;
  throughput : Z;          (* SAMPLE_COUNT *)
  avg_rt : float;          (* AVG_RESP_TIME *)
  avg_lt : float;          (* AVG_LATENCY *)
  avg_ct : float           (* AVG_CONN_TIME *)
}.

(** [KPISet(perc_levels)] *)
Definition init : t :=
  {| sum_rt := 0; sum_lt := 0; sum_cn := 0; throughput := 0;
     avg_rt := 0; avg_lt := 0; avg_ct := 0 |}.

(** The float that an operation with a float makes of a sample count (counts
    stay below [2^63]). *)
Definition of_int (n : Z) : float := PrimFloat.of_uint63 (Uint63.of_Z n).

(** The entries [(r_time, con_time, latency, r_code)] of a sample. *)
Record sample := {
  s_r_time : float;
  s_con_time : option float;
  s_latency : float;
  s_r_code : option string
}.

(** Truth value of [con_time]: [None] and zero are false. *)
Definition truthy (x : option float) : bool :=
  match x with
  | Some f => negb (PrimFloat.eqb f 0)
  | None => false
  end.

Definition add_sample (self : t) (s : sample) : t :=
  let counted := bool_decide (is_Some (s_r_code s)) in
  {| throughput := throughput self + 1;
     sum_cn := if counted && truthy (s_con_time s)
               then (sum_cn self + default 0 (s_con_time s))%float else sum_cn self;
     sum_lt := if counted then (sum_lt self + s_latency s)%float else sum_lt self;
     sum_rt := if counted then (sum_rt self + s_r_time s)%float else sum_rt self;
     avg_rt := avg_rt self; avg_lt := avg_lt self; avg_ct := avg_ct self |}.

(** [self.recalculate()] *)
Definition recalculate (self : t) : t :=
  let n := throughput self in
  if bool_decide (n ≠ 0) then
    {| avg_ct := (sum_cn self / of_int n)%float;
       avg_lt := (sum_lt self / of_int n)%float;
       avg_rt := (sum_rt self / of_int n)%float;
       sum_rt := sum_rt self; sum_lt := sum_lt self; sum_cn := sum_cn self;
       throughput := throughput self |}
  else self.

(** [self.merge_kpis(src, sid)]: [self] and the recalculated [src]. *)
Definition merge_kpis (self src : t) : t * t :=
  let src' := recalculate src in
  ({| sum_cn := (sum_cn self + sum_cn src')%float;
      sum_lt := (sum_lt self + sum_lt src')%float;
      sum_rt := (sum_rt self + sum_rt src')%float;
      throughput := throughput self + throughput src';
      avg_rt := avg_rt self; avg_lt := avg_lt self; avg_ct := avg_ct self |},
   src').

End KPISetFloat.

(** ** Error records as shared objects

    [inc_list] appends the dictionary [value] itself, not a copy of it, and
    increments the dictionary that it finds in place.  A record can thus
    belong to several lists.  Here a record is a reference (a number) into
    a store and a list of records is a list of references; [None] marks a
    reference that is not in the store, which Python cannot produce. *)

Module Shared.

(** [KPISet.inc_list(values, ("msg", selector), value)]: the store and the
    list [values] after the call. *)
Fixpoint inc_list (h : gmap nat KPISet.error_item) (values : list nat)
    (selector : string) (value : nat) : option (gmap nat KPISet.error_item * list nat) :=
  match values with
  | [] => Some (h, [value])
  | item :: rest =>
      i ← h !! item;
      if decide (KPISet.err_msg i = selector) then
        v ← h !! value;
        Some (<[item := {| KPISet.err_cnt := KPISet.err_cnt i + KPISet.err_cnt v;
                           KPISet.err_msg := KPISet.err_msg i;
                           KPISet.err_rc := KPISet.err_rc i;
                           KPISet.err_type := KPISet.err_type i;
                           KPISet.err_urls :=
                             Counter.iadd (KPISet.err_urls i) (KPISet.err_urls v) |}]> h,
              item :: rest)
      else
        '(h', rest') ← inc_list h rest selector value;
        Some (h', item :: rest')
  end.

(** [for src_item in src[ERRORS]: inc_list(self[ERRORS], ('msg',
    src_item['msg']), src_item)], the last loop of [merge_kpis]: the store
    and the list [self[ERRORS]] after it. *)
Fixpoint merge_errors (h : gmap nat KPISet.error_item) (self_errors src_errors : list nat)
    : option (gmap nat KPISet.error_item * list nat) :=
  match src_errors with
  | [] => Some (h, self_errors)
  | src_item :: rest =>
      v ← h !! src_item;
      '(h', self_errors') ← inc_list h self_errors (KPISet.err_msg v) src_item;
      merge_errors h' self_errors' rest
  end.

(** The records that a list of references stands for. *)
Definition view (h : gmap nat KPISet.error_item) (l : list nat)
    : list (option KPISet.error_item) :=
  (λ r, h !! r) <$> l.

End Shared.

(** ** DataPoint *)

(** [for label, val in iteritems(src): dest = dst.get(label, KPISet(levels));
    dest.merge_kpis(val, sid)], the loop of [DataPoint.__merge_kpis] and of
    [ResultsProvider.__merge_to_cumulative].  The state is the pair of the
    maps [src] and [dst]: the values of [src] are recalculated in place, and
    [dest] is merged into in place. *)
Fixpoint merge_each `{MathSqrt} (levels : list Qc) (sid : option Z)
    (items : list (string * KPISet.t)) (src dst : gmap string KPISet.t)
    : (gmap string KPISet.t * gmap string KPISet.t) * result unit :=
  match items with
  | [] => ((src, dst), Ok ())
  | (label, val) :: rest =>
      let got := BetterDict_get dst label (KPISet.init levels) in
      let '((dest', val'), r) := KPISet.merge_kpis got.1 val sid in
      let src' := <[label := val']> src in
      let dst' := <[label := dest']> got.2 in
      match r with
      | Ok _ => merge_each levels sid rest src' dst'
      | bad => ((src', dst'), bad)
      end
  end.

(** [for val in m.values(): val.recalculate()] *)
Fixpoint recalculate_each `{MathSqrt} (items : list (string * KPISet.t))
    (m : gmap string KPISet.t) : gmap string KPISet.t * result unit :=
  match items with
  | [] => (m, Ok ())
  | (label, val) :: rest =>
      let '(val', r) := KPISet.recalculate val in
      let m' := <[label := val']> m in
      match r with
      | Ok _ => recalculate_each rest m'
      | bad => (m', bad)
      end
  end.

Module DataPoint.

#[warnings="-register-all"]
Inductive t := mk {
  perc_levels : list Qc;
  source_id : option Z;                    (* SOURCE_ID *)
  ts : Z;                                  (* TIMESTAMP *)
  cumulative : gmap string KPISet.t;       (* CUMULATIVE *)
  current : gmap string KPISet.t;          (* CURRENT *)
  subresults : list t                      (* SUBRESULTS *)
}.

(** [DataPoint(ts, perc_levels)] *)
Definition init (timestamp : Z) (levels : list Qc) : t :=
  {| perc_levels := levels; source_id := None; ts := timestamp;
     cumulative := ∅; current := ∅; subresults := [] |}.

(** [val = KPISet.from_dict(val); val.perc_levels = self.perc_levels], what
    [__merge_kpis] makes of a value of [src] that is a plain dictionary. *)
Definition converted (self : t) (val : KPISet.t) : KPISet.t :=
  let val := KPISet.from_dict val in
  {| KPISet.perc_levels := perc_levels self;
     KPISet.sum_rt := KPISet.sum_rt val; KPISet.sum_lt := KPISet.sum_lt val;
     KPISet.sum_cn := KPISet.sum_cn val;
     KPISet.throughput := KPISet.throughput val; KPISet.concurrency := KPISet.concurrency val;
     KPISet.succ := KPISet.succ val; KPISet.fail := KPISet.fail val;
     KPISet.avg_rt := KPISet.avg_rt val; KPISet.stdev_rt := KPISet.stdev_rt val;
     KPISet.avg_lt := KPISet.avg_lt val; KPISet.avg_ct := KPISet.avg_ct val;
     KPISet.errors := KPISet.errors val; KPISet.rt := KPISet.rt val; KPISet.rc := KPISet.rc val;
     KPISet.perc := KPISet.perc val; KPISet._concurrencies := KPISet._concurrencies val |}.

(** [self.__merge_kpis(src, dst, sid)]; values of [src] that are plain
    dictionaries (converted by [KPISet.from_dict]) are not modelled. *)
Definition __merge_kpis `{MathSqrt} (self : t) (src dst : gmap string KPISet.t)
    (sid : option Z) : (gmap string KPISet.t * gmap string KPISet.t) * result unit :=
  merge_each (perc_levels self) sid (map_to_list src) src dst.

Definition recalculate `{MathSqrt} (self : t) : t * result unit :=
  let '(current', r) := recalculate_each (map_to_list (current self)) (current self) in
  let self1 :=
    {| current := current'; cumulative := cumulative self;
       perc_levels := perc_levels self; source_id := source_id self; ts := ts self;
       subresults := subresults self |} in
  match r with
  | Ok _ =>
      let '(cumulative', r') :=
        recalculate_each (map_to_list (cumulative self)) (cumulative self) in
      ({| current := current'; cumulative := cumulative';
          perc_levels := perc_levels self; source_id := source_id self; ts := ts self;
          subresults := subresults self |}, r')
  | bad => (self1, bad)
  end.

(** [self.merge_point(src)].  The state is the pair of [self] and [src];
    [self.subresults] holds a reference to [src], so its last element is
    [src] as the call leaves it.  [self.log] is taken to resolve, so that the
    mismatch raises the [ValueError] the source writes. *)
Definition merge_point `{MathSqrt} (self src : t) : (t * t) * result unit :=
  if bool_decide (ts self ≠ ts src) then
    ((self, src), Raise (ValueError "Cannot merge different timestamps"))
  else
    let finish (cur_s cur_d cum_s cum_d : gmap string KPISet.t) : t * t :=
      let src' :=
        {| current := cur_s; cumulative := cum_s;
           perc_levels := perc_levels src; source_id := source_id src; ts := ts src;
           subresults := subresults src |} in
      ({| current := cur_d; cumulative := cum_d;
          perc_levels := perc_levels self; source_id := source_id self; ts := ts self;
          subresults := subresults self ++ [src'] |}, src') in
    let '((cur_s, cur_d), r1) :=
      __merge_kpis self (current src) (current self) (source_id src) in
    match r1 with
    | Ok _ =>
        let '((cum_s, cum_d), r2) :=
          __merge_kpis self (cumulative src) (cumulative self) (source_id src) in
        match r2 with
        | Ok _ =>
            let '(self', src') := finish cur_s cur_d cum_s cum_d in
            let '(self'', r3) := recalculate self' in
            ((self'', src'), r3)
        | bad => (finish cur_s cur_d cum_s cum_d, bad)
        end
    | bad => (finish cur_s cur_d (cumulative src) (cumulative self), bad)
    end.

End DataPoint.

(** ** ResultsProvider *)

Module ResultsProvider.

(** [self.__merge_to_cumulative(current)]: the state is the pair of
    [current] and [self.cumulative]. *)
Definition __merge_to_cumulative `{MathSqrt} (track_percentiles : list Qc)
    (current cumulative : gmap string KPISet.t)
    : (gmap string KPISet.t * gmap string KPISet.t) * result unit :=
  merge_each track_percentiles None (map_to_list current) current cumulative.

(** The body of the loop of [datapoints], run for each data point that
    [_calculate_datapoints] yields; the listeners are external and are not
    modelled.  The state is [self.cumulative] and the data point. *)
Definition on_datapoint `{MathSqrt} (track_percentiles : list Qc)
    (cumulative : gmap string KPISet.t) (datapoint : DataPoint.t)
    : (gmap string KPISet.t * DataPoint.t) * result unit :=
  let '((current', cumulative'), r) :=
    __merge_to_cumulative track_percentiles (DataPoint.current datapoint) cumulative in
  match r with
  | Ok _ =>
      let datapoint' :=
        {| DataPoint.current := current';
           DataPoint.cumulative := KPISet.deepcopy <$> cumulative';
           DataPoint.perc_levels := DataPoint.perc_levels datapoint;
           DataPoint.source_id := DataPoint.source_id datapoint;
           DataPoint.ts := DataPoint.ts datapoint;
           DataPoint.subresults := DataPoint.subresults datapoint |} in
      let '(datapoint'', r') := DataPoint.recalculate datapoint' in
      ((cumulative', datapoint''), r')
  | bad =>
      ((cumulative',
        {| DataPoint.current := current';
           DataPoint.cumulative := DataPoint.cumulative datapoint;
           DataPoint.perc_levels := DataPoint.perc_levels datapoint;
           DataPoint.source_id := DataPoint.source_id datapoint;
           DataPoint.ts := DataPoint.ts datapoint;
           DataPoint.subresults := DataPoint.subresults datapoint |}), bad)
  end.

End ResultsProvider.

(** ** Regular expressions of [label_generalize_regexps]

    The fragment of Python's [re] that the three patterns use, on ASCII
    strings: [\b], a character or character class, a bounded or open greedy
    repetition of a class, and concatenation, matched by backtracking.
    [\d], [\w] and [\b] are the ASCII ones; a label with a character
    outside ASCII (code 128 and above) is outside the model. *)

Module Re.

Definition between (lo hi c : ascii) : bool :=
  (nat_of_ascii lo <=? nat_of_ascii c)%nat && (nat_of_ascii c <=? nat_of_ascii hi)%nat.

(** [\d] *)
Definition is_digit (c : ascii) : bool := between "0" "9" c.

(** [[0-9a-fA-F]] *)
Definition is_hex (c : ascii) : bool :=
  between "0" "9" c || between "a" "f" c || between "A" "F" c.

(** [\w] *)
Definition is_word (c : ascii) : bool :=
  between "a" "z" c || between "A" "Z" c || is_digit c || Ascii.eqb c "_".

Inductive t : Type :=
| Boundary                                                (* \b *)
| One (cls : ascii → bool)                                (* a character or a class *)
| Rep (cls : ascii → bool) (lo : nat) (hi : option nat)   (* cls{lo,hi} and cls{lo,} *)
| Cat (a b : t).

Definition word_opt (c : option ascii) : bool :=
  match c with
  | Some c => is_word c
  | None => false
  end.

(** Greedy repetition: one more character is tried first, and the
    continuation [k] decides whether the shorter match is taken. *)
Fixpoint rep {X} (cls : ascii → bool) (lo : nat) (hi : option nat) (prev : option ascii)
    (s : list ascii) (n : nat) (k : option ascii → list ascii → nat → option X) : option X :=
  let stop := match lo with O => k prev s n | S _ => None end in
  match s with
  | c :: s' =>
      if cls c && negb (bool_decide (hi = Some O)) then
        match rep cls (pred lo) (pred <$> hi) (Some c) s' (S n) k with
        | Some x => Some x
        | None => stop
        end
      else stop
  | [] => stop
  end.

(** [run r prev s n k]: match [r] at the head of [s], where [prev] is the
    character before it and [n] characters are already consumed. *)
Fixpoint run {X} (r : t) (prev : option ascii) (s : list ascii) (n : nat)
    (k : option ascii → list ascii → nat → option X) : option X :=
  match r with
  | Boundary => if xorb (word_opt prev) (word_opt (head s)) then k prev s n else None
  | One cls =>
      match s with
      | c :: s' => if cls c then k (Some c) s' (S n) else None
      | [] => None
      end
  | Rep cls lo hi => rep cls lo hi prev s n k
  | Cat a b => run a prev s n (λ prev' s' n', run b prev' s' n' k)
  end.

(** Length of the match of [r] that starts here, if there is one. *)
Definition match_at (r : t) (prev : option ascii) (s : list ascii) : option nat :=
  run r prev s O (λ _ _ n, Some n).

(** Left-to-right scan of [re.sub]: [skip] characters of the current match
    are still to be dropped.  An empty match, which no pattern of this file
    admits, is treated as no match. *)
Fixpoint sub_from (r : t) (repl : list ascii) (prev : option ascii) (skip : nat)
    (s : list ascii) : list ascii :=
  match s with
  | [] => []
  | c :: s' =>
      match skip with
      | S n => sub_from r repl (Some c) n s'
      | O =>
          match match_at r prev s with
          | Some (S n) => repl ++ sub_from r repl (Some c) n s'
          | _ => c :: sub_from r repl (Some c) O s'
          end
      end
  end.

(** [regexp.sub(replacement, label)] *)
Definition sub (r : t) (replacement label : string) : string :=
  string_of_list_ascii
    (sub_from r (list_ascii_of_string replacement) None O (list_ascii_of_string label)).

Definition lit (c : ascii) : t := One (Ascii.eqb c).

End Re.

(** ** ResultsReader *)

Inductive log_record : Type :=
| Debug (fmt : string) (args : list Z)
| Warning (fmt : string) (args : list Z).

Module ResultsReader.

Definition label_generalize_regexps : list (Re.t * string) :=
  [ (Re.Cat Re.Boundary
      (Re.Cat (Re.Rep Re.is_hex 8 (Some 8%nat)) (Re.Cat (Re.lit "-")
      (Re.Cat (Re.Rep Re.is_hex 4 (Some 4%nat)) (Re.Cat (Re.lit "-")
      (Re.Cat (Re.Rep Re.is_hex 4 (Some 4%nat)) (Re.Cat (Re.lit "-")
      (Re.Cat (Re.Rep Re.is_hex 4 (Some 4%nat)) (Re.Cat (Re.lit "-")
      (Re.Cat (Re.Rep Re.is_hex 12 (Some 12%nat)) Re.Boundary))))))))), "U");
    (Re.Cat Re.Boundary (Re.Cat (Re.Rep Re.is_hex 2 None) Re.Boundary), "U");
    (Re.Cat Re.Boundary (Re.Cat (Re.Rep Re.is_digit 2 None) Re.Boundary), "N") ].

(** What [_read] yields: [None], a tuple
    [(t_stamp, label, conc, r_time, con_time, latency, r_code, error, trname)],
    or a value of another type. *)
Record raw := {
  t_stamp : Z;
  label : string;
  fields : KPISet.sample     (* conc, r_time, con_time, latency, r_code, error, trname *)
}.

Inductive read_result : Type :=
| NoData
| Row (r : raw)
| Unsupported.

Record t := mk {
  cumulative : gmap string KPISet.t;
  track_percentiles : list Qc;
  generalize_labels : bool;
  ignored_labels : list string;
  log : list log_record;
  buffer : gmap Z (list (string * KPISet.sample));
  buffer_len : Z;
  min_timestamp : Z;
  self_id : Z                              (* id(self) *)
}.

(** [ResultsReader(perc_levels)] *)
Definition init (perc_levels : list Qc) (id : Z) : t :=
  {| cumulative := ∅; track_percentiles := perc_levels; generalize_labels := true;
     ignored_labels := []; log := []; buffer := ∅; buffer_len := 2;
     min_timestamp := 0; self_id := id |}.

Definition set_cumulative (c : gmap string KPISet.t) (self : t) : t :=
  {| cumulative := c; track_percentiles := track_percentiles self;
     generalize_labels := generalize_labels self; ignored_labels := ignored_labels self;
     log := log self; buffer := buffer self; buffer_len := buffer_len self;
     min_timestamp := min_timestamp self; self_id := self_id self |}.

Definition set_buffer (b : gmap Z (list (string * KPISet.sample))) (self : t) : t :=
  {| cumulative := cumulative self; track_percentiles := track_percentiles self;
     generalize_labels := generalize_labels self; ignored_labels := ignored_labels self;
     log := log self; buffer := b; buffer_len := buffer_len self;
     min_timestamp := min_timestamp self; self_id := self_id self |}.

Definition set_min_timestamp (m : Z) (self : t) : t :=
  {| cumulative := cumulative self; track_percentiles := track_percentiles self;
     generalize_labels := generalize_labels self; ignored_labels := ignored_labels self;
     log := log self; buffer := buffer self; buffer_len := buffer_len self;
     min_timestamp := m; self_id := self_id self |}.

(** [self.log.debug(...)] and [self.log.warning(...)] *)
Definition emit (r : log_record) (self : t) : t :=
  {| cumulative := cumulative self; track_percentiles := track_percentiles self;
     generalize_labels := generalize_labels self; ignored_labels := ignored_labels self;
     log := log self ++ [r]; buffer := buffer self; buffer_len := buffer_len self;
     min_timestamp := min_timestamp self; self_id := self_id self |}.

(** [self.__process_readers(final_pass)], over the results that
    [self._read(final_pass)] yields.  The message of the [ValueError] is
    the format string of the source, without the offending value. *)
Fixpoint __process_readers (results : list read_result) (self : t) : t * result unit :=
  match results with
  | [] => (self, Ok ())
  | NoData :: _ => (emit (Debug "No data from reader" []) self, Ok ())
  | Row r :: rest =>
      if bool_decide (label r ∈ ignored_labels self) then __process_readers rest self
      else
        let late := bool_decide (t_stamp r < min_timestamp self) in
        let self1 :=
          if late
          then emit (Warning "Putting sample %s into %s" [t_stamp r; min_timestamp self]) self
          else self in
        let t_stamp' := if late then min_timestamp self else t_stamp r in
        let samples := default [] (buffer self1 !! t_stamp') in
        __process_readers rest
          (set_buffer (<[t_stamp' := samples ++ [(label r, fields r)]]> (buffer self1)) self1)
  | Unsupported :: _ => (self, Raise (ValueError "Unsupported results from reader"))
  end.

Definition __generalize_label (label : string) : string :=
  foldl (λ label rule, Re.sub rule.1 rule.2 label) label label_generalize_regexps.

(** [for label in current.values(): overall.merge_kpis(label, sid)].  The
    labels are visited in the order of [map_to_list]; Python visits them in
    the order of the dictionary.  The order shows in the overall
    concurrency, where every label overwrites the entry of [sid], and in
    the order of the error records; counts, sums and histograms do not
    depend on it. *)
Fixpoint merge_overall `{MathSqrt} (sid : option Z) (items : list (string * KPISet.t))
    (overall : KPISet.t) (current : gmap string KPISet.t)
    : (KPISet.t * gmap string KPISet.t) * result unit :=
  match items with
  | [] => ((overall, current), Ok ())
  | (label, val) :: rest =>
      let '((overall', val'), r) := KPISet.merge_kpis overall val sid in
      let current' := <[label := val']> current in
      match r with
      | Ok _ => merge_overall sid rest overall' current'
      | bad => ((overall', current'), bad)
      end
  end.

(** [self.__aggreagate_current(datapoint, samples)] *)
Definition __aggreagate_current `{MathSqrt} (self : t) (datapoint : DataPoint.t)
    (samples : list (string * KPISet.sample)) : DataPoint.t * result unit :=
  let add (current : gmap string KPISet.t) (sample : string * KPISet.sample) :=
    let label := if decide (sample.1 = "") then "[empty]" else sample.1 in
    let label := if generalize_labels self then __generalize_label label else label in
    let got := BetterDict_get current label (KPISet.init (track_percentiles self)) in
    <[label := KPISet.add_sample got.1 sample.2]> got.2 in
  let current := foldl add (DataPoint.current datapoint) samples in
  let '((overall, current'), r) :=
    merge_overall (DataPoint.source_id datapoint) (map_to_list current)
      (KPISet.init (track_percentiles self)) current in
  let with_current (c : gmap string KPISet.t) : DataPoint.t :=
    {| DataPoint.current := c;
       DataPoint.cumulative := DataPoint.cumulative datapoint;
       DataPoint.perc_levels := DataPoint.perc_levels datapoint;
       DataPoint.source_id := DataPoint.source_id datapoint;
       DataPoint.ts := DataPoint.ts datapoint;
       DataPoint.subresults := DataPoint.subresults datapoint |} in
  match r with
  | Ok _ => (with_current (<["" := overall]> current'), Ok ())
  | bad => (with_current current', bad)
  end.

(** [self.__get_new_datapoint(timestamp)] *)
Definition __get_new_datapoint (self : t) (timestamp : Z) : DataPoint.t :=
  {| DataPoint.perc_levels := track_percentiles self;
     DataPoint.source_id := Some (self_id self);
     DataPoint.ts := timestamp;
     DataPoint.cumulative := ∅; DataPoint.current := ∅; DataPoint.subresults := [] |}.

(** The loop of [_calculate_datapoints] over [timestamps].  The generator
    is suspended at [yield datapoint] while its consumer runs the body of its
    own loop, [on_yield], on the reader and the data point; the data points
    are collected in [out]. *)
Fixpoint calc_loop `{MathSqrt}
    (on_yield : t → DataPoint.t → (t * DataPoint.t) * result unit)
    (final_pass : bool) (timestamps : list Z) (self : t) (out : list DataPoint.t)
    : (t * list DataPoint.t) * result unit :=
  match timestamps with
  | [] => ((self, out), Ok ())
  | timestamp :: rest =>
      if final_pass
         || bool_decide (timestamp + buffer_len self ≤ List.last timestamps timestamp)
      then
        let self1 :=
          emit (Debug "Aggregating: %s" [timestamp]) (set_min_timestamp (timestamp + 1) self) in
        match buffer self1 !! timestamp with
        | None => ((self1, out), Raise KeyError)
        | Some samples =>
            let self2 := set_buffer (delete timestamp (buffer self1)) self1 in
            let datapoint := __get_new_datapoint self2 timestamp in
            let '(datapoint', r) := __aggreagate_current self2 datapoint samples in
            match r with
            | Ok _ =>
                let '((self3, datapoint''), r') := on_yield self2 datapoint' in
                match r' with
                | Ok _ => calc_loop on_yield final_pass rest self3 (out ++ [datapoint''])
                | bad => ((self3, out), bad)
                end
            | bad => ((self2, out), bad)
            end
        end
      else ((self, out), Ok ())
  end.

(** [sorted(self.buffer.keys())] *)
Definition sorted_keys {V} (b : gmap Z V) : list Z := merge_sort Z.le (map_to_list b).*1.

(** [self._calculate_datapoints(final_pass)], consumed to its end. *)
Definition _calculate_datapoints `{MathSqrt}
    (on_yield : t → DataPoint.t → (t * DataPoint.t) * result unit)
    (final_pass : bool) (results : list read_result) (self : t)
    : (t * list DataPoint.t) * result unit :=
  let '(self1, r) := __process_readers results self in
  match r with
  | Ok _ =>
      let self2 := emit (Debug "Buffer len: %s" [Z.of_nat (size (buffer self1))]) self1 in
      if bool_decide (buffer self2 = ∅) then ((self2, []), Ok ())
      else calc_loop on_yield final_pass (sorted_keys (buffer self2)) self2 []
  | bad => ((self1, []), bad)
  end.

(** A consumer that only collects the data points. *)
Definition collect (self : t) (datapoint : DataPoint.t) : (t * DataPoint.t) * result unit :=
  ((self, datapoint), Ok ()).

(** The body of the loop of [ResultsProvider.datapoints] on a reader. *)
Definition on_datapoint `{MathSqrt} (self : t) (datapoint : DataPoint.t)
    : (t * DataPoint.t) * result unit :=
  let '((cumulative', datapoint'), r) :=
    ResultsProvider.on_datapoint (track_percentiles self) (cumulative self) datapoint in
  ((set_cumulative cumulative' self, datapoint'), r).

(** [self.datapoints(final_pass)], consumed to its end. *)
Definition datapoints `{MathSqrt} (final_pass : bool) (results : list read_result) (self : t)
    : (t * list DataPoint.t) * result unit :=
  _calculate_datapoints on_datapoint final_pass results self.

End ResultsReader.

(** ** ConsolidatingAggregator *)

Module ConsolidatingAggregator.

Record t := mk {
  cumulative : gmap string KPISet.t;
  track_percentiles : list Qc;
  generalize_labels : bool;
  ignored_labels : list string;
  log : list log_record;
  buffer : gmap Z (list DataPoint.t);
  buffer_len : Z
}.

(** [ConsolidatingAggregator()] *)
Definition init : t :=
  {| cumulative := ∅; track_percentiles := []; generalize_labels := true;
     ignored_labels := []; log := []; buffer := ∅; buffer_len := 2 |}.

Definition set_cumulative (c : gmap string KPISet.t) (self : t) : t :=
  {| cumulative := c; track_percentiles := track_percentiles self;
     generalize_labels := generalize_labels self; ignored_labels := ignored_labels self;
     log := log self; buffer := buffer self; buffer_len := buffer_len self |}.

Definition set_buffer (b : gmap Z (list DataPoint.t)) (self : t) : t :=
  {| cumulative := cumulative self; track_percentiles := track_percentiles self;
     generalize_labels := generalize_labels self; ignored_labels := ignored_labels self;
     log := log self; buffer := b; buffer_len := buffer_len self |}.

Definition emit (r : log_record) (self : t) : t :=
  {| cumulative := cumulative self; track_percentiles := track_percentiles self;
     generalize_labels := generalize_labels self; ignored_labels := ignored_labels self;
     log := log self ++ [r]; buffer := buffer self; buffer_len := buffer_len self |}.

(** [data[DataPoint.TIMESTAMP] = mints] *)
Definition set_ts (mints : Z) (data : DataPoint.t) : DataPoint.t :=
  {| DataPoint.ts := mints;
     DataPoint.perc_levels := DataPoint.perc_levels data;
     DataPoint.source_id := DataPoint.source_id data;
     DataPoint.cumulative := DataPoint.cumulative data;
     DataPoint.current := DataPoint.current data;
     DataPoint.subresults := DataPoint.subresults data |}.

(** [min(self.buffer.keys())] *)
Definition min_key {V} (b : gmap Z V) : option Z :=
  foldr (λ k acc, Some (from_option (Z.min k) k acc)) None (map_to_list b).*1.

(** The body of the loops of [_process_underlings] for one data point. *)
Definition buffer_point (self : t) (data : DataPoint.t) : t :=
  let tstamp := DataPoint.ts data in
  let append (tstamp : Z) (data : DataPoint.t) (self : t) : t :=
    let got := BetterDict_get (buffer self) tstamp [] in
    set_buffer (<[tstamp := got.1 ++ [data]]> got.2) self in
  match (if bool_decide (buffer self ≠ ∅) then min_key (buffer self) else None) with
  | Some mints =>
      if bool_decide (tstamp < mints) then
        append mints (set_ts mints data)
          (emit (Warning "Putting datapoint %s into %s" [tstamp; mints]) self)
      else append tstamp data self
  | None => append tstamp data self
  end.

(** [self._process_underlings(final_pass)]: [pulled] lists, for each
    underling in turn, the data points that its [datapoints(final_pass)]
    returned. *)
Definition _process_underlings (pulled : list (list DataPoint.t)) (self : t) : t :=
  foldl buffer_point self (concat pulled).

(** [for subresult in points_to_consolidate: point.merge_point(subresult)] *)
Fixpoint merge_points `{MathSqrt} (points_to_consolidate : list DataPoint.t)
    (self : t) (point : DataPoint.t) : (t * DataPoint.t) * result unit :=
  match points_to_consolidate with
  | [] => ((self, point), Ok ())
  | subresult :: rest =>
      let self1 := emit (Debug "Merging %s" [DataPoint.ts subresult]) self in
      let '((point', _), r) := DataPoint.merge_point point subresult in
      match r with
      | Ok _ => merge_points rest self1 point'
      | bad => ((self1, point'), bad)
      end
  end.

(** The loop of [_calculate_datapoints] over [timestamps]; [on_yield] is
    the body of the consumer's loop, as for the reader. *)
Fixpoint calc_loop `{MathSqrt}
    (on_yield : t → DataPoint.t → (t * DataPoint.t) * result unit)
    (final_pass : bool) (timestamps : list Z) (self : t) (out : list DataPoint.t)
    : (t * list DataPoint.t) * result unit :=
  match timestamps with
  | [] => ((self, out), Ok ())
  | tstamp :: rest =>
      if final_pass
         || bool_decide (tstamp + buffer_len self ≤ List.last timestamps tstamp)
      then
        let self1 := emit (Debug "Merging into %s" [tstamp]) self in
        match buffer self1 !! tstamp with
        | None => ((self1, out), Raise KeyError)
        | Some points_to_consolidate =>
            let self2 := set_buffer (delete tstamp (buffer self1)) self1 in
            let point := DataPoint.init tstamp (track_percentiles self2) in
            let '((self3, point'), r) := merge_points points_to_consolidate self2 point in
            match r with
            | Ok _ =>
                let '(point'', r') := DataPoint.recalculate point' in
                match r' with
                | Ok _ =>
                    let '((self4, point'''), r'') := on_yield self3 point'' in
                    match r'' with
                    | Ok _ => calc_loop on_yield final_pass rest self4 (out ++ [point'''])
                    | bad => ((self4, out), bad)
                    end
                | bad => ((self3, out), bad)
                end
            | bad => ((self3, out), bad)
            end
        end
      else ((self, out), Ok ())
  end.

(** [self._calculate_datapoints(final_pass)], consumed to its end. *)
Definition _calculate_datapoints `{MathSqrt}
    (on_yield : t → DataPoint.t → (t * DataPoint.t) * result unit)
    (final_pass : bool) (pulled : list (list DataPoint.t)) (self : t)
    : (t * list DataPoint.t) * result unit :=
  let self1 := _process_underlings pulled self in
  let self2 :=
    emit (Debug "Consolidator buffer[%s]: %s"
            (Z.of_nat (size (buffer self1)) :: (map_to_list (buffer self1)).*1)) self1 in
  if bool_decide (buffer self2 = ∅) then ((self2, []), Ok ())
  else calc_loop on_yield final_pass (ResultsReader.sorted_keys (buffer self2)) self2 [].

(** The body of the loop of [ResultsProvider.datapoints] on the
    consolidator. *)
Definition on_datapoint `{MathSqrt} (self : t) (datapoint : DataPoint.t)
    : (t * DataPoint.t) * result unit :=
  let '((cumulative', datapoint'), r) :=
    ResultsProvider.on_datapoint (track_percentiles self) (cumulative self) datapoint in
  ((set_cumulative cumulative' self, datapoint'), r).

(** [self.datapoints(final_pass)], consumed to its end, as [check] and
    [post_process] do. *)
Definition datapoints `{MathSqrt} (final_pass : bool) (pulled : list (list DataPoint.t))
    (self : t) : (t * list DataPoint.t) * result unit :=
  _calculate_datapoints on_datapoint final_pass pulled self.

End ConsolidatingAggregator.

(** ** JTLReader *)

Module JTLReader.

(** A row of the JTL file as [csv.DictReader] gives it, with the columns
    that [_read] converts by [int(...)] already converted; [Connect] is
    [None] when the column is missing. *)
Record row := {
  label : string;
  grpThreads : Z;
  allThreads : Z;
  threadName : string;
  elapsed : Z;
  Latency : Z;
  Connect : option Z;
  responseCode : string;
  success : string;
  responseMessage : string;
  timeStamp : Z
}.

(** [s.rfind(c)] *)
Fixpoint rfind_from (c : ascii) (s : list ascii) (i found : Z) : Z :=
  match s with
  | [] => found
  | x :: s' => rfind_from c s' (i + 1) (if Ascii.eqb x c then i else found)
  end.
Definition rfind (c : ascii) (s : list ascii) : Z := rfind_from c s 0 (-1).

(** [s[:k]] *)
Definition slice_to (s : list ascii) (k : Z) : list ascii :=
  if bool_decide (k < 0) then take (Z.to_nat (Z.of_nat (length s) + k)) s
  else take (Z.to_nat k) s.

(** [s.endswith(suffix)] *)
Definition endswith (s suffix : list ascii) : bool :=
  bool_decide (length suffix ≤ length s)%nat
  && bool_decide (drop (length s - length suffix) s = suffix).

(** [s.split(sep)[-1]] *)
Fixpoint last_segment (sep : ascii) (s acc : list ascii) : list ascii :=
  match s with
  | [] => acc
  | c :: s' => if Ascii.eqb c sep then last_segment sep s' [] else last_segment sep s' (acc ++ [c])
  end.

(** [int(x) / 1000.0] *)
Definition millis (x : Z) : Qc := (Qc_of_Z x / Qc_of_Z 1000)%Qc.

(** The body of the loop of [_read] for one row: the tuple it yields.
    [int(int(row["timeStamp"]) / 1000)] is the quotient truncated towards
    zero (the division is a float division in Python 3, exact for the
    timestamps below [2^53] milliseconds). *)
Definition read_row (is_distributed : bool) (r : row) : ResultsReader.raw :=
  let concur := if is_distributed then grpThreads r else allThreads r in
  let trname :=
    if is_distributed then
      let name := list_ascii_of_string (threadName r) in
      string_of_list_ascii (slice_to name (rfind " " name))
    else "" in
  let rtm := millis (elapsed r) in
  let ltc := millis (Latency r) in
  let cnn := millis <$> Connect r in
  let ltc :=
    match cnn with
    | Some cnn => if bool_decide (cnn < ltc)%Qc then (ltc - cnn)%Qc else ltc
    | None => ltc
    end in
  let rcd :=
    let code := list_ascii_of_string (responseCode r) in
    if endswith code (list_ascii_of_string "Exception")
    then string_of_list_ascii (last_segment "." code [])
    else responseCode r in
  let error := if decide (success r ≠ "true") then Some (responseMessage r) else None in
  let tstmp := Z.quot (timeStamp r) 1000 in
  {| ResultsReader.t_stamp := tstmp;
     ResultsReader.label := label r;
     ResultsReader.fields :=
       {| KPISet.s_cnc := concur; KPISet.s_r_time := rtm; KPISet.s_con_time := cnn;
          KPISet.s_latency := ltc; KPISet.s_r_code := Some rcd; KPISet.s_error := error;
          KPISet.s_trname := trname |} |}.

(** [self._read(last_pass)] over the rows that the CSV reader returns. *)
Definition _read (is_distributed : bool) (rows : list row) : list ResultsReader.read_result :=
  (λ r, ResultsReader.Row (read_row is_distributed r)) <$> rows.

End JTLReader.

(** * Vocabulary of the statements *)

(** ** Histograms and percentiles *)

(** Cumulative count of the sorted items up to and including index [i]. *)
Definition cum (cnts : list (Qc * Z)) (i : nat) : Z := Zsum (take (S i) cnts).*2.

(** Squared deviations accumulated over a prefix of the sorted items. *)
Definition sq_prefix (avg : Qc) (l : list (Qc * Z)) : Qc :=
  foldl (λ acc e, (acc + KPISet.sqr_term avg e)%Qc) 0%Qc l.

(** Invariant of the scan: the position is inside the list, [curr_pos] is
    the cumulative count at the position and [sqr_diffs] covers the items
    before it. *)
Definition scan_inv (cnts : list (Qc * Z)) (avg : Qc) (st : KPISet.scan) : Prop :=
  (KPISet.curr_cnts_pos st < length cnts)%nat
  ∧ KPISet.curr_pos st = cum cnts (KPISet.curr_cnts_pos st)
  ∧ KPISet.sqr_diffs st = sq_prefix avg (take (KPISet.curr_cnts_pos st) cnts).

(** [percentile / 100.0 * num] *)
Definition ppos (num : Z) (p : Qc) : Qc := (p / Qc_of_Z 100 * Qc_of_Z num)%Qc.

(** A percentile level accepted by the assertion of [__perc_and_stdev]. *)
Definition valid_level (p : Qc) : Prop := (0 ≤ p)%Qc ∧ (p ≤ Qc_of_Z 100)%Qc.

(** What the scan computes for level [p] on the sorted items. *)
Definition rank_at (cnts : list (Qc * Z)) (num : Z) (p v : Qc) : Prop :=
  if decide (p < Qc_of_Z 100)%Qc then
    ∃ i n, cnts !! i = Some (v, n)
      ∧ (ppos num p < Qc_of_Z (cum cnts i))%Qc
      ∧ ∀ j, (j < i)%nat → (Qc_of_Z (cum cnts j) ≤ ppos num p)%Qc
  else ∃ n, cnts !! (length cnts - 1)%nat = Some (v, n).

Definition Qcsum (l : list Qc) : Qc := foldr Qcplus 0%Qc l.

(** Every count of the histogram is positive, as in a [Counter] filled by
    [add_sample] and [merge_kpis]. *)
Definition positive_counts (h : gmap Qc Z) : Prop := ∀ v n, h !! v = Some n → 0 < n.

(** Cumulative frequency of [v]: the sum of the counts of the values up to
    and including [v]. *)
Definition cumfreq (h : gmap Qc Z) (v : Qc) : Z :=
  Counter.total (filter (λ kv, (kv.1 ≤ v)%Qc) h).

(** The entries [(value, count)] of a histogram in ascending order of the
    value. *)
Definition by_value (a b : Qc * Z) : Prop := (a.1 ≤ b.1)%Qc.

#[global] Instance by_value_dec : RelDecision by_value.
Proof. intros a b. unfold by_value. apply _. Defined.

Definition ascending (h : gmap Qc Z) : list (Qc * Z) := merge_sort by_value (map_to_list h).

(** Sum over the distinct values [v] of [count(v) * (v - avg)^2], the values
    taken in ascending order. *)
Definition sq_dev_sum (h : gmap Qc Z) (avg : Qc) : Qc :=
  foldl (λ acc vn, acc + Qc_of_Z vn.2 * ((vn.1 - avg) * (vn.1 - avg)))%Qc 0%Qc (ascending h).

(** [v] is the smallest value of [h] whose cumulative frequency is greater
    than [p/100] times the total. *)
Definition exceeds_at (h : gmap Qc Z) (p v : Qc) : Prop :=
  is_Some (h !! v)
  ∧ (ppos (Counter.total h) p < Qc_of_Z (cumfreq h v))%Qc
  ∧ ∀ v', is_Some (h !! v') →
          (ppos (Counter.total h) p < Qc_of_Z (cumfreq h v'))%Qc → (v ≤ v')%Qc.

(** [v] is the smallest value of [h] whose cumulative frequency reaches or
    exceeds [p/100] times the total (the nearest-rank percentile). *)
Definition reaches_at (h : gmap Qc Z) (p v : Qc) : Prop :=
  is_Some (h !! v)
  ∧ (ppos (Counter.total h) p ≤ Qc_of_Z (cumfreq h v))%Qc
  ∧ ∀ v', is_Some (h !! v') →
          (ppos (Counter.total h) p ≤ Qc_of_Z (cumfreq h v'))%Qc → (v ≤ v')%Qc.

Definition is_max_value (h : gmap Qc Z) (v : Qc) : Prop :=
  is_Some (h !! v) ∧ ∀ v', is_Some (h !! v') → (v' ≤ v)%Qc.

Definition is_min_value (h : gmap Qc Z) (v : Qc) : Prop :=
  is_Some (h !! v) ∧ ∀ v', is_Some (h !! v') → (v ≤ v')%Qc.

(** ** Well-formed KPISets *)

Definition wf_kpiset (k : KPISet.t) : Prop :=
  positive_counts (KPISet.rt k) ∧ Forall valid_level (KPISet.perc_levels k).

(** The average response time that [recalculate] stores. *)
Definition new_avg_rt (k : KPISet.t) : Qc :=
  if bool_decide (KPISet.throughput k ≠ 0)
  then (KPISet.sum_rt k / Qc_of_Z (KPISet.throughput k))%Qc else KPISet.avg_rt k.

(** ** Concrete inputs *)

(** A square root to six decimals, to run the model on concrete inputs. *)
Definition approx_sqrt : MathSqrt := λ q,
  Q2Qc (Z.sqrt (Qnum q * Zpos (Qden q) * 10 ^ 12) # (Qden q * 10 ^ 6)).

(** The histogram [{1: 1, 2: 1}]. *)
Definition two_values : gmap Qc Z := <[Qc_of_Z 1 := 1]> (<[Qc_of_Z 2 := 1]> ∅).

Definition sample_of (r_time : Z) (error : option string) : KPISet.sample :=
  {| KPISet.s_cnc := 1; KPISet.s_r_time := Qc_of_Z r_time; KPISet.s_con_time := None;
     KPISet.s_latency := Qc_of_Z r_time; KPISet.s_r_code := Some "200"%string;
     KPISet.s_error := error; KPISet.s_trname := ""%string |}.

Definition three_samples : KPISet.t :=
  foldl KPISet.add_sample (KPISet.init [Qc_of_Z 50; Qc_of_Z 100])
    [sample_of 1 None; sample_of 2 None; sample_of 2 (Some "boom"%string)].

(** ** KPISets built from empty *)

(** The KPISets that sequences of [add_sample] and [merge_kpis] produce
    from empty ones; a merged source is built in the same way, and
    [merge_kpis] leaves it recalculated. *)
Inductive built `{MathSqrt} : KPISet.t → Prop :=
| built_init levels : built (KPISet.init levels)
| built_add_sample k s : built k → built (KPISet.add_sample k s)
| built_recalculate k : built k → built (KPISet.recalculate k).1
| built_deepcopy k : built k → built (KPISet.deepcopy k)
| built_merge k src sid : built k → built src → built (KPISet.merge_kpis k src sid).1.1
| built_merge_src k src sid : built k → built src → built (KPISet.merge_kpis k src sid).1.2.

(** The KPISet that [add_sample] builds from a list of samples. *)
Definition from_samples (levels : list Qc) (samples : list KPISet.sample) : KPISet.t :=
  foldl KPISet.add_sample (KPISet.init levels) samples.




(** ** Exact float operations *)

(** [q] is a binary64 number: [m * 2^e] with [|m| < 2^53] and
    [-1074 <= e <= 971].  A float division or multiplication whose exact
    result is such a number returns it, and an integer that is such a number
    is converted without rounding. *)
Definition binary64 (q : Qc) : Prop :=
  ∃ m e : Z, Z.abs m < 2 ^ 53 ∧ -1074 ≤ e ≤ 971
    ∧ (q * Qc_of_Z (2 ^ Z.max 0 (- e)) = Qc_of_Z (m * 2 ^ Z.max 0 e))%Qc.

(** [q] is [m * 2^e], for concrete numbers. *)
Ltac binary64_by m e :=
  exists m, e; split_and!; [by vm_compute|lia|lia|apply Qc_is_canon; by vm_compute].

(** [percentile / 100.0 * num] is computed without rounding. *)
Definition exact_position (num : Z) (percentile : Qc) : Prop :=
  binary64 percentile ∧ binary64 (percentile / Qc_of_Z 100)%Qc
  ∧ binary64 (Qc_of_Z num) ∧ binary64 (percentile / Qc_of_Z 100 * Qc_of_Z num)%Qc.

(** [avg * count] is computed without rounding. *)
Definition exact_product (avg : Qc) (count : Z) : Prop :=
  binary64 avg ∧ binary64 (Qc_of_Z count) ∧ binary64 (avg * Qc_of_Z count)%Qc.

(** [three_samples] with a fourth sample merged in from another KPISet. *)
Definition four_samples : KPISet.t :=
  (KPISet.merge_kpis (H := approx_sqrt) three_samples
     (KPISet.add_sample (KPISet.init []) (sample_of 3 None)) None).1.1.

(** ** The JTL reader *)

(** A successful row whose latency and connect time are given in
    milliseconds. *)
Definition jtl_row (latency : Z) (connect : option Z) : JTLReader.row :=
  {| JTLReader.label := "home"; JTLReader.grpThreads := 1; JTLReader.allThreads := 1;
     JTLReader.threadName := "Thread Group 1-1"; JTLReader.elapsed := 20;
     JTLReader.Latency := latency; JTLReader.Connect := connect;
     JTLReader.responseCode := "200"; JTLReader.success := "true";
     JTLReader.responseMessage := "OK"; JTLReader.timeStamp := 1430000000000 |}.

(** The latency of the tuple that [_read] yields for a row. *)
Definition yielded_latency (is_distributed : bool) (r : JTLReader.row) : Qc :=
  KPISet.s_latency (ResultsReader.fields (JTLReader.read_row is_distributed r)).

(** ** The window of the reader *)

(** The timestamps that the loop of [_calculate_datapoints] pops from the
    sorted [timestamps]. *)
Fixpoint eligible (final_pass : bool) (buffer_len : Z) (timestamps : list Z) : list Z :=
  match timestamps with
  | [] => []
  | t :: rest =>
      if final_pass || bool_decide (t + buffer_len ≤ List.last timestamps t)
      then t :: eligible final_pass buffer_len rest
      else []
  end.

(** All KPISets of a map are well formed. *)
Definition wf_map (m : gmap string KPISet.t) : Prop := map_Forall (λ _, wf_kpiset) m.

(** A reader with buffer window 2 whose watermark has advanced to 8, and
    the same reader ignoring the label ["skip"]. *)
Definition reader_at_8 : ResultsReader.t :=
  ResultsReader.set_min_timestamp 8 (ResultsReader.init [Qc_of_Z 50] 1).

Definition reader_ignoring : ResultsReader.t :=
  {| ResultsReader.cumulative := ∅; ResultsReader.track_percentiles := [Qc_of_Z 50];
     ResultsReader.generalize_labels := true; ResultsReader.ignored_labels := ["skip"%string];
     ResultsReader.log := []; ResultsReader.buffer := ∅; ResultsReader.buffer_len := 2;
     ResultsReader.min_timestamp := 8; ResultsReader.self_id := 1 |}.

(** A raw result with timestamp [t] and label [l]. *)
Definition raw_at (t : Z) (l : string) : ResultsReader.raw :=
  {| ResultsReader.t_stamp := t; ResultsReader.label := l;
     ResultsReader.fields := sample_of 1 None |}.

(** The raw results of a pull with samples at the timestamps [ts]. *)
Definition rows_at (ts : list Z) : list ResultsReader.read_result :=
  (λ t, ResultsReader.Row (raw_at t "home")) <$> ts.

(** A fresh reader with [buffer_len = 2]. *)
Definition fresh_reader : ResultsReader.t := ResultsReader.init [Qc_of_Z 50] 1.

(** The timestamps of the data points of a pull of [_calculate_datapoints]. *)
Definition emitted_ts (final_pass : bool) (ts : list Z) (self : ResultsReader.t) : list Z :=
  DataPoint.ts <$>
    (ResultsReader._calculate_datapoints (H := approx_sqrt) ResultsReader.collect
       final_pass (rows_at ts) self).1.2.

(** ** Data points *)

(** [k] after [k.recalculate()], and [dest] after [dest.merge_kpis(src, sid)]. *)
Definition recalculated `{MathSqrt} (k : KPISet.t) : KPISet.t := (KPISet.recalculate k).1.
Definition merged `{MathSqrt} (dest src : KPISet.t) (sid : option Z) : KPISet.t :=
  (KPISet.merge_kpis dest src sid).1.1.

(** The entry of a label in the destination map after the entry [v] of the
    source, if there is one, has been merged into the find-or-create entry
    [d] of the destination. *)
Definition merged_entry `{MathSqrt} (levels : list Qc) (sid : option Z)
    (d v : option KPISet.t) : option KPISet.t :=
  match v with
  | Some v => Some (merged (default (KPISet.init levels) d) v sid)
  | None => d
  end.

(** Sample count of a label in a map of KPISets, zero when it is absent. *)
Definition throughput_at (m : gmap string KPISet.t) (label : string) : Z :=
  from_option KPISet.throughput 0 (m !! label).

Definition wf_datapoint (d : DataPoint.t) : Prop :=
  wf_map (DataPoint.current d) ∧ wf_map (DataPoint.cumulative d)
  ∧ Forall valid_level (DataPoint.perc_levels d).

(** A KPISet without its error records.  The records are objects that
    [inc_list] shares between KPISets ([Shared]); every other entry is a
    value of the KPISet. *)
Definition without_errors (k : KPISet.t) : KPISet.t :=
  {| KPISet.errors := [];
     KPISet.sum_rt := KPISet.sum_rt k; KPISet.sum_lt := KPISet.sum_lt k;
     KPISet.sum_cn := KPISet.sum_cn k; KPISet.perc_levels := KPISet.perc_levels k;
     KPISet.throughput := KPISet.throughput k; KPISet.concurrency := KPISet.concurrency k;
     KPISet.succ := KPISet.succ k; KPISet.fail := KPISet.fail k;
     KPISet.avg_rt := KPISet.avg_rt k; KPISet.stdev_rt := KPISet.stdev_rt k;
     KPISet.avg_lt := KPISet.avg_lt k; KPISet.avg_ct := KPISet.avg_ct k;
     KPISet.rt := KPISet.rt k; KPISet.rc := KPISet.rc k; KPISet.perc := KPISet.perc k;
     KPISet._concurrencies := KPISet._concurrencies k |}.

(** A KPISet holding [n] successful samples of response time 1. *)
Definition kpiset_of_count (n : Z) : KPISet.t :=
  {| KPISet.sum_rt := Qc_of_Z n; KPISet.sum_lt := 0; KPISet.sum_cn := 0;
     KPISet.perc_levels := [Qc_of_Z 50];
     KPISet.throughput := n; KPISet.concurrency := 0; KPISet.succ := n; KPISet.fail := 0;
     KPISet.avg_rt := 0; KPISet.stdev_rt := 0; KPISet.avg_lt := 0; KPISet.avg_ct := 0;
     KPISet.errors := []; KPISet.rt := {[Qc_of_Z 1 := n]}; KPISet.rc := {["200"%string := n]};
     KPISet.perc := ∅; KPISet._concurrencies := ∅ |}.

(** The data point of source [sid] for timestamp [timestamp], whose overall
    label holds 100 samples. *)
Definition point_of_source (sid timestamp : Z) : DataPoint.t :=
  {| DataPoint.perc_levels := [Qc_of_Z 50]; DataPoint.source_id := Some sid;
     DataPoint.ts := timestamp;
     DataPoint.cumulative := {[""%string := kpiset_of_count 100]};
     DataPoint.current := {[""%string := kpiset_of_count 100]};
     DataPoint.subresults := [] |}.

(** A data point of source 2 for timestamp 5 whose overall KPISet, holding
    one sample, asks for the percentile level 101. *)
Definition point_with_level_101 : DataPoint.t :=
  {| DataPoint.perc_levels := [Qc_of_Z 50]; DataPoint.source_id := Some 2;
     DataPoint.ts := 5; DataPoint.cumulative := ∅;
     DataPoint.current :=
       {[""%string := KPISet.add_sample (KPISet.init [Qc_of_Z 101]) (sample_of 1 None)]};
     DataPoint.subresults := [] |}.

(** A dictionary with the entries of a KPISet of three samples whose
    three averages are one half. *)
Definition dictionary_of_three : KPISet.t :=
  {| KPISet.sum_rt := 0; KPISet.sum_lt := 0; KPISet.sum_cn := 0; KPISet.perc_levels := [];
     KPISet.throughput := 3; KPISet.concurrency := 0; KPISet.succ := 3; KPISet.fail := 0;
     KPISet.avg_rt := Q2Qc (1 # 2); KPISet.stdev_rt := 0;
     KPISet.avg_lt := Q2Qc (1 # 2); KPISet.avg_ct := Q2Qc (1 # 2);
     KPISet.errors := []; KPISet.rt := {[Q2Qc (1 # 2) := 3]};
     KPISet.rc := {["200"%string := 3]}; KPISet.perc := ∅; KPISet._concurrencies := ∅ |}.

(** ** The consolidator *)

(** A consolidator whose buffer holds, for timestamp 5, one data point from
    each of two sources. *)
Definition consolidator_with_two : ConsolidatingAggregator.t :=
  ConsolidatingAggregator._process_underlings
    [[point_of_source 1 5]; [point_of_source 2 5]]
    {| ConsolidatingAggregator.cumulative := ∅;
       ConsolidatingAggregator.track_percentiles := [Qc_of_Z 50];
       ConsolidatingAggregator.generalize_labels := true;
       ConsolidatingAggregator.ignored_labels := [];
       ConsolidatingAggregator.log := []; ConsolidatingAggregator.buffer := ∅;
       ConsolidatingAggregator.buffer_len := 2 |}.

(** ** Labels *)

(** The three rules of [label_generalize_regexps]. *)
Definition uuid_rule : Re.t := (default (Re.Boundary, ""%string) (ResultsReader.label_generalize_regexps !! 0%nat)).1.
Definition hex_rule : Re.t := (default (Re.Boundary, ""%string) (ResultsReader.label_generalize_regexps !! 1%nat)).1.
Definition digit_rule : Re.t := (default (Re.Boundary, ""%string) (ResultsReader.label_generalize_regexps !! 2%nat)).1.

(** Every character of the label is an ASCII character (code below 128). *)
Definition ascii_label (label : string) : Prop :=
  Forall (λ c, (nat_of_ascii c < 128)%nat) (list_ascii_of_string label).

(** The label ["/item/" + h]. *)
Definition item_label (h : list ascii) : string :=
  string_of_list_ascii (list_ascii_of_string "/item/" ++ h).

(** ** Sums over dictionaries and error lists *)

(** Sum of [f] over the values of a dictionary. *)
Definition map_sum `{Countable K} {V} (f : V → Z) (m : gmap K V) : Z :=
  Zsum (f <$> (map_to_list m).*2).

(** Sum of the counts of the error records of a list, and of those that
    carry the message [msg]. *)
Definition error_total (l : list KPISet.error_item) : Z := Zsum (KPISet.err_cnt <$> l).

Definition count_of (msg : string) (l : list KPISet.error_item) : Z :=
  error_total (filter (λ item, KPISet.err_msg item = msg) l).

(** The samples of a list that failed with the message [msg]. *)
Definition failed_with (msg : string) (samples : list KPISet.sample) : list KPISet.sample :=
  filter (λ s, KPISet.s_error s = Some msg) samples.

(** The entry [perc] after the pairs [percs] have been stored in it, as in
    the loop of [recalculate]. *)
Definition put_percentiles (m : gmap Qc Qc) (percs : list (Qc * Qc)) : gmap Qc Qc :=
  foldl (λ m lv, <[lv.1 := lv.2]> m) m percs.

(** ** The buffer of the reader *)

(** Number of samples that a buffer holds. *)
Definition buffered {A} (b : gmap Z (list A)) : Z :=
  map_sum (λ l : list A, Z.of_nat (length l)) b.

(** The rows whose label is not in the ignore list, and the rows whose
    timestamp is below a watermark. *)
Definition accepted (ignored : list string) (rows : list ResultsReader.raw)
    : list ResultsReader.raw :=
  filter (λ r, ResultsReader.label r ∉ ignored) rows.

Definition late (watermark : Z) (rows : list ResultsReader.raw) : list ResultsReader.raw :=
  filter (λ r, ResultsReader.t_stamp r < watermark) rows.

Definition is_warning (r : log_record) : bool :=
  match r with
  | Warning _ _ => true
  | Debug _ _ => false
  end.

Definition warnings (log : list log_record) : list log_record :=
  filter (λ r, is_warning r = true) log.

(** No buffered timestamp is below the watermark. *)
Definition keys_above (self : ResultsReader.t) : Prop :=
  ∀ t, is_Some (ResultsReader.buffer self !! t) → ResultsReader.min_timestamp self ≤ t.

(** The label under which [__aggreagate_current] counts a sample of label
    [l]. *)
Definition bucket_label (self : ResultsReader.t) (l : string) : string :=
  let l := if decide (l = ""%string) then "[empty]"%string else l in
  if ResultsReader.generalize_labels self then ResultsReader.__generalize_label l else l.

(** The samples of a bucket that are counted under the label [l]. *)
Definition counted_under (self : ResultsReader.t) (l : string)
    (samples : list (string * KPISet.sample)) : list (string * KPISet.sample) :=
  filter (λ s, bucket_label self s.1 = l) samples.

(** ** The buffer of the consolidator *)

(** Every buffered data point carries the timestamp it is buffered under. *)
Definition keyed (b : gmap Z (list DataPoint.t)) : Prop :=
  ∀ t points, b !! t = Some points → Forall (λ d, DataPoint.ts d = t) points.

(** The KPISets of a data point, and of every buffered data point, are
    well formed. *)
Definition wf_point (d : DataPoint.t) : Prop :=
  wf_map (DataPoint.current d) ∧ wf_map (DataPoint.cumulative d).

Definition wf_points (b : gmap Z (list DataPoint.t)) : Prop :=
  ∀ t points, b !! t = Some points → Forall wf_point points.

(** Sample count of the label [l] over the data points buffered under [t]. *)
Definition buffered_at (b : gmap Z (list DataPoint.t)) (t : Z) (l : string) : Z :=
  Zsum ((λ d, throughput_at (DataPoint.current d) l) <$> default [] (b !! t)).

(** [m] is the smallest timestamp of the buffer. *)
Definition is_min_key {V} (b : gmap Z V) (m : Z) : Prop :=
  is_Some (b !! m) ∧ ∀ t, is_Some (b !! t) → m ≤ t.

(** The thread name and the response code of the tuple that [_read]
    yields for a row. *)
Definition yielded_trname (is_distributed : bool) (r : JTLReader.row) : string :=
  KPISet.s_trname (ResultsReader.fields (JTLReader.read_row is_distributed r)).

Definition yielded_code (is_distributed : bool) (r : JTLReader.row) : option string :=
  KPISet.s_r_code (ResultsReader.fields (JTLReader.read_row is_distributed r)).

(** A row of a distributed test with the thread name [name] and the
    response code [code]. *)
Definition jtl_row_named (name code : string) : JTLReader.row :=
  {| JTLReader.label := "home"; JTLReader.grpThreads := 1; JTLReader.allThreads := 1;
     JTLReader.threadName := name; JTLReader.elapsed := 20;
     JTLReader.Latency := 3; JTLReader.Connect := None;
     JTLReader.responseCode := code; JTLReader.success := "false";
     JTLReader.responseMessage := "failed"; JTLReader.timeStamp := 1430000000000 |}.

(** The shape of the second and the third rule: a run of two or more
    characters of a class between word boundaries. *)
Definition run_rule (cls : ascii → bool) : Re.t :=
  Re.Cat Re.Boundary (Re.Cat (Re.Rep cls 2 None) Re.Boundary).

(** The continuation of the repetition in [run_rule]: the closing [\b]. *)
Definition closing_boundary (prev : option ascii) (s : list ascii) (n : nat) : option nat :=
  Re.run Re.Boundary prev s n (λ _ _ n, Some n).

(** The character before the rest of the input, after the run [ds] that
    followed [prev]. *)
Definition last_or (prev : option ascii) (ds : list ascii) : option ascii :=
  match list.last ds with
  | Some c => Some c
  | None => prev
  end.

(** A class of word characters. *)
Definition word_class (cls : ascii → bool) : Prop :=
  ∀ c, cls c = true → Re.is_word c = true.

(** ** Shared error records *)

(** The record [i] after [inc_list] has added the record [v] to it. *)
Definition incremented (i v : KPISet.error_item) : KPISet.error_item :=
  {| KPISet.err_cnt := KPISet.err_cnt i + KPISet.err_cnt v;
     KPISet.err_msg := KPISet.err_msg i;
     KPISet.err_rc := KPISet.err_rc i;
     KPISet.err_type := KPISet.err_type i;
     KPISet.err_urls := Counter.iadd (KPISet.err_urls i) (KPISet.err_urls v) |}.

(** No record of the list [l] carries the message [msg]. *)
Definition without_message (h : gmap nat KPISet.error_item) (msg : string) (l : list nat) : Prop :=
  Forall (λ r, ∃ i, h !! r = Some i ∧ KPISet.err_msg i ≠ msg) l.

(** A store with two records of the same message, as two labels that both
    failed once with ["boom"] have them. *)
Definition two_booms : gmap nat KPISet.error_item :=
  {[ 0%nat := KPISet.error_item_skel "boom" (Some "500"%string) 1 KPISet.ERRTYPE_ERROR ∅;
     1%nat := KPISet.error_item_skel "boom" (Some "500"%string) 1 KPISet.ERRTYPE_ERROR ∅ ]}.

(** ** Concurrency and averages *)

(** The samples that report a concurrency. *)
Definition reporting (samples : list KPISet.sample) : list KPISet.sample :=
  filter (λ s, KPISet.s_cnc s ≠ 0) samples.


(** * Percentiles and standard deviation *)

Lemma Zsum_app l1 l2 : Zsum (l1 ++ l2) = Zsum l1 + Zsum l2.
Proof. unfold Zsum. induction l1 as [|x l1 IH]; simpl; [done|]. rewrite IH. lia. Qed.

Lemma Zsum_perm l1 l2 : l1 ≡ₚ l2 → Zsum l1 = Zsum l2.
Proof. unfold Zsum. induction 1; simpl; lia. Qed.

Lemma Zsum_pos l : Forall (λ n, 0 < n) l → 0 ≤ Zsum l.
Proof. unfold Zsum. induction 1; simpl; lia. Qed.

Lemma index_ok {A} (l : list A) i x : l !! i = Some x → index l i = Ok x.
Proof. unfold index. by intros ->. Qed.

Lemma cum_S cnts i e : cnts !! S i = Some e → cum cnts (S i) = cum cnts i + e.2.
Proof.
  intros He. unfold cum. rewrite (take_S_r _ (S i) e He).
  rewrite fmap_app, Zsum_app. simpl. lia.
Qed.

Lemma cum_last cnts i : (length cnts ≤ S i)%nat → cum cnts i = Zsum cnts.*2.
Proof. intros. unfold cum. by rewrite take_ge by lia. Qed.

Lemma sq_prefix_snoc avg l e :
  sq_prefix avg (l ++ [e]) = (sq_prefix avg l + KPISet.sqr_term avg e)%Qc.
Proof. unfold sq_prefix. by rewrite foldl_app. Qed.

Section scan.
Context (cnts : list (Qc * Z)) (avg : Qc).

Lemma advance_spec fuel pos st :
  scan_inv cnts avg st →
  (pos < Qc_of_Z (Zsum cnts.*2))%Qc →
  (length cnts ≤ fuel + KPISet.curr_cnts_pos st)%nat →
  ∃ st', KPISet.advance fuel cnts avg pos st = Ok st'
    ∧ scan_inv cnts avg st'
    ∧ (KPISet.curr_cnts_pos st ≤ KPISet.curr_cnts_pos st')%nat
    ∧ (pos < Qc_of_Z (cum cnts (KPISet.curr_cnts_pos st')))%Qc
    ∧ ∀ j, (KPISet.curr_cnts_pos st ≤ j < KPISet.curr_cnts_pos st')%nat →
           (Qc_of_Z (cum cnts j) ≤ pos)%Qc.
Proof.
  revert st. induction fuel as [|fuel IH]; intros st (Hlt & Hpos & Hsq) Hnum Hfuel.
  - simpl in Hfuel. lia.
  - simpl. case_bool_decide as Hle; simpl.
    2:{ exists st. split_and!; try done.
        + rewrite <-Hpos. by apply Qclt_nge.
        + intros j ?. lia. }
    rewrite bool_decide_true by done.
    destruct (lookup_lt_is_Some_2 cnts _ Hlt) as [e He].
    rewrite (index_ok _ _ _ He). simpl.
    destruct (decide (S (KPISet.curr_cnts_pos st) < length cnts)%nat) as [Hlt'|Hge].
    2:{ exfalso. rewrite Hpos, cum_last in Hle by lia.
        by apply Qclt_nge in Hnum. }
    destruct (lookup_lt_is_Some_2 cnts _ Hlt') as [e' He'].
    rewrite (index_ok _ _ _ He'). simpl.
    edestruct (IH {| KPISet.curr_cnts_pos := S (KPISet.curr_cnts_pos st);
                     KPISet.curr_pos := KPISet.curr_pos st + e'.2;
                     KPISet.sqr_diffs := (KPISet.sqr_diffs st + KPISet.sqr_term avg e)%Qc |})
      as (st' & Hrun & Hinv & Hmono & Hgt & Hbelow); simpl.
    + split_and!; simpl; [done| |].
      * rewrite (cum_S _ _ _ He'). by rewrite Hpos.
      * rewrite (take_S_r _ _ _ He), sq_prefix_snoc. by rewrite Hsq.
    + done.
    + lia.
    + simpl in Hmono, Hbelow. exists st'. split_and!; try done; [lia|].
      intros j Hj. destruct (decide (j = KPISet.curr_cnts_pos st)) as [->|].
      * by rewrite <-Hpos.
      * apply Hbelow. lia.
Qed.
End scan.

Lemma Qc_of_Z_pos n : 0 < n → (0 < Qc_of_Z n)%Qc.
Proof. intros. rewrite <-Z2Qc_inj_0. by apply (proj1 (Z2Qc_inj_lt 0 n)). Qed.

Lemma Qc_of_Z_nonneg n : 0 ≤ n → (0 ≤ Qc_of_Z n)%Qc.
Proof. intros. rewrite <-Z2Qc_inj_0. by apply (proj1 (Z2Qc_inj_le 0 n)). Qed.

Lemma hundred_pos : (0 < Qc_of_Z 100)%Qc.
Proof. by apply Qc_of_Z_pos. Qed.

Lemma ppos_mono num p p' : 0 ≤ num → (p ≤ p')%Qc → (ppos num p ≤ ppos num p')%Qc.
Proof.
  intros Hnum Hp. unfold ppos, Qcdiv.
  apply Qcmult_le_compat_r.
  - apply Qcmult_le_compat_r; [done|]. apply Qclt_le_weak, Qcinv_pos, hundred_pos.
  - by apply Qc_of_Z_nonneg.
Qed.

Lemma ppos_lt num p : 0 < num → (p < Qc_of_Z 100)%Qc → (ppos num p < Qc_of_Z num)%Qc.
Proof.
  intros Hnum Hp. unfold ppos, Qcdiv.
  rewrite <-(Qcmult_1_l (Qc_of_Z num)) at 2.
  apply Qcmult_lt_compat_r.
  - by apply Qc_of_Z_pos.
  - rewrite <-(Qcmult_inv_r (Qc_of_Z 100)).
    + apply Qcmult_lt_compat_r; [|done]. apply Qcinv_pos, hundred_pos.
    + intros H. pose proof hundred_pos as H'. rewrite H in H'. by apply Qclt_not_eq in H'.
Qed.

Lemma for_each_cons {A S} (f : S → A → result S) acc x l :
  for_each f acc (x :: l) = f acc x ≫= λ acc', for_each f acc' l.
Proof. done. Qed.

Section perc_loop.
Context (cnts : list (Qc * Z)) (avg : Qc).
Let num := Zsum cnts.*2.

Lemma perc_step_spec st acc p :
  scan_inv cnts avg st →
  0 < num →
  (∀ j, (j < KPISet.curr_cnts_pos st)%nat → (Qc_of_Z (cum cnts j) ≤ ppos num p)%Qc) →
  ∃ st' v,
    KPISet.perc_step cnts num avg (st, acc) p = Ok (st', acc ++ [(p, v)])
    ∧ scan_inv cnts avg st'
    ∧ rank_at cnts num p v
    ∧ ∀ j, (j < KPISet.curr_cnts_pos st')%nat → (Qc_of_Z (cum cnts j) ≤ ppos num p)%Qc.
Proof.
  intros Hinv Hnum Hbelow. unfold KPISet.perc_step, rank_at. case_bool_decide as Hp.
  - destruct (advance_spec cnts avg (length cnts) (ppos num p) st Hinv)
      as (st1 & Hadv & Hinv1 & Hmono & Hgt & Hbelow1).
    { by apply ppos_lt. }
    { lia. }
    unfold ppos in Hadv. rewrite Hadv. simpl.
    pose proof Hinv1 as (Hlt1 & _).
    destruct (lookup_lt_is_Some_2 cnts _ Hlt1) as [[v n] He].
    rewrite (index_ok _ _ _ He). simpl.
    assert (∀ j, (j < KPISet.curr_cnts_pos st1)%nat →
                 (Qc_of_Z (cum cnts j) ≤ ppos num p)%Qc) as Hall.
    { intros j Hj. destruct (decide (j < KPISet.curr_cnts_pos st)%nat).
      - by apply Hbelow.
      - apply Hbelow1. lia. }
    exists st1, v. split_and!; try done.
    rewrite decide_True by done. by exists (KPISet.curr_cnts_pos st1), n.
  - pose proof Hinv as (Hlt & _).
    destruct (lookup_lt_is_Some_2 cnts (length cnts - 1)%nat) as [[v n] He]; [lia|].
    rewrite (index_ok _ _ _ He). simpl.
    exists st, v. split_and!; try done.
    rewrite decide_False by done. by exists n.
Qed.

Lemma perc_loop_spec ps : ∀ st acc,
  scan_inv cnts avg st →
  0 < num →
  StronglySorted Qcle ps →
  (∀ j p, (j < KPISet.curr_cnts_pos st)%nat → p ∈ ps →
          (Qc_of_Z (cum cnts j) ≤ ppos num p)%Qc) →
  ∃ st' out,
    for_each (KPISet.perc_step cnts num avg) (st, acc) ps = Ok (st', acc ++ out)
    ∧ scan_inv cnts avg st'
    ∧ Forall2 (λ p o, o.1 = p ∧ rank_at cnts num p o.2) ps out.
Proof.
  induction ps as [|p ps IH]; intros st acc Hinv Hnum Hsorted Hbelow.
  { exists st, []. simpl. rewrite app_nil_r. by split_and!. }
  apply StronglySorted_inv in Hsorted as [Hsorted Hall].
  rewrite list.Forall_forall in Hall.
  destruct (perc_step_spec st acc p Hinv Hnum) as (st1 & v & Hstep & Hinv1 & Hrank & Hbelow1).
  { intros j Hj. apply Hbelow; [done|]. by left. }
  destruct (IH st1 (acc ++ [(p, v)])) as (st' & out & Hrun & Hinv' & Hout); try done.
  { intros j p' Hj Hp'. trans (ppos num p); [by apply Hbelow1|].
    apply ppos_mono; [lia|]. by apply Hall. }
  exists st', ((p, v) :: out). split_and!; [|done|].
  - rewrite for_each_cons, Hstep. cbn [mbind result_bind]. rewrite Hrun.
    by rewrite <-app_assoc.
  - by constructor.
Qed.
End perc_loop.

Lemma Qcsum_perm l1 l2 : l1 ≡ₚ l2 → Qcsum l1 = Qcsum l2.
Proof.
  unfold Qcsum. induction 1; simpl; try congruence.
  rewrite !Qcplus_assoc. f_equal. apply Qcplus_comm.
Qed.

Lemma foldl_sqr avg l a :
  foldl (λ acc e, (acc + KPISet.sqr_term avg e)%Qc) a l
  = (a + Qcsum (KPISet.sqr_term avg <$> l))%Qc.
Proof.
  revert a. induction l as [|e l IH]; intros a; simpl.
  - by rewrite Qcplus_0_r.
  - rewrite IH. by rewrite Qcplus_assoc.
Qed.

#[local] Instance item_le_trans : Transitive KPISet.item_le.
Proof.
  intros [a1 a2] [b1 b2] [c1 c2]. unfold KPISet.item_le. simpl.
  intros [H1|[-> H1]] [H2|[-> H2]].
  - left. by trans b1.
  - by left.
  - by left.
  - right. split; [done|lia].
Qed.

#[local] Instance item_le_total : Total KPISet.item_le.
Proof.
  intros [a1 a2] [b1 b2]. unfold KPISet.item_le. simpl.
  destruct (Qclt_le_dec a1 b1) as [?|Hle]; [by left; left|].
  destruct (Qclt_le_dec b1 a1) as [?|Hle']; [by right; left|].
  assert (a1 = b1) as -> by by apply Qcle_antisym.
  destruct (Z.le_ge_cases a2 b2); [left|right]; by right.
Qed.

Lemma sorted_items_perm h : KPISet.sorted_items h ≡ₚ map_to_list h.
Proof. apply merge_sort_Permutation. Qed.

Lemma sorted_items_elem h v n : (v, n) ∈ KPISet.sorted_items h ↔ h !! v = Some n.
Proof. rewrite sorted_items_perm. apply elem_of_map_to_list. Qed.

Lemma sorted_items_strict h :
  StronglySorted (λ a b : Qc * Z, (a.1 < b.1)%Qc) (KPISet.sorted_items h).
Proof.
  pose proof (StronglySorted_merge_sort KPISet.item_le (map_to_list h)) as Hs.
  assert (NoDup (KPISet.sorted_items h).*1) as Hnd.
  { rewrite sorted_items_perm. apply NoDup_fst_map_to_list. }
  unfold KPISet.sorted_items in *.
  induction Hs as [|a l Hs IH Hall]; [constructor|].
  apply list.NoDup_cons in Hnd as [Hnotin Hnd].
  constructor; [by apply IH|].
  rewrite list.Forall_forall in Hall |- *. intros b Hb.
  destruct (Hall b Hb) as [?|[Heq _]]; [done|].
  exfalso. apply Hnotin. rewrite Heq. apply list_elem_of_fmap. by exists b.
Qed.

#[local] Instance by_value_trans : Transitive by_value.
Proof. intros a b c. unfold by_value. apply Qcle_trans. Qed.

#[local] Instance by_value_total : Total by_value.
Proof.
  intros a b. unfold by_value.
  destruct (Qclt_le_dec a.1 b.1) as [?%Qclt_le_weak|?]; [by left|by right].
Qed.

Lemma sorted_items_ascending h : KPISet.sorted_items h = ascending h.
Proof.
  apply (StronglySorted_unique_strong by_value).
  - intros [v1 n1] [v2 n2] H1 H2 Hle Hge. unfold by_value in *. simpl in *.
    assert (v1 = v2) as -> by by apply Qcle_antisym.
    apply sorted_items_elem in H1.
    unfold ascending in H2. rewrite merge_sort_Permutation in H2.
    apply elem_of_map_to_list in H2. congruence.
  - induction (sorted_items_strict h) as [|a l _ IH Hall]; constructor; [done|].
    eapply list.Forall_impl; [done|]. intros b. apply Qclt_le_weak.
  - apply StronglySorted_merge_sort; apply _.
  - unfold ascending. by rewrite sorted_items_perm, merge_sort_Permutation.
Qed.

Lemma filter_above_nil (l : list (Qc * Z)) v :
  Forall (λ b : Qc * Z, (v < b.1)%Qc) l →
  filter (λ kv : Qc * Z, (kv.1 ≤ v)%Qc) l = [].
Proof.
  induction 1 as [|b l Hb _ IH]; [done|].
  rewrite filter_cons_False; [done|]. by apply Qclt_not_le.
Qed.

Lemma filter_take_sorted (cnts : list (Qc * Z)) i v n :
  StronglySorted (λ a b : Qc * Z, (a.1 < b.1)%Qc) cnts →
  cnts !! i = Some (v, n) →
  filter (λ kv : Qc * Z, (kv.1 ≤ v)%Qc) cnts = take (S i) cnts.
Proof.
  intros Hs. revert i. induction Hs as [|a l Hs IH Hall]; intros i Hi; [done|].
  destruct i as [|i]; simpl in Hi.
  - injection Hi as ->. rewrite filter_cons_True by (simpl; apply Qcle_refl).
    simpl. f_equal. rewrite take_0. by apply filter_above_nil.
  - rewrite filter_cons_True.
    + simpl. f_equal. by apply IH.
    + simpl. apply Qclt_le_weak. rewrite list.Forall_forall in Hall.
      apply (Hall (v, n)). by eapply list_elem_of_lookup_2.
Qed.

Lemma map_to_list_filter_perm (h : gmap Qc Z) (P : Qc * Z → Prop) `{∀ x, Decision (P x)} :
  map_to_list (filter P h) ≡ₚ filter P (map_to_list h).
Proof.
  apply NoDup_Permutation.
  - apply NoDup_map_to_list.
  - apply list.NoDup_filter, NoDup_map_to_list.
  - intros [k x]. rewrite elem_of_map_to_list, list_elem_of_filter, elem_of_map_to_list.
    rewrite map_lookup_filter_Some. tauto.
Qed.

Lemma cumfreq_index h i v n :
  KPISet.sorted_items h !! i = Some (v, n) →
  cumfreq h v = cum (KPISet.sorted_items h) i.
Proof.
  intros Hi. unfold cumfreq, cum, Counter.total.
  rewrite <-(filter_take_sorted _ i v n (sorted_items_strict h) Hi).
  apply Zsum_perm, fmap_Permutation.
  rewrite map_to_list_filter_perm. by rewrite sorted_items_perm.
Qed.

Lemma levels_check levels :
  Forall valid_level levels →
  forallb (λ p, bool_decide (0 ≤ p)%Qc && bool_decide (p ≤ Qc_of_Z 100)%Qc) levels = true.
Proof.
  induction 1 as [|p l [H0 H100] _ IH]; [done|]. simpl.
  by rewrite !bool_decide_true, IH.
Qed.

Lemma total_sorted h : Counter.total h = Zsum (KPISet.sorted_items h).*2.
Proof. unfold Counter.total. apply Zsum_perm, fmap_Permutation. by rewrite sorted_items_perm. Qed.

Lemma sorted_items_length h : length (KPISet.sorted_items h) = size h.
Proof. by rewrite sorted_items_perm, length_map_to_list. Qed.

Lemma total_pos (h : gmap Qc Z) : h ≠ ∅ → positive_counts h → 0 < Counter.total h.
Proof.
  intros Hne Hpos. unfold Counter.total.
  destruct (map_to_list h) as [|[v n] l] eqn:Hl.
  { by apply map_to_list_empty_iff in Hl. }
  assert (Forall (λ n, 0 < n) ((v, n) :: l).*2) as Hall.
  { rewrite <-Hl. apply list.Forall_forall. intros m Hm.
    apply list_elem_of_fmap in Hm as [[v' m'] [-> Hm]].
    apply elem_of_map_to_list in Hm. by eapply Hpos. }
  simpl in *. apply list.Forall_cons in Hall as [? Hall%Zsum_pos]. unfold Zsum in *. simpl. lia.
Qed.

Lemma perc_and_stdev_spec `{MathSqrt} (h : gmap Qc Z) levels avg :
  positive_counts h → Forall valid_level levels → h ≠ ∅ →
  ∃ percs,
    KPISet.perc_and_stdev h levels avg
    = Ok (percs, math_sqrt (sq_dev_sum h avg / Qc_of_Z (Z.of_nat (size h)))%Qc)
    ∧ Forall2 (λ p o, o.1 = p ∧ rank_at (KPISet.sorted_items h) (Counter.total h) p o.2)
        (merge_sort Qcle levels) percs.
Proof.
  intros Hpos Hlv Hne. unfold KPISet.perc_and_stdev.
  rewrite (levels_check _ Hlv). simpl. rewrite bool_decide_false by done.
  set (cnts := KPISet.sorted_items h).
  assert (0 < length cnts)%nat as Hlen.
  { unfold cnts. rewrite sorted_items_length.
    destruct (decide (size h = 0%nat)) as [H0%map_size_empty_iff|]; [done|lia]. }
  destruct (lookup_lt_is_Some_2 cnts 0%nat Hlen) as [first Hfirst].
  rewrite (index_ok _ _ _ Hfirst). cbn [mbind result_bind].
  rewrite (total_sorted h). fold cnts.
  destruct (perc_loop_spec cnts avg (merge_sort Qcle levels)
              {| KPISet.curr_cnts_pos := 0; KPISet.curr_pos := first.2;
                 KPISet.sqr_diffs := 0 |} [])
    as (st' & out & Hrun & (Hlt & Hcur & Hsq) & Hout).
  - split_and!; simpl; [done| |done].
    unfold cum. rewrite (take_S_r _ _ _ Hfirst). simpl. unfold Zsum. simpl. lia.
  - unfold cnts. rewrite <-total_sorted. by apply total_pos.
  - apply StronglySorted_merge_sort; apply _.
  - simpl. intros j p Hj. lia.
  - rewrite Hrun. cbn [mbind result_bind]. simpl.
    exists out. split; [|done].
    rewrite Hsq. unfold sq_prefix. rewrite <-foldl_app, take_drop.
    unfold sq_dev_sum, cnts. rewrite <-sorted_items_ascending.
    by rewrite sorted_items_length.
Qed.

Lemma sorted_lookup_le (cnts : list (Qc * Z)) i j a b :
  StronglySorted (λ a b : Qc * Z, (a.1 < b.1)%Qc) cnts →
  (i ≤ j)%nat → cnts !! i = Some a → cnts !! j = Some b → (a.1 ≤ b.1)%Qc.
Proof.
  intros Hs. revert i j. induction Hs as [|x l Hs IH Hall]; intros i j Hij Hi Hj; [done|].
  destruct i as [|i], j as [|j]; simpl in *; try lia.
  - simplify_eq. apply Qcle_refl.
  - simplify_eq. apply Qclt_le_weak. rewrite list.Forall_forall in Hall.
    apply Hall. by eapply list_elem_of_lookup_2.
  - eapply (IH i j); [lia|done..].
Qed.

Lemma rank_exceeds h p v :
  (p < Qc_of_Z 100)%Qc →
  rank_at (KPISet.sorted_items h) (Counter.total h) p v → exceeds_at h p v.
Proof.
  intros Hp. unfold rank_at. rewrite decide_True by done.
  intros (i & n & Hi & Hgt & Hbelow). split_and!.
  - exists n. apply sorted_items_elem. by eapply list_elem_of_lookup_2.
  - by rewrite (cumfreq_index h i v n).
  - intros v' [n' Hv'] Hgt'.
    apply sorted_items_elem, list_elem_of_lookup_1 in Hv' as [j Hj].
    rewrite (cumfreq_index h j v' n') in Hgt' by done.
    destruct (decide (j < i)%nat) as [Hlt|Hge].
    + apply Hbelow in Hlt. by apply Qclt_not_le in Hgt'.
    + apply (sorted_lookup_le _ i j (v, n) (v', n') (sorted_items_strict h)); [lia|done..].
Qed.

Lemma rank_max h p v :
  ¬ (p < Qc_of_Z 100)%Qc →
  rank_at (KPISet.sorted_items h) (Counter.total h) p v → is_max_value h v.
Proof.
  intros Hp. unfold rank_at. rewrite decide_False by done.
  intros (n & Hlast). split.
  - exists n. apply sorted_items_elem. by eapply list_elem_of_lookup_2.
  - intros v' [n' Hv'].
    apply sorted_items_elem, list_elem_of_lookup_1 in Hv' as [j Hj].
    apply (sorted_lookup_le _ j (length (KPISet.sorted_items h) - 1)%nat (v', n') (v, n)
             (sorted_items_strict h)); [|done..].
    apply lookup_lt_Some in Hj. lia.
Qed.

Lemma rank_min h v :
  positive_counts h →
  rank_at (KPISet.sorted_items h) (Counter.total h) 0%Qc v → is_min_value h v.
Proof.
  intros Hpos. unfold rank_at. rewrite decide_True by apply hundred_pos.
  intros (i & n & Hi & Hgt & Hbelow).
  assert (i = 0)%nat as ->.
  { destruct i as [|i]; [done|]. exfalso.
    assert (is_Some (KPISet.sorted_items h !! 0%nat)) as [[v0 n0] H0].
    { apply lookup_lt_is_Some. apply lookup_lt_Some in Hi. lia. }
    specialize (Hbelow 0%nat ltac:(lia)). revert Hbelow. apply Qclt_not_le.
    unfold ppos, Qcdiv. rewrite !Qcmult_0_l. apply Qc_of_Z_pos.
    unfold cum. rewrite (take_S_r _ _ _ H0). simpl. unfold Zsum. simpl.
    assert (0 < n0); [|lia]. apply (Hpos v0), sorted_items_elem.
    by eapply list_elem_of_lookup_2. }
  split.
  - exists n. apply sorted_items_elem. by eapply list_elem_of_lookup_2.
  - intros v' [n' Hv'].
    apply sorted_items_elem, list_elem_of_lookup_1 in Hv' as [j Hj].
    apply (sorted_lookup_le _ 0%nat j (v, n) (v', n') (sorted_items_strict h)); [lia|done..].
Qed.

Lemma Forall2_tagged {A B} (P : A → B → Prop) (ps : list A) (os : list (A * B)) :
  Forall2 (λ p o, o.1 = p ∧ P p o.2) ps os →
  os.*1 = ps ∧ ∀ p v, (p, v) ∈ os → P p v.
Proof.
  induction 1 as [|p o ps os Hpo _ IH]; simpl in *.
  - split; [done|]. intros p v Hin. by apply elem_of_nil in Hin.
  - destruct o as [p' v'], Hpo as [Ho Hp], IH as [IH1 IH2]; simpl in *.
    subst. split; [done|].
    intros q v [Heq|Hin]%list.elem_of_cons; [by simplify_eq|by apply IH2].
Qed.

(** What the scan returns on a non-empty histogram when the position
    [percentile / 100.0 * num] is the exact product, as it is in the model:
    one pair for every requested level, in ascending order of level; for a
    level below 100 the smallest value whose cumulative frequency is greater
    than the level's share of the total; for level 100 the maximum; for
    level 0 the minimum. *)
Lemma percentiles_strictly_exceed `{MathSqrt} (h : gmap Qc Z) levels avg :
  h ≠ ∅ → positive_counts h → Forall valid_level levels →
  ∃ percs stdev,
    KPISet.perc_and_stdev h levels avg = Ok (percs, stdev)
    ∧ percs.*1 = merge_sort Qcle levels
    ∧ ∀ p v, (p, v) ∈ percs →
        ((p < Qc_of_Z 100)%Qc → exceeds_at h p v)
        ∧ (p = Qc_of_Z 100 → is_max_value h v)
        ∧ (p = 0%Qc → is_min_value h v).
Proof.
  intros Hne Hpos Hlv.
  destruct (perc_and_stdev_spec h levels avg Hpos Hlv Hne) as (percs & Hrun & Hall).
  apply Forall2_tagged in Hall as [Hfst Hrank].
  eexists percs, _. split; [done|]. split; [done|].
  intros p v Hin%Hrank. split_and!.
  - intros Hp. by apply rank_exceeds.
  - intros ->. apply (rank_max h (Qc_of_Z 100)); [intros Hx; by apply Qclt_not_eq in Hx|done].
  - intros ->. by apply rank_min.
Qed.

Lemma two_values_positive : positive_counts two_values.
Proof.
  intros v n. unfold two_values.
  rewrite !lookup_insert_Some, lookup_empty.
  intros [[_ <-]|[_ [[_ <-]|[_ ?]]]]; done.
Qed.

(** X1. On a non-empty histogram with positive counts and levels that pass
    the assertion, when for every requested level the position
    [percentile / 100.0 * num] is computed without rounding (the level, its
    hundredth, the total count and the product are binary64 numbers),
    [__perc_and_stdev] returns one pair for every level, in ascending order
    of level; for a level below 100 the value is the smallest one whose
    cumulative frequency is greater than the level's share of the total;
    for level 100 it is the maximum and for level 0 the minimum. *)
Theorem percentiles_exceed_exact_positions `{MathSqrt} (h : gmap Qc Z) levels avg :
  h ≠ ∅ → positive_counts h → Forall valid_level levels →
  Forall (exact_position (Counter.total h)) levels →
  ∃ percs stdev,
    KPISet.perc_and_stdev h levels avg = Ok (percs, stdev)
    ∧ percs.*1 = merge_sort Qcle levels
    ∧ ∀ p v, (p, v) ∈ percs →
        ((p < Qc_of_Z 100)%Qc → exceeds_at h p v)
        ∧ (p = Qc_of_Z 100 → is_max_value h v)
        ∧ (p = 0%Qc → is_min_value h v).
Proof. intros Hne Hpos Hlv _. by apply percentiles_strictly_exceed. Qed.

Lemma percentiles_exceed_exact_positions_witness :
  ∃ percs stdev,
    KPISet.perc_and_stdev (H := approx_sqrt) two_values [Qc_of_Z 50; Qc_of_Z 100; 0%Qc] 0%Qc
    = Ok (percs, stdev)
    ∧ percs.*1 = merge_sort Qcle [Qc_of_Z 50; Qc_of_Z 100; 0%Qc]
    ∧ ∀ p v, (p, v) ∈ percs →
        ((p < Qc_of_Z 100)%Qc → exceeds_at two_values p v)
        ∧ (p = Qc_of_Z 100 → is_max_value two_values v)
        ∧ (p = 0%Qc → is_min_value two_values v).
Proof.
  apply (percentiles_exceed_exact_positions (H := approx_sqrt) two_values).
  - apply insert_non_empty.
  - apply two_values_positive.
  - repeat constructor; by vm_compute.
  - repeat apply list.Forall_cons_2; [| | |apply list.Forall_nil_2]; unfold exact_position;
      split_and!.
    + binary64_by 50 0.
    + binary64_by 1 (-1).
    + binary64_by 2 0.
    + binary64_by 1 0.
    + binary64_by 100 0.
    + binary64_by 1 0.
    + binary64_by 2 0.
    + binary64_by 2 0.
    + binary64_by 0 0.
    + binary64_by 0 0.
    + binary64_by 2 0.
    + binary64_by 0 0.
Defined.

(** C3, at the histogram [{1: 1, 2: 1}] and level 50.  The cumulative
    frequency of the value 1 is 1, which reaches 50/100 of the total 2, so
    the smallest value whose cumulative frequency reaches or exceeds that
    share is 1 (the nearest-rank percentile that the docstring of
    [__perc_and_stdev] names); the function returns 2. *)
Theorem nearest_rank_divergence :
  ∃ percs stdev,
    KPISet.perc_and_stdev (H := approx_sqrt) two_values [Qc_of_Z 50] 0%Qc = Ok (percs, stdev)
    ∧ percs.*1 = [Qc_of_Z 50]
    ∧ percs.*2 = [Qc_of_Z 2]
    ∧ reaches_at two_values (Qc_of_Z 50) (Qc_of_Z 1)
    ∧ ¬ reaches_at two_values (Qc_of_Z 50) (Qc_of_Z 2).
Proof.
  assert (ppos (Counter.total two_values) (Qc_of_Z 50)
          ≤ Qc_of_Z (cumfreq two_values (Qc_of_Z 1)))%Qc as Hreach by by vm_compute.
  eexists _, _. split; [vm_compute; reflexivity|]. split_and!.
  - simpl; f_equal; try (apply Qc_is_canon; reflexivity).
  - simpl; f_equal; try (apply Qc_is_canon; reflexivity).
  - split_and!; [by exists 1|done|].
    intros v' [n Hv'] _. unfold two_values in Hv'.
    rewrite !lookup_insert_Some, lookup_empty in Hv'.
    destruct Hv' as [[<- _]|[_ [[<- _]|[_ ?]]]]; [by vm_compute..|done].
  - intros (_ & _ & Hmin).
    assert (Qc_of_Z 2 ≤ Qc_of_Z 1)%Qc as Hle; [|by vm_compute in Hle].
    apply Hmin; [by exists 1|done].
Qed.

Lemma perc_and_stdev_empty `{MathSqrt} levels avg :
  Forall valid_level levels → KPISet.perc_and_stdev ∅ levels avg = Ok ([], 0%Qc).
Proof. intros Hlv. unfold KPISet.perc_and_stdev. by rewrite (levels_check _ Hlv). Qed.

Lemma perc_and_stdev_total `{MathSqrt} (h : gmap Qc Z) levels avg :
  positive_counts h → Forall valid_level levels →
  ∃ percs stdev, KPISet.perc_and_stdev h levels avg = Ok (percs, stdev).
Proof.
  intros Hpos Hlv. destruct (decide (h = ∅)) as [->|Hne].
  - eexists _, _. by apply perc_and_stdev_empty.
  - destruct (perc_and_stdev_spec h levels avg Hpos Hlv Hne) as (percs & Hrun & _). eauto.
Qed.

Lemma recalculate_ok `{MathSqrt} (k : KPISet.t) :
  wf_kpiset k →
  ∃ k' percs,
    KPISet.recalculate k = (k', Ok ())
    ∧ KPISet.perc_and_stdev (KPISet.rt k) (KPISet.perc_levels k) (new_avg_rt k)
      = Ok (percs, KPISet.stdev_rt k')
    ∧ KPISet.avg_rt k' = new_avg_rt k
    ∧ KPISet.perc k' = foldl (λ m lv, <[lv.1 := lv.2]> m) (KPISet.perc k) percs
    ∧ KPISet.throughput k' = KPISet.throughput k
    ∧ KPISet.succ k' = KPISet.succ k
    ∧ KPISet.fail k' = KPISet.fail k
    ∧ KPISet.sum_rt k' = KPISet.sum_rt k
    ∧ KPISet.sum_lt k' = KPISet.sum_lt k
    ∧ KPISet.sum_cn k' = KPISet.sum_cn k
    ∧ KPISet.rt k' = KPISet.rt k
    ∧ KPISet.rc k' = KPISet.rc k
    ∧ KPISet.errors k' = KPISet.errors k
    ∧ KPISet.perc_levels k' = KPISet.perc_levels k.
Proof.
  intros [Hpos Hlv].
  destruct (perc_and_stdev_total (KPISet.rt k) (KPISet.perc_levels k) (new_avg_rt k) Hpos Hlv)
    as (percs & stdev & Hrun).
  unfold KPISet.recalculate. unfold new_avg_rt in Hrun. rewrite Hrun.
  eexists _, percs. split; [reflexivity|]. simpl. by split_and!.
Qed.

(** C4. On a KPISet whose histogram has positive counts and whose
    percentile levels pass the assertion, [recalculate] returns and stores as
    standard deviation the second component of [__perc_and_stdev] run on the
    histogram with the average it has just stored.  On an empty histogram
    that result is the empty list of percentiles and zero; otherwise the
    standard deviation is the square root of the sum, over the distinct values
    [v] in ascending order, of [count(v) * (v - avg)^2], each taken once,
    divided by the number of distinct values. *)
Theorem stdev_over_distinct_values `{MathSqrt} (k : KPISet.t) :
  positive_counts (KPISet.rt k) → Forall valid_level (KPISet.perc_levels k) →
  ∃ k' percs,
    KPISet.recalculate k = (k', Ok ())
    ∧ KPISet.perc_and_stdev (KPISet.rt k) (KPISet.perc_levels k) (KPISet.avg_rt k')
      = Ok (percs, KPISet.stdev_rt k')
    ∧ (KPISet.rt k = ∅ → percs = [] ∧ KPISet.stdev_rt k' = 0%Qc)
    ∧ (KPISet.rt k ≠ ∅ →
       KPISet.stdev_rt k'
       = math_sqrt (sq_dev_sum (KPISet.rt k) (KPISet.avg_rt k')
                    / Qc_of_Z (Z.of_nat (size (KPISet.rt k))))%Qc).
Proof.
  intros Hpos Hlv.
  destruct (recalculate_ok k (conj Hpos Hlv)) as (k' & percs & Hrec & Hrun & Havg & _).
  exists k', percs. rewrite Havg. split_and!; [done..| |].
  - intros Hemp. rewrite Hemp, perc_and_stdev_empty in Hrun by done. by simplify_eq.
  - intros Hne.
    destruct (perc_and_stdev_spec (KPISet.rt k) (KPISet.perc_levels k) (new_avg_rt k)
                Hpos Hlv Hne) as (percs' & Hrun' & _).
    rewrite Hrun in Hrun'. by simplify_eq.
Qed.


(** * Find-or-create *)

Lemma BetterDict_get_value `{Countable K} {V} (d : gmap K V) k (v : V) :
  (BetterDict_get d k v).1 = default v (d !! k).
Proof. unfold BetterDict_get. by destruct (d !! k). Qed.

Lemma BetterDict_get_insert `{Countable K} {V} (d : gmap K V) k (v x : V) :
  <[k := x]> (BetterDict_get d k v).2 = <[k := x]> d.
Proof. unfold BetterDict_get. destruct (d !! k); [done|]. simpl. apply insert_insert_eq. Qed.

(** * Counters of a KPISet *)

Lemma positive_incr (h : gmap Qc Z) k : positive_counts h → positive_counts (Counter.incr h k 1).
Proof.
  intros Hpos v n. unfold Counter.incr, Counter.get.
  rewrite lookup_insert_Some. intros [[_ <-]|[_ Hv]]; [|by eapply Hpos].
  destruct (h !! k) as [m|] eqn:Hk; simpl; [|lia].
  apply Hpos in Hk. lia.
Qed.

Lemma positive_update (h1 h2 : gmap Qc Z) :
  positive_counts h1 → positive_counts h2 → positive_counts (Counter.update h1 h2).
Proof.
  intros H1 H2 v n. unfold Counter.update. rewrite lookup_union_with.
  destruct (h1 !! v) as [a|] eqn:Ha, (h2 !! v) as [b|] eqn:Hb; simpl; intros ?; simplify_eq.
  - apply H1 in Ha. apply H2 in Hb. lia.
  - by eapply H1.
  - by eapply H2.
Qed.

Lemma wf_init levels : Forall valid_level levels → wf_kpiset (KPISet.init levels).
Proof. intros Hlv. split; [|done]. intros v n. simpl. by rewrite lookup_empty. Qed.

Lemma wf_add_sample k s : wf_kpiset k → wf_kpiset (KPISet.add_sample k s).
Proof. intros [Hpos Hlv]. split; [|done]. simpl. by apply positive_incr. Qed.

Lemma wf_add_samples k l : wf_kpiset k → wf_kpiset (foldl KPISet.add_sample k l).
Proof. revert k. induction l as [|s l IH]; intros k Hk; [done|]. simpl. by apply IH, wf_add_sample. Qed.

Lemma wf_deepcopy k : wf_kpiset k → wf_kpiset (KPISet.deepcopy k).
Proof. by intros [? ?]. Qed.

(** [recalculate] never touches the counters, the sums and the histograms,
    whether it returns or raises. *)
Lemma recalculate_keeps `{MathSqrt} (k : KPISet.t) :
  let k' := (KPISet.recalculate k).1 in
  KPISet.throughput k' = KPISet.throughput k
  ∧ KPISet.succ k' = KPISet.succ k
  ∧ KPISet.fail k' = KPISet.fail k
  ∧ KPISet.sum_rt k' = KPISet.sum_rt k
  ∧ KPISet.rt k' = KPISet.rt k
  ∧ KPISet.rc k' = KPISet.rc k
  ∧ KPISet.perc_levels k' = KPISet.perc_levels k.
Proof.
  unfold KPISet.recalculate.
  destruct (KPISet.perc_and_stdev _ _ _) as [[percs stdev]|e|]; by simpl.
Qed.

Lemma wf_recalculate `{MathSqrt} (k : KPISet.t) :
  wf_kpiset k → wf_kpiset (KPISet.recalculate k).1.
Proof.
  intros [Hpos Hlv]. destruct (recalculate_keeps k) as (_ & _ & _ & _ & Hrt & _ & Hl).
  split; [by rewrite Hrt|by rewrite Hl].
Qed.

(** On a well-formed source, [merge_kpis] returns and adds the counters,
    the sums and the histograms of the recalculated source. *)
Lemma merge_kpis_ok `{MathSqrt} (self src : KPISet.t) sid :
  wf_kpiset src →
  ∃ self' src',
    KPISet.merge_kpis self src sid = ((self', src'), Ok ())
    ∧ KPISet.recalculate src = (src', Ok ())
    ∧ KPISet.throughput self' = KPISet.throughput self + KPISet.throughput src
    ∧ KPISet.succ self' = KPISet.succ self + KPISet.succ src
    ∧ KPISet.fail self' = KPISet.fail self + KPISet.fail src
    ∧ KPISet.sum_rt self' = (KPISet.sum_rt self + KPISet.sum_rt src)%Qc
    ∧ KPISet.rt self' = Counter.update (KPISet.rt self) (KPISet.rt src)
    ∧ KPISet.rc self' = Counter.update (KPISet.rc self) (KPISet.rc src)
    ∧ KPISet.perc_levels self' = KPISet.perc_levels self.
Proof.
  intros Hwf.
  destruct (recalculate_ok src Hwf)
    as (src' & percs & Hrec & _ & _ & _ & Ht & Hs & Hf & Hsum & _ & _ & Hrt & Hrc & _).
  unfold KPISet.merge_kpis. rewrite Hrec.
  eexists _, src'. split; [reflexivity|]. simpl.
  by rewrite Ht, Hs, Hf, Hsum, Hrt, Hrc.
Qed.

Lemma wf_merge_kpis `{MathSqrt} (self src : KPISet.t) sid :
  wf_kpiset self → wf_kpiset src → wf_kpiset (KPISet.merge_kpis self src sid).1.1.
Proof.
  intros Hself Hsrc.
  destruct (merge_kpis_ok self src sid Hsrc)
    as (self' & src' & -> & _ & _ & _ & _ & _ & Hrt & _ & Hlv). simpl.
  destruct Hself as [Hp Hl], Hsrc as [Hp' _].
  split; [rewrite Hrt; by apply positive_update|by rewrite Hlv].
Qed.

Lemma three_samples_wf : wf_kpiset three_samples.
Proof.
  apply wf_add_samples, wf_init. repeat constructor; by vm_compute.
Qed.

Lemma stdev_over_distinct_values_witness :
  ∃ k' percs,
    KPISet.recalculate (H := approx_sqrt) three_samples = (k', Ok ())
    ∧ KPISet.perc_and_stdev (H := approx_sqrt) (KPISet.rt three_samples)
        (KPISet.perc_levels three_samples) (KPISet.avg_rt k')
      = Ok (percs, KPISet.stdev_rt k')
    ∧ (KPISet.rt three_samples = ∅ → percs = [] ∧ KPISet.stdev_rt k' = 0%Qc)
    ∧ (KPISet.rt three_samples ≠ ∅ →
       KPISet.stdev_rt k'
       = approx_sqrt (sq_dev_sum (KPISet.rt three_samples) (KPISet.avg_rt k')
                    / Qc_of_Z (Z.of_nat (size (KPISet.rt three_samples))))%Qc).
Proof.
  apply (stdev_over_distinct_values (H := approx_sqrt) three_samples);
    apply three_samples_wf.
Defined.

(** * Counters of a KPISet built from empty *)

Lemma add_sample_counts k s :
  KPISet.throughput k = KPISet.succ k + KPISet.fail k ∧ 0 ≤ KPISet.succ k ∧ 0 ≤ KPISet.fail k →
  let k' := KPISet.add_sample k s in
  KPISet.throughput k' = KPISet.succ k' + KPISet.fail k' ∧ 0 ≤ KPISet.succ k' ∧ 0 ≤ KPISet.fail k'.
Proof. intros (? & ? & ?). simpl. destruct (KPISet.s_error s); lia. Qed.

Lemma merge_kpis_counts `{MathSqrt} k src sid :
  let r := (KPISet.merge_kpis k src sid).1 in
  (KPISet.throughput r.1 = KPISet.throughput k + KPISet.throughput src
   ∧ KPISet.succ r.1 = KPISet.succ k + KPISet.succ src
   ∧ KPISet.fail r.1 = KPISet.fail k + KPISet.fail src
   ∨ r.1 = k)
  ∧ r.2 = (KPISet.recalculate src).1.
Proof.
  unfold KPISet.merge_kpis.
  destruct (recalculate_keeps src) as (Ht & Hs & Hf & _).
  destruct (KPISet.recalculate src) as [src' [[]|e|]]; simpl in *; split; auto.
  left. by rewrite Ht, Hs, Hf.
Qed.

(** C1. For every KPISet obtained from an empty one by a sequence of
    [add_sample] and [merge_kpis] operations (the merged sources being
    obtained in the same way), after every operation the sample count
    equals the success count plus the failure count, and both counts are
    non-negative. *)
Theorem sample_count_invariant `{MathSqrt} (k : KPISet.t) :
  built k →
  KPISet.throughput k = KPISet.succ k + KPISet.fail k
  ∧ 0 ≤ KPISet.succ k ∧ 0 ≤ KPISet.fail k.
Proof.
  induction 1 as [levels|k s _ IH|k _ IH|k _ IH|k src sid _ IHk _ IHsrc|k src sid _ IHk _ IHsrc].
  - simpl. lia.
  - by apply add_sample_counts.
  - destruct (recalculate_keeps k) as (-> & -> & -> & _). done.
  - done.
  - destruct (merge_kpis_counts k src sid) as [[(-> & -> & ->)| ->] _]; [lia|done].
  - destruct (merge_kpis_counts k src sid) as [_ ->].
    destruct (recalculate_keeps src) as (-> & -> & -> & _). done.
Qed.

Lemma four_samples_built : built (H := approx_sqrt) four_samples.
Proof.
  apply built_merge.
  - unfold three_samples. simpl. repeat apply built_add_sample. apply built_init.
  - apply built_add_sample, built_init.
Qed.

Lemma sample_count_invariant_witness :
  built (H := approx_sqrt) four_samples
  ∧ KPISet.throughput four_samples = KPISet.succ four_samples + KPISet.fail four_samples
  ∧ 0 ≤ KPISet.succ four_samples ∧ 0 ≤ KPISet.fail four_samples.
Proof.
  split; [apply four_samples_built|].
  apply (sample_count_invariant (H := approx_sqrt) four_samples), four_samples_built.
Defined.

(** * Merging against building from the concatenation *)









(** * The JTL reader *)

Lemma millis_lt a b : (JTLReader.millis a < JTLReader.millis b)%Qc ↔ a < b.
Proof.
  unfold JTLReader.millis, Qcdiv. rewrite Z2Qc_inj_lt.
  symmetry. apply Qcmult_lt_mono_pos_r. apply Qcinv_pos. by apply Qc_of_Z_pos.
Qed.

(** C10, as the code has it.  Every row yields a tuple, none is rejected.
    When the connect time is present and smaller than the latency, the
    latency of the tuple is the latency of the row minus the connect time;
    when it is present and not smaller, or absent, the latency of the row is
    yielded unchanged. *)
Theorem connect_time_subtracted_when_smaller (is_distributed : bool) (r : JTLReader.row) :
  JTLReader._read is_distributed [r]
  = [ResultsReader.Row (JTLReader.read_row is_distributed r)]
  ∧ yielded_latency is_distributed r
    = match JTLReader.Connect r with
      | Some c =>
          if bool_decide (c < JTLReader.Latency r)
          then (JTLReader.millis (JTLReader.Latency r) - JTLReader.millis c)%Qc
          else JTLReader.millis (JTLReader.Latency r)
      | None => JTLReader.millis (JTLReader.Latency r)
      end.
Proof.
  split; [done|]. unfold yielded_latency, JTLReader.read_row. simpl.
  destruct (JTLReader.Connect r) as [c|]; simpl; [|done].
  destruct (decide (c < JTLReader.Latency r)) as [Hlt|Hge].
  - rewrite (bool_decide_true (c < _)) by done.
    by rewrite bool_decide_true by by apply millis_lt.
  - rewrite (bool_decide_false (c < _)) by done.
    by rewrite bool_decide_false by by rewrite millis_lt.
Qed.

(** C10, counterexample: a connect time of 5 ms with a latency of 3 ms.
    The connect time is present and larger than the latency, and the yielded
    latency is 3 ms, not 3 ms minus 5 ms. *)
Lemma connect_time_larger_counterexample :
  JTLReader.Connect (jtl_row 3 (Some 5)) = Some 5
  ∧ JTLReader.Latency (jtl_row 3 (Some 5)) < 5
  ∧ yielded_latency false (jtl_row 3 (Some 5)) = JTLReader.millis 3
  ∧ yielded_latency false (jtl_row 3 (Some 5))
    ≠ (JTLReader.millis 3 - JTLReader.millis 5)%Qc.
Proof.
  assert (yielded_latency false (jtl_row 3 (Some 5)) = JTLReader.millis 3) as Heq.
  { unfold yielded_latency, JTLReader.read_row. by simpl. }
  split_and!; [done|simpl; lia|done|].
  rewrite Heq. intros H. apply (f_equal this) in H. vm_compute in H. discriminate.
Qed.

(** * Label generalization *)

(** C9, at the label ["/item/42"].  The claim gives ["/item/N"], and so
    does the third default rule ([\b\d{2,}\b] to [N]) when it is applied to
    the label on its own.  The function returns ["/item/U"]: the second rule
    ([\b[0-9a-fA-F]{2,}\b] to [U]) is applied before the third one, and a
    run of digits is a run of hexadecimal characters.  The two labels with a
    UUID are normalized to the same label, as claimed. *)
Theorem item_label_divergence :
  ResultsReader.__generalize_label "/item/42" = "/item/U"%string
  ∧ ResultsReader.__generalize_label "/item/42" ≠ "/item/N"%string
  ∧ Re.sub digit_rule "N" "/item/42" = "/item/N"%string
  ∧ Re.sub hex_rule "U" "/item/42" = "/item/U"%string
  ∧ ResultsReader.__generalize_label "/user/3F2504E0-4F89-11D3-9A0C-0305E82C3301"
    = ResultsReader.__generalize_label "/user/550E8400-E29B-41D4-A716-446655440000".
Proof. split_and!; by vm_compute. Qed.

(** * The reader: buffering and window *)

Lemma merge_overall_ok `{MathSqrt} sid items : ∀ overall current,
  Forall (λ kv : string * KPISet.t, wf_kpiset kv.2) items →
  ∃ overall' current',
    ResultsReader.merge_overall sid items overall current = ((overall', current'), Ok ()).
Proof.
  induction items as [|[label val] items IH]; intros overall current Hwf.
  { by eexists _, _. }
  apply list.Forall_cons in Hwf as [Hval Hwf]. simpl in Hval.
  destruct (merge_kpis_ok overall val sid Hval) as (o' & v' & Hm & _).
  simpl. rewrite Hm. by apply IH.
Qed.

Lemma wf_map_insert m label k : wf_map m → wf_kpiset k → wf_map (<[label := k]> m).
Proof. intros Hm Hk. by apply map_Forall_insert_2. Qed.

Lemma wf_map_default m label levels :
  wf_map m → Forall valid_level levels → wf_kpiset (default (KPISet.init levels) (m !! label)).
Proof.
  intros Hm Hlv. destruct (m !! label) as [k|] eqn:Hk; simpl.
  - by eapply Hm.
  - by apply wf_init.
Qed.

Lemma wf_map_items m : wf_map m → Forall (λ kv : string * KPISet.t, wf_kpiset kv.2) (map_to_list m).
Proof.
  intros Hm. apply list.Forall_forall. intros [l k] Hin%elem_of_map_to_list. by eapply Hm.
Qed.

Lemma aggregate_ok `{MathSqrt} (self : ResultsReader.t) (datapoint : DataPoint.t) samples :
  Forall valid_level (ResultsReader.track_percentiles self) →
  wf_map (DataPoint.current datapoint) →
  ∃ datapoint',
    ResultsReader.__aggreagate_current self datapoint samples = (datapoint', Ok ())
    ∧ DataPoint.ts datapoint' = DataPoint.ts datapoint
    ∧ DataPoint.source_id datapoint' = DataPoint.source_id datapoint
    ∧ is_Some (DataPoint.current datapoint' !! ""%string).
Proof.
  intros Hlv Hcur. unfold ResultsReader.__aggreagate_current.
  match goal with |- context [foldl ?f _ samples] => set (add := f) end.
  assert (∀ l m, wf_map m → wf_map (foldl add m l)) as Hfold.
  { induction l as [|s l IH]; intros m Hm; [done|]. simpl. apply IH.
    unfold add. rewrite BetterDict_get_insert, BetterDict_get_value.
    apply wf_map_insert; [done|]. apply wf_add_sample. by apply wf_map_default. }
  pose proof (Hfold samples _ Hcur) as Hwf.
  destruct (merge_overall_ok (DataPoint.source_id datapoint)
              (map_to_list (foldl add (DataPoint.current datapoint) samples))
              (KPISet.init (ResultsReader.track_percentiles self))
              (foldl add (DataPoint.current datapoint) samples) (wf_map_items _ Hwf))
    as (overall & current' & ->).
  eexists. split; [reflexivity|]. simpl. split_and!; [done..|].
  rewrite lookup_insert_eq. by eexists.
Qed.

Lemma last_cons_ne {A} (t : A) rest d d' : rest ≠ [] → List.last (t :: rest) d = List.last rest d'.
Proof.
  revert t. induction rest as [|x rest IH]; intros t Hne; [done|].
  destruct rest as [|y rest]; [done|]. change (List.last (x :: y :: rest) d = List.last (y :: rest) d').
  rewrite <-(IH x) by done. done.
Qed.

Lemma reader_loop_collect `{MathSqrt} final_pass : ∀ timestamps self out,
  Forall valid_level (ResultsReader.track_percentiles self) →
  NoDup timestamps →
  (∀ t, t ∈ timestamps → is_Some (ResultsReader.buffer self !! t)) →
  ∃ self' out',
    ResultsReader.calc_loop ResultsReader.collect final_pass timestamps self out
    = ((self', out ++ out'), Ok ())
    ∧ DataPoint.ts <$> out' = eligible final_pass (ResultsReader.buffer_len self) timestamps
    ∧ (∀ t, ResultsReader.buffer self' !! t
            = if bool_decide (t ∈ DataPoint.ts <$> out') then None
              else ResultsReader.buffer self !! t)
    ∧ ResultsReader.min_timestamp self'
      = from_option (λ t, t + 1) (ResultsReader.min_timestamp self)
          (list.last (DataPoint.ts <$> out'))
    ∧ ResultsReader.cumulative self' = ResultsReader.cumulative self.
Proof.
  induction timestamps as [|t rest IH]; intros self out Hlv Hnd Hbuf.
  { exists self, []. simpl. rewrite app_nil_r. by split_and!. }
  apply list.NoDup_cons in Hnd as [Hnotin Hnd].
  cbn [ResultsReader.calc_loop eligible].
  destruct (final_pass || bool_decide (t + ResultsReader.buffer_len self ≤ _)) eqn:Hguard.
  2:{ exists self, []. simpl. rewrite app_nil_r. by split_and!. }
  destruct (Hbuf t ltac:(by left)) as [samples Hsamples].
  cbn [ResultsReader.buffer ResultsReader.emit ResultsReader.set_min_timestamp].
  rewrite Hsamples.
  set (self2 := ResultsReader.set_buffer _ _).
  destruct (aggregate_ok self2 (ResultsReader.__get_new_datapoint self2 t) samples)
    as (dp & Hagg & Hts & _); [done|by apply map_Forall_empty|].
  rewrite Hagg. cbn [ResultsReader.collect].
  destruct (IH self2 (out ++ [dp])) as (self' & out' & Hrun & Hout & Hbuf' & Hmin & Hcum);
    [done|done| |].
  { intros t' Ht'. unfold self2. simpl. rewrite lookup_delete_ne; [|by intros ->].
    apply Hbuf. by right. }
  exists self', (dp :: out'). rewrite Hrun. split_and!.
  - by rewrite <-app_assoc.
  - by rewrite fmap_cons, Hts, Hout.
  - intros t'. rewrite Hbuf', fmap_cons, Hts.
    destruct (decide (t' = t)) as [->|Hne].
    + rewrite (bool_decide_true (t ∈ t :: _)) by by left.
      destruct (bool_decide (t ∈ DataPoint.ts <$> out')); [done|]. unfold self2. simpl. by rewrite lookup_delete_eq.
    + unfold self2. simpl. rewrite lookup_delete_ne by done.
      destruct (decide (t' ∈ DataPoint.ts <$> out')) as [Hin|Hnin].
      * by rewrite !bool_decide_true by (try right; done).
      * rewrite !bool_decide_false; [done| |done].
        by intros [?|?]%list.elem_of_cons.
  - rewrite Hmin, fmap_cons, Hts.
    destruct out' as [|dp' out']; [done|]. rewrite fmap_cons, last_cons_cons.
    destruct (list.last (_ :: _)) eqn:Hl; [done|]. by apply last_None in Hl.
  - by rewrite Hcum.
Qed.

Lemma sorted_keys_elem {V} (b : gmap Z V) t : t ∈ ResultsReader.sorted_keys b ↔ is_Some (b !! t).
Proof.
  unfold ResultsReader.sorted_keys. rewrite merge_sort_Permutation, list_elem_of_fmap. split.
  - intros ([k v] & -> & Hin%elem_of_map_to_list). by exists v.
  - intros [v Hv]. exists (t, v). split; [done|]. by apply elem_of_map_to_list.
Qed.

Lemma sorted_keys_NoDup {V} (b : gmap Z V) : NoDup (ResultsReader.sorted_keys b).
Proof.
  unfold ResultsReader.sorted_keys. rewrite merge_sort_Permutation.
  apply NoDup_fst_map_to_list.
Qed.

Lemma sorted_keys_strict {V} (b : gmap Z V) : StronglySorted Z.lt (ResultsReader.sorted_keys b).
Proof.
  pose proof (sorted_keys_NoDup b) as Hnd.
  assert (StronglySorted Z.le (ResultsReader.sorted_keys b)) as Hs.
  { apply StronglySorted_merge_sort; apply _. }
  induction Hs as [|a l Hs IH Hall]; [constructor|].
  apply list.NoDup_cons in Hnd as [Hnotin Hnd].
  constructor; [by apply IH|].
  rewrite list.Forall_forall in Hall |- *. intros x Hx.
  assert (a ≠ x) by by intros ->. specialize (Hall x Hx). lia.
Qed.

Lemma sorted_last_max (l : list Z) d x :
  StronglySorted Z.lt l → x ∈ l → x ≤ List.last l d.
Proof.
  intros Hs. revert d x. induction Hs as [|a l Hs IH Hall]; intros d x Hx.
  { by apply elem_of_nil in Hx. }
  destruct l as [|b l].
  { apply list_elem_of_singleton in Hx as ->. simpl. lia. }
  rewrite (last_cons_ne a (b :: l) d d) by done.
  apply list.elem_of_cons in Hx as [->|Hx]; [|by apply IH].
  rewrite list.Forall_forall in Hall.
  trans b; [apply Z.lt_le_incl, Hall; by left|]. apply IH. by left.
Qed.

Lemma sorted_last_elem {A} (l : list A) d : l ≠ [] → List.last l d ∈ l.
Proof.
  induction l as [|a l IH]; [done|]. intros _. destruct l as [|b l]; [by left|].
  right. rewrite (last_cons_ne a (b :: l) d d) by done. by apply IH.
Qed.

Lemma eligible_spec final_pass len (l : list Z) :
  StronglySorted Z.lt l →
  ∀ t, t ∈ eligible final_pass len l
       ↔ t ∈ l ∧ (final_pass = true ∨ ∃ tmax, tmax ∈ l ∧ t + len ≤ tmax).
Proof.
  induction 1 as [|a l Hs IH Hall]; intros t.
  { simpl. split; [by intros ?%elem_of_nil|by intros [?%elem_of_nil _]]. }
  rewrite list.Forall_forall in Hall.
  cbn [eligible]. destruct (final_pass || _) eqn:Hguard.
  - rewrite list.elem_of_cons, IH. split.
    + intros [->|[Hin Hor]].
      * split; [by left|]. apply orb_true_iff in Hguard as [->|Hle%bool_decide_eq_true]; [by left|].
        right. eexists. split; [|done]. by apply sorted_last_elem.
      * split; [by right|]. destruct Hor as [?|(tmax & ? & ?)]; [by left|].
        right. exists tmax. split; [by right|done].
    + intros [[->|Hin]%list.elem_of_cons Hor]; [by left|]. right. split; [done|].
      destruct Hor as [?|(tmax & [->|Hmax]%list.elem_of_cons & Hle)]; [by left| |].
      * right. exists t. split; [done|]. specialize (Hall t Hin). lia.
      * right. by exists tmax.
  - apply orb_false_iff in Hguard as [-> Hgt%bool_decide_eq_false]. split.
    + by intros ?%elem_of_nil.
    + intros [Hin [?|(tmax & Hmax & Hle)]]; [done|]. exfalso. apply Hgt.
      assert (StronglySorted Z.lt (a :: l)) as Hs'.
      { constructor; [done|]. by apply list.Forall_forall. }
      pose proof (sorted_last_max _ a tmax Hs' Hmax).
      assert (a ≤ t); [|lia].
      apply list.elem_of_cons in Hin as [->|Hin]; [lia|]. specialize (Hall t Hin). lia.
Qed.

Lemma eligible_sorted final_pass len (l : list Z) :
  StronglySorted Z.lt l → StronglySorted Z.lt (eligible final_pass len l).
Proof.
  intros Hs. induction Hs as [|a l Hs IH Hall]; [constructor|].
  cbn [eligible]. destruct (final_pass || _); [|constructor].
  constructor; [done|]. rewrite list.Forall_forall in Hall |- *.
  intros x Hx. apply Hall. by apply (eligible_spec final_pass len l Hs x) in Hx as [? _].
Qed.

Lemma process_readers_keeps results : ∀ self,
  let self' := (ResultsReader.__process_readers results self).1 in
  ResultsReader.track_percentiles self' = ResultsReader.track_percentiles self
  ∧ ResultsReader.buffer_len self' = ResultsReader.buffer_len self
  ∧ ResultsReader.min_timestamp self' = ResultsReader.min_timestamp self
  ∧ ResultsReader.ignored_labels self' = ResultsReader.ignored_labels self.
Proof.
  induction results as [|[|r|] results IH]; intros self; simpl; try done.
  case_bool_decide; [apply IH|].
  match goal with |- context [ResultsReader.__process_readers results ?s] =>
    destruct (IH s) as (-> & -> & -> & ->) end.
  by destruct (bool_decide (ResultsReader.t_stamp r < _)).
Qed.

Lemma reader_pull_spec `{MathSqrt} (final_pass : bool) results
    (self self1 : ResultsReader.t) :
  Forall valid_level (ResultsReader.track_percentiles self) →
  ResultsReader.__process_readers results self = (self1, Ok ()) →
  ∃ self2 out,
    ResultsReader._calculate_datapoints ResultsReader.collect final_pass results self
    = ((self2, out), Ok ())
    ∧ StronglySorted Z.lt (DataPoint.ts <$> out)
    ∧ (∀ t, t ∈ DataPoint.ts <$> out
            ↔ is_Some (ResultsReader.buffer self1 !! t)
              ∧ (final_pass = true
                 ∨ ∃ tmax, is_Some (ResultsReader.buffer self1 !! tmax)
                           ∧ t + ResultsReader.buffer_len self1 ≤ tmax))
    ∧ (∀ t, ResultsReader.buffer self2 !! t
            = if bool_decide (t ∈ DataPoint.ts <$> out) then None
              else ResultsReader.buffer self1 !! t).
Proof.
  intros Hlv Hproc.
  destruct (process_readers_keeps results self) as (Htp & _). rewrite Hproc in Htp. simpl in Htp.
  unfold ResultsReader._calculate_datapoints. rewrite Hproc.
  set (self2 := ResultsReader.emit _ self1).
  case_bool_decide as Hemp.
  - exists self2, []. split; [done|]. simpl in Hemp. split_and!.
    + constructor.
    + intros t. rewrite Hemp, lookup_empty. split; [by intros ?%elem_of_nil|].
      by intros [[? ?] _].
    + done.
  - destruct (reader_loop_collect final_pass (ResultsReader.sorted_keys (ResultsReader.buffer self2))
                self2 []) as (self' & out & Hrun & Hout & Hbuf & _).
    + unfold self2. simpl. by rewrite Htp.
    + apply sorted_keys_NoDup.
    + intros t. by rewrite sorted_keys_elem.
    + exists self', out. split; [done|]. rewrite Hout. unfold self2. simpl. split_and!.
      * apply eligible_sorted, sorted_keys_strict.
      * intros t. rewrite eligible_spec by apply sorted_keys_strict.
        rewrite sorted_keys_elem. by setoid_rewrite sorted_keys_elem.
      * intros t. rewrite Hbuf, Hout. done.
Qed.

(** C6. A pull of the reader, consumed to its end, emits the buckets in
    ascending order of timestamp.  In a non-final pull the bucket at
    timestamp [t] is emitted exactly when some buffered timestamp is at least
    [t + buffer_len]; the bucket at the oldest buffered timestamp [tmin] is
    emitted exactly when the maximum buffered timestamp [tmax] is at least
    [tmin + buffer_len].  In a final pull every buffered bucket is emitted.
    The emitted buckets leave the buffer. *)
Theorem window_emission `{MathSqrt} (final_pass : bool) results
    (self self1 : ResultsReader.t) :
  Forall valid_level (ResultsReader.track_percentiles self) →
  ResultsReader.__process_readers results self = (self1, Ok ()) →
  ∃ self2 out,
    ResultsReader._calculate_datapoints ResultsReader.collect final_pass results self
    = ((self2, out), Ok ())
    ∧ StronglySorted Z.lt (DataPoint.ts <$> out)
    ∧ (∀ t, t ∈ DataPoint.ts <$> out
            ↔ is_Some (ResultsReader.buffer self1 !! t)
              ∧ (final_pass = true
                 ∨ ∃ tmax, is_Some (ResultsReader.buffer self1 !! tmax)
                           ∧ t + ResultsReader.buffer_len self1 ≤ tmax))
    ∧ (∀ tmin tmax,
         is_Some (ResultsReader.buffer self1 !! tmin) →
         is_Some (ResultsReader.buffer self1 !! tmax) →
         (∀ t, is_Some (ResultsReader.buffer self1 !! t) → tmin ≤ t ≤ tmax) →
         tmin ∈ DataPoint.ts <$> out
         ↔ final_pass = true ∨ tmin + ResultsReader.buffer_len self1 ≤ tmax)
    ∧ (∀ t, ResultsReader.buffer self2 !! t
            = if bool_decide (t ∈ DataPoint.ts <$> out) then None
              else ResultsReader.buffer self1 !! t).
Proof.
  intros Hlv Hproc.
  destruct (reader_pull_spec final_pass results self self1 Hlv Hproc)
    as (self2 & out & Hrun & Hsorted & Hiff & Hbuf).
  exists self2, out. split_and!; try done.
  intros tmin tmax Hmin Hmax Hrange. rewrite Hiff. split.
  - intros [_ [?|(tm & Htm & Hle)]]; [by left|]. right.
    specialize (Hrange tm Htm). lia.
  - intros Hor. split; [done|]. destruct Hor as [?|?]; [by left|]. right. by exists tmax.
Qed.

Lemma window_emission_witness :
  let self1 := (ResultsReader.__process_readers (rows_at [10; 10; 11; 13]) fresh_reader).1 in
  ∃ self2 out,
    ResultsReader._calculate_datapoints (H := approx_sqrt) ResultsReader.collect false
      (rows_at [10; 10; 11; 13]) fresh_reader
    = ((self2, out), Ok ())
    ∧ StronglySorted Z.lt (DataPoint.ts <$> out)
    ∧ (∀ t, t ∈ DataPoint.ts <$> out
            ↔ is_Some (ResultsReader.buffer self1 !! t)
              ∧ (false = true
                 ∨ ∃ tmax, is_Some (ResultsReader.buffer self1 !! tmax)
                           ∧ t + ResultsReader.buffer_len self1 ≤ tmax))
    ∧ (∀ tmin tmax,
         is_Some (ResultsReader.buffer self1 !! tmin) →
         is_Some (ResultsReader.buffer self1 !! tmax) →
         (∀ t, is_Some (ResultsReader.buffer self1 !! t) → tmin ≤ t ≤ tmax) →
         tmin ∈ DataPoint.ts <$> out
         ↔ false = true ∨ tmin + ResultsReader.buffer_len self1 ≤ tmax)
    ∧ (∀ t, ResultsReader.buffer self2 !! t
            = if bool_decide (t ∈ DataPoint.ts <$> out) then None
              else ResultsReader.buffer self1 !! t).
Proof.
  intros self1.
  apply (window_emission (H := approx_sqrt) false (rows_at [10; 10; 11; 13]) fresh_reader self1).
  - repeat constructor; by vm_compute.
  - reflexivity.
Defined.

(** The scenario of C6 with [buffer_len = 2]: with samples at 10, 10 and 11
    nothing is emitted; a sample at 12 releases bucket 10 only; a sample at
    13 releases buckets 10 and 11; a final pull releases every bucket. *)
Example window_scenario :
  emitted_ts false [10; 10; 11] fresh_reader = []
  ∧ emitted_ts false [10; 10; 11; 12] fresh_reader = [10]
  ∧ emitted_ts false [10; 10; 11; 13] fresh_reader = [10; 11]
  ∧ emitted_ts true [10; 10; 11] fresh_reader = [10; 11].
Proof. by vm_compute. Qed.

(** * The reader: late samples *)

(** C7, as the code has it.  A raw sample whose label is not ignored and
    whose timestamp is below the watermark [min_timestamp] is appended to the
    bucket at the watermark, its own bucket is left as it was, and a warning
    is logged.  When the bucket of timestamp [t] is emitted, the watermark
    becomes [t + 1]. *)
Theorem late_sample_clamped `{MathSqrt} (self : ResultsReader.t) :
  Forall valid_level (ResultsReader.track_percentiles self) →
  (∀ r rest,
     ResultsReader.label r ∉ ResultsReader.ignored_labels self →
     ResultsReader.t_stamp r < ResultsReader.min_timestamp self →
     ∃ self',
       ResultsReader.__process_readers (ResultsReader.Row r :: rest) self
       = ResultsReader.__process_readers rest self'
       ∧ ResultsReader.buffer self' !! ResultsReader.min_timestamp self
         = Some (default [] (ResultsReader.buffer self !! ResultsReader.min_timestamp self)
                 ++ [(ResultsReader.label r, ResultsReader.fields r)])
       ∧ ResultsReader.buffer self' !! ResultsReader.t_stamp r
         = ResultsReader.buffer self !! ResultsReader.t_stamp r
       ∧ ResultsReader.log self'
         = ResultsReader.log self
           ++ [Warning "Putting sample %s into %s"
                 [ResultsReader.t_stamp r; ResultsReader.min_timestamp self]]
       ∧ ResultsReader.min_timestamp self' = ResultsReader.min_timestamp self)
  ∧ (∀ final_pass t rest out,
       is_Some (ResultsReader.buffer self !! t) →
       final_pass = true ∨ t + ResultsReader.buffer_len self ≤ List.last (t :: rest) t →
       ∃ self' datapoint,
         ResultsReader.calc_loop ResultsReader.collect final_pass (t :: rest) self out
         = ResultsReader.calc_loop ResultsReader.collect final_pass rest self' (out ++ [datapoint])
         ∧ DataPoint.ts datapoint = t
         ∧ ResultsReader.buffer self' = delete t (ResultsReader.buffer self)
         ∧ ResultsReader.min_timestamp self' = t + 1).
Proof.
  intros Hlv. split.
  - intros r rest Hlabel Hlate. cbn [ResultsReader.__process_readers].
    rewrite bool_decide_false by done. rewrite !bool_decide_true by done.
    eexists. split; [reflexivity|]. simpl. split_and!; try done.
    + by rewrite lookup_insert_eq.
    + rewrite lookup_insert_ne; [done|lia].
  - intros final_pass t rest out [samples Hsamples] Hguard.
    cbn [ResultsReader.calc_loop].
    assert (final_pass || bool_decide (t + ResultsReader.buffer_len self ≤ List.last (t :: rest) t)
            = true) as ->.
    { destruct Hguard as [->|Hle]; [done|]. rewrite bool_decide_true by done. apply orb_true_r. }
    cbn [ResultsReader.buffer ResultsReader.emit ResultsReader.set_min_timestamp].
    rewrite Hsamples.
    set (self2 := ResultsReader.set_buffer _ _).
    destruct (aggregate_ok self2 (ResultsReader.__get_new_datapoint self2 t) samples)
      as (dp & Hagg & Hts & _); [done|by apply map_Forall_empty|].
    rewrite Hagg. cbn [ResultsReader.collect].
    by exists self2, dp.
Qed.

Lemma late_sample_clamped_witness :
  ∃ self',
    ResultsReader.__process_readers [ResultsReader.Row (raw_at 5 "home")] reader_at_8
    = ResultsReader.__process_readers [] self'
    ∧ ResultsReader.buffer self' !! 8 = Some ([] ++ [("home"%string, sample_of 1 None)])
    ∧ ResultsReader.buffer self' !! 5 = None
    ∧ ResultsReader.log self' = [] ++ [Warning "Putting sample %s into %s" [5; 8]]
    ∧ ResultsReader.min_timestamp self' = 8.
Proof.
  assert (Forall valid_level (ResultsReader.track_percentiles reader_at_8)) as Hlv.
  { repeat constructor; by vm_compute. }
  destruct (late_sample_clamped (H := approx_sqrt) reader_at_8 Hlv) as [Hlate _].
  apply (Hlate (raw_at 5 "home") []).
  - simpl. by intros ?%elem_of_nil.
  - simpl. lia.
Defined.

(** C7, counterexample: the label ["skip"] is in [ignored_labels].  A
    sample with this label and timestamp 5, below the watermark 8, is
    dropped: bucket 8 stays empty and no warning is logged. *)
Lemma ignored_late_sample_counterexample :
  ResultsReader.t_stamp (raw_at 5 "skip") < ResultsReader.min_timestamp reader_ignoring
  ∧ ResultsReader.__process_readers [ResultsReader.Row (raw_at 5 "skip")] reader_ignoring
    = (reader_ignoring, Ok ())
  ∧ ResultsReader.buffer reader_ignoring !! 8 = None
  ∧ ResultsReader.log reader_ignoring = [].
Proof. split_and!; [simpl; lia|done..]. Qed.

(** * Maps of KPISets *)

Lemma merged_spec `{MathSqrt} dest src sid :
  wf_kpiset src →
  KPISet.merge_kpis dest src sid = ((merged dest src sid, recalculated src), Ok ())
  ∧ KPISet.throughput (merged dest src sid) = KPISet.throughput dest + KPISet.throughput src.
Proof.
  intros Hsrc. unfold merged, recalculated.
  destruct (merge_kpis_ok dest src sid Hsrc) as (d' & s' & -> & -> & Ht & _). done.
Qed.

Lemma recalculated_spec `{MathSqrt} k :
  wf_kpiset k →
  KPISet.recalculate k = (recalculated k, Ok ())
  ∧ KPISet.throughput (recalculated k) = KPISet.throughput k.
Proof.
  intros Hk. unfold recalculated.
  destruct (recalculate_ok k Hk) as (k' & percs & -> & _ & _ & _ & Ht & _). done.
Qed.

Lemma wf_recalculated `{MathSqrt} k : wf_kpiset k → wf_kpiset (recalculated k).
Proof. apply wf_recalculate. Qed.

Lemma wf_merged `{MathSqrt} dest src sid :
  wf_kpiset dest → wf_kpiset src → wf_kpiset (merged dest src sid).
Proof. apply wf_merge_kpis. Qed.

Lemma list_to_map_cons_lookup (label : string) (val : KPISet.t) rest l :
  (list_to_map ((label, val) :: rest) : gmap string KPISet.t) !! l
  = if decide (label = l) then Some val else (list_to_map rest : gmap string KPISet.t) !! l.
Proof. simpl. by rewrite lookup_insert. Qed.

Lemma merge_each_ok `{MathSqrt} levels sid items : ∀ src dst,
  NoDup items.*1 →
  Forall (λ kv : string * KPISet.t, wf_kpiset kv.2) items →
  ∃ src' dst',
    merge_each levels sid items src dst = ((src', dst'), Ok ())
    ∧ (∀ l, dst' !! l
            = merged_entry levels sid (dst !! l)
                ((list_to_map items : gmap string KPISet.t) !! l))
    ∧ (∀ l, src' !! l
            = match (list_to_map items : gmap string KPISet.t) !! l with
              | Some v => Some (recalculated v)
              | None => src !! l
              end).
Proof.
  induction items as [|[label val] items IH]; intros src dst Hnd Hwf.
  { exists src, dst. split; [done|]. split; intros l; simpl; by rewrite lookup_empty. }
  apply list.Forall_cons in Hwf as [Hval Hwf]. simpl in Hval.
  rewrite fmap_cons in Hnd. apply list.NoDup_cons in Hnd as [Hnotin Hnd]. simpl in Hnotin.
  cbn [merge_each]. rewrite BetterDict_get_value.
  destruct (merged_spec (default (KPISet.init levels) (dst !! label)) val sid Hval) as [-> _].
  cbv beta iota zeta. rewrite BetterDict_get_insert.
  destruct (IH (<[label := recalculated val]> src)
               (<[label := merged (default (KPISet.init levels) (dst !! label)) val sid]> dst)
               Hnd Hwf) as (src' & dst' & -> & Hdst & Hsrc).
  exists src', dst'. split; [done|].
  assert ((list_to_map items : gmap string KPISet.t) !! label = None) as Hnone.
  { by apply not_elem_of_list_to_map_1. }
  split; intros l; rewrite list_to_map_cons_lookup.
  - rewrite Hdst. destruct (decide (label = l)) as [<-|Hne].
    + by rewrite Hnone, lookup_insert_eq.
    + by rewrite lookup_insert_ne.
  - rewrite Hsrc. destruct (decide (label = l)) as [<-|Hne].
    + by rewrite Hnone, lookup_insert_eq.
    + by rewrite lookup_insert_ne.
Qed.

Lemma recalculate_each_ok `{MathSqrt} items : ∀ m,
  NoDup items.*1 →
  Forall (λ kv : string * KPISet.t, wf_kpiset kv.2) items →
  ∃ m',
    recalculate_each items m = (m', Ok ())
    ∧ ∀ l, m' !! l
           = match (list_to_map items : gmap string KPISet.t) !! l with
             | Some v => Some (recalculated v)
             | None => m !! l
             end.
Proof.
  induction items as [|[label val] items IH]; intros m Hnd Hwf.
  { exists m. split; [done|]. intros l. simpl. by rewrite lookup_empty. }
  apply list.Forall_cons in Hwf as [Hval Hwf]. simpl in Hval.
  rewrite fmap_cons in Hnd. apply list.NoDup_cons in Hnd as [Hnotin Hnd]. simpl in Hnotin.
  cbn [recalculate_each].
  destruct (recalculated_spec val Hval) as [-> _].
  destruct (IH (<[label := recalculated val]> m) Hnd Hwf) as (m' & -> & Hm).
  exists m'. split; [done|].
  assert ((list_to_map items : gmap string KPISet.t) !! label = None) as Hnone.
  { by apply not_elem_of_list_to_map_1. }
  intros l. rewrite list_to_map_cons_lookup, Hm.
  destruct (decide (label = l)) as [<-|Hne].
  - by rewrite Hnone, lookup_insert_eq.
  - by rewrite lookup_insert_ne.
Qed.

(** Merging the map [src] into the map [dst]. *)
Lemma merge_maps_ok `{MathSqrt} levels sid (src dst : gmap string KPISet.t) :
  wf_map src →
  ∃ dst',
    merge_each levels sid (map_to_list src) src dst = ((recalculated <$> src, dst'), Ok ())
    ∧ ∀ l, dst' !! l = merged_entry levels sid (dst !! l) (src !! l).
Proof.
  intros Hsrc.
  destruct (merge_each_ok levels sid (map_to_list src) src dst) as (src' & dst' & Hrun & Hdst & Hs).
  { apply NoDup_fst_map_to_list. }
  { by apply wf_map_items. }
  rewrite list_to_map_to_list in Hdst, Hs.
  assert (src' = recalculated <$> src) as ->.
  { apply map_eq. intros l. rewrite Hs, lookup_fmap. by destruct (src !! l). }
  by exists dst'.
Qed.

Lemma recalculate_map_ok `{MathSqrt} (m : gmap string KPISet.t) :
  wf_map m → recalculate_each (map_to_list m) m = (recalculated <$> m, Ok ()).
Proof.
  intros Hm.
  destruct (recalculate_each_ok (map_to_list m) m) as (m' & Hrun & Hl).
  { apply NoDup_fst_map_to_list. }
  { by apply wf_map_items. }
  rewrite list_to_map_to_list in Hl.
  assert (m' = recalculated <$> m) as ->; [|done].
  apply map_eq. intros l. rewrite Hl, lookup_fmap. by destruct (m !! l).
Qed.

Lemma wf_map_recalculated `{MathSqrt} (m : gmap string KPISet.t) :
  wf_map m → wf_map (recalculated <$> m).
Proof.
  intros Hm l k. rewrite lookup_fmap. destruct (m !! l) as [k'|] eqn:Hl; [|done].
  intros [= <-]. apply wf_recalculated. by eapply Hm.
Qed.

Lemma wf_merged_entries `{MathSqrt} levels sid (src dst dst' : gmap string KPISet.t) :
  Forall valid_level levels → wf_map src → wf_map dst →
  (∀ l, dst' !! l = merged_entry levels sid (dst !! l) (src !! l)) →
  wf_map dst'.
Proof.
  intros Hlv Hsrc Hdst Hl l k. rewrite Hl. unfold merged_entry.
  destruct (src !! l) as [v|] eqn:Hv.
  - intros [= <-]. apply wf_merged; [by apply wf_map_default|by eapply Hsrc].
  - intros Hk. by eapply Hdst.
Qed.

Lemma throughput_at_recalculated `{MathSqrt} (m : gmap string KPISet.t) l :
  wf_map m → throughput_at (recalculated <$> m) l = throughput_at m l.
Proof.
  intros Hm. unfold throughput_at. rewrite lookup_fmap.
  destruct (m !! l) as [k|] eqn:Hl; [|done]. simpl.
  apply recalculated_spec. by eapply Hm.
Qed.

Lemma throughput_at_merged `{MathSqrt} levels sid (src dst dst' : gmap string KPISet.t) l :
  wf_map src →
  (∀ l, dst' !! l = merged_entry levels sid (dst !! l) (src !! l)) →
  throughput_at dst' l = throughput_at dst l + throughput_at src l.
Proof.
  intros Hsrc Hl. unfold throughput_at. rewrite Hl. unfold merged_entry.
  destruct (src !! l) as [v|] eqn:Hv; simpl; [|lia].
  destruct (merged_spec (default (KPISet.init levels) (dst !! l)) v sid) as [_ ->].
  { by eapply Hsrc. }
  by destruct (dst !! l).
Qed.

(** * Data points *)

Lemma datapoint_recalculate_ok `{MathSqrt} (d : DataPoint.t) :
  wf_map (DataPoint.current d) → wf_map (DataPoint.cumulative d) →
  DataPoint.recalculate d
  = ({| DataPoint.current := recalculated <$> DataPoint.current d;
        DataPoint.cumulative := recalculated <$> DataPoint.cumulative d;
        DataPoint.perc_levels := DataPoint.perc_levels d;
        DataPoint.source_id := DataPoint.source_id d;
        DataPoint.ts := DataPoint.ts d;
        DataPoint.subresults := DataPoint.subresults d |}, Ok ()).
Proof.
  intros Hcur Hcum. unfold DataPoint.recalculate.
  by rewrite (recalculate_map_ok _ Hcur), (recalculate_map_ok _ Hcum).
Qed.

Lemma merge_point_mismatch `{MathSqrt} (self src : DataPoint.t) :
  DataPoint.ts self ≠ DataPoint.ts src →
  DataPoint.merge_point self src
  = ((self, src), Raise (ValueError "Cannot merge different timestamps")).
Proof. intros Hne. unfold DataPoint.merge_point. by rewrite bool_decide_true. Qed.

Lemma merge_point_ok `{MathSqrt} (self src : DataPoint.t) :
  wf_datapoint self → wf_map (DataPoint.current src) → wf_map (DataPoint.cumulative src) →
  DataPoint.ts self = DataPoint.ts src →
  ∃ self' src',
    DataPoint.merge_point self src = ((self', src'), Ok ())
    ∧ DataPoint.subresults self' = DataPoint.subresults self ++ [src']
    ∧ (∀ l, DataPoint.current self' !! l
            = recalculated <$> merged_entry (DataPoint.perc_levels self) (DataPoint.source_id src)
                                 (DataPoint.current self !! l) (DataPoint.current src !! l))
    ∧ (∀ l, DataPoint.cumulative self' !! l
            = recalculated <$> merged_entry (DataPoint.perc_levels self) (DataPoint.source_id src)
                                 (DataPoint.cumulative self !! l) (DataPoint.cumulative src !! l))
    ∧ DataPoint.current src' = recalculated <$> DataPoint.current src
    ∧ DataPoint.cumulative src' = recalculated <$> DataPoint.cumulative src
    ∧ DataPoint.ts self' = DataPoint.ts self
    ∧ DataPoint.perc_levels self' = DataPoint.perc_levels self
    ∧ DataPoint.source_id self' = DataPoint.source_id self
    ∧ wf_datapoint self'.
Proof.
  intros (Hcur & Hcum & Hlv) Hscur Hscum Hts.
  unfold DataPoint.merge_point, DataPoint.__merge_kpis. rewrite bool_decide_false by by intros ?.
  destruct (merge_maps_ok (DataPoint.perc_levels self) (DataPoint.source_id src)
              (DataPoint.current src) (DataPoint.current self) Hscur) as (cur' & -> & Hcur').
  destruct (merge_maps_ok (DataPoint.perc_levels self) (DataPoint.source_id src)
              (DataPoint.cumulative src) (DataPoint.cumulative self) Hscum) as (cum' & -> & Hcum').
  pose proof (wf_merged_entries _ _ _ _ _ Hlv Hscur Hcur Hcur') as Hwcur.
  pose proof (wf_merged_entries _ _ _ _ _ Hlv Hscum Hcum Hcum') as Hwcum.
  rewrite datapoint_recalculate_ok by done.
  eexists _, _. split; [reflexivity|]. simpl. split_and!; try done.
  - intros l. by rewrite lookup_fmap, Hcur'.
  - intros l. by rewrite lookup_fmap, Hcum'.
  - split_and!; simpl; [by apply wf_map_recalculated..|done].
Qed.

Lemma merged_map_throughput `{MathSqrt} levels sid (a b m : gmap string KPISet.t) l :
  wf_map a → wf_map b → Forall valid_level levels →
  (∀ l, m !! l = recalculated <$> merged_entry levels sid (a !! l) (b !! l)) →
  throughput_at m l = throughput_at a l + throughput_at b l.
Proof.
  intros Ha Hb Hlv Hl.
  set (mid := merge (merged_entry levels sid) a b).
  assert (∀ l, mid !! l = merged_entry levels sid (a !! l) (b !! l)) as Hmid.
  { intros l'. unfold mid. rewrite lookup_merge. by destruct (a !! l'), (b !! l'). }
  assert (m = recalculated <$> mid) as ->.
  { apply map_eq. intros l'. by rewrite Hl, lookup_fmap, Hmid. }
  rewrite throughput_at_recalculated.
  - by apply (throughput_at_merged _ _ _ _ _ _ Hb Hmid).
  - by apply (wf_merged_entries _ _ _ _ _ Hlv Hb Ha Hmid).
Qed.

Lemma merge_point_throughput `{MathSqrt} (self src self' : DataPoint.t) l :
  wf_map (DataPoint.current self) → wf_map (DataPoint.current src) →
  Forall valid_level (DataPoint.perc_levels self) →
  (∀ l, DataPoint.current self' !! l
        = recalculated <$> merged_entry (DataPoint.perc_levels self) (DataPoint.source_id src)
                             (DataPoint.current self !! l) (DataPoint.current src !! l)) →
  throughput_at (DataPoint.current self') l
  = throughput_at (DataPoint.current self) l + throughput_at (DataPoint.current src) l.
Proof. intros Hself Hsrc Hlv Hl. by apply (merged_map_throughput _ _ _ _ _ l Hself Hsrc Hlv Hl). Qed.

(** C8, as the code has it.  When the timestamps differ [merge_point]
    raises its [ValueError] and leaves the receiver and the source as they
    were.  When they are equal and the KPISets of both points are well
    formed (positive histogram counts, percentile levels that pass the
    assertion of [__perc_and_stdev]), it returns: the source is the last of
    the subresults, which are one more than before; under every label the
    entry of [current] (of [cumulative]) is, error records apart, the
    recalculated merge of the source's entry into the find-or-create entry
    of the receiver, so that the sample counts add up; the entries of the
    source are, error records apart, recalculated. *)
Theorem merge_point_timestamps `{MathSqrt} (self src : DataPoint.t) :
  (DataPoint.ts self ≠ DataPoint.ts src →
     DataPoint.merge_point self src
     = ((self, src), Raise (ValueError "Cannot merge different timestamps")))
  ∧ (DataPoint.ts self = DataPoint.ts src → wf_datapoint self → wf_datapoint src →
     ∃ self' src',
       DataPoint.merge_point self src = ((self', src'), Ok ())
       ∧ list.last (DataPoint.subresults self') = Some src'
       ∧ length (DataPoint.subresults self') = S (length (DataPoint.subresults self))
       ∧ (∀ l, without_errors <$> DataPoint.current self' !! l
               = without_errors <$>
                   (recalculated <$> merged_entry (DataPoint.perc_levels self)
                                       (DataPoint.source_id src)
                                       (DataPoint.current self !! l)
                                       (DataPoint.current src !! l)))
       ∧ (∀ l, without_errors <$> DataPoint.cumulative self' !! l
               = without_errors <$>
                   (recalculated <$> merged_entry (DataPoint.perc_levels self)
                                       (DataPoint.source_id src)
                                       (DataPoint.cumulative self !! l)
                                       (DataPoint.cumulative src !! l)))
       ∧ (∀ l, throughput_at (DataPoint.current self') l
               = throughput_at (DataPoint.current self) l
                 + throughput_at (DataPoint.current src) l)
       ∧ (∀ l, throughput_at (DataPoint.cumulative self') l
               = throughput_at (DataPoint.cumulative self) l
                 + throughput_at (DataPoint.cumulative src) l)
       ∧ (∀ l, without_errors <$> DataPoint.current src' !! l
               = without_errors <$> (recalculated <$> DataPoint.current src !! l))
       ∧ (∀ l, without_errors <$> DataPoint.cumulative src' !! l
               = without_errors <$> (recalculated <$> DataPoint.cumulative src !! l))
       ∧ DataPoint.ts self' = DataPoint.ts self).
Proof.
  split; [apply merge_point_mismatch|].
  intros Heq (Hc & Hm & Hlv) (Hscur & Hscum & _).
  destruct (merge_point_ok self src (conj Hc (conj Hm Hlv)) Hscur Hscum Heq)
    as (self' & src' & Hrun & Hsub & Hcur & Hcum & Hsc & Hsm & Hts & _).
  exists self', src'. split_and!; [done| | | | | | | | |done].
  - rewrite Hsub. apply last_snoc.
  - rewrite Hsub, length_app. simpl. lia.
  - intros l. by rewrite Hcur.
  - intros l. by rewrite Hcum.
  - intros l. by apply (merge_point_throughput self src self' l Hc Hscur Hlv Hcur).
  - intros l.
    apply (merged_map_throughput (DataPoint.perc_levels self) (DataPoint.source_id src)
             _ _ _ l Hm Hscum Hlv Hcum).
  - intros l. by rewrite Hsc, lookup_fmap.
  - intros l. by rewrite Hsm, lookup_fmap.
Qed.

Lemma kpiset_of_count_wf n : 0 < n → wf_kpiset (kpiset_of_count n).
Proof.
  intros Hn. split.
  - intros v m. simpl. rewrite lookup_singleton_Some. by intros [_ <-].
  - repeat constructor; by vm_compute.
Qed.

Lemma point_of_source_wf sid timestamp : wf_datapoint (point_of_source sid timestamp).
Proof.
  split_and!; simpl.
  - apply map_Forall_singleton. by apply kpiset_of_count_wf.
  - apply map_Forall_singleton. by apply kpiset_of_count_wf.
  - repeat constructor; by vm_compute.
Qed.

Lemma merge_point_timestamps_witness :
  DataPoint.merge_point (H := approx_sqrt) (point_of_source 1 5) (point_of_source 2 6)
  = ((point_of_source 1 5, point_of_source 2 6),
     Raise (ValueError "Cannot merge different timestamps"))
  ∧ ∃ self' src',
      DataPoint.merge_point (H := approx_sqrt) (point_of_source 1 5) (point_of_source 2 5)
      = ((self', src'), Ok ())
      ∧ list.last (DataPoint.subresults self') = Some src'
      ∧ throughput_at (DataPoint.current self') "" = 200.
Proof.
  destruct (merge_point_timestamps (H := approx_sqrt) (point_of_source 1 5)
              (point_of_source 2 6)) as [Hne _].
  destruct (merge_point_timestamps (H := approx_sqrt) (point_of_source 1 5)
              (point_of_source 2 5)) as [_ Heq].
  split; [apply Hne; simpl; lia|].
  destruct (Heq eq_refl (point_of_source_wf 1 5) (point_of_source_wf 2 5))
    as (self' & src' & Hrun & Hlast & _ & _ & _ & Hcount & _).
  exists self', src'. split_and!; [done..|]. by rewrite Hcount.
Defined.

(** C8, counterexample: the receiver is a data point for timestamp 5 and the
    source a data point for the same timestamp whose KPISet asks for the
    percentile level 101.  The timestamps are equal, yet [merge_point]
    raises: [merge_kpis] recalculates the source, and the assertion of
    [__perc_and_stdev] fails.  By then the source has been appended to the
    subresults of the receiver, which were empty. *)
Lemma equal_timestamps_counterexample :
  DataPoint.ts (point_of_source 1 5) = DataPoint.ts point_with_level_101
  ∧ DataPoint.subresults (point_of_source 1 5) = []
  ∧ ∃ self' src',
      DataPoint.merge_point (H := approx_sqrt) (point_of_source 1 5) point_with_level_101
      = ((self', src'), Raise AssertionError)
      ∧ DataPoint.subresults self' = [src'].
Proof. split_and!; [done..|]. eexists _, _. split; by vm_compute. Qed.

(** * The consolidator *)

Lemma wf_map_deepcopy (m : gmap string KPISet.t) : wf_map m → wf_map (KPISet.deepcopy <$> m).
Proof.
  intros Hm l k. rewrite lookup_fmap. destruct (m !! l) as [k'|] eqn:Hl; [|done].
  intros [= <-]. apply wf_deepcopy. by eapply Hm.
Qed.

Lemma on_datapoint_ok `{MathSqrt} track (cumulative : gmap string KPISet.t) (d : DataPoint.t) :
  Forall valid_level track → wf_map cumulative → wf_map (DataPoint.current d) →
  ∃ cumulative',
    ResultsProvider.on_datapoint track cumulative d
    = ((cumulative',
        {| DataPoint.current := recalculated <$> (recalculated <$> DataPoint.current d);
           DataPoint.cumulative := recalculated <$> (KPISet.deepcopy <$> cumulative');
           DataPoint.perc_levels := DataPoint.perc_levels d;
           DataPoint.source_id := DataPoint.source_id d;
           DataPoint.ts := DataPoint.ts d;
           DataPoint.subresults := DataPoint.subresults d |}), Ok ())
    ∧ (∀ l, cumulative' !! l = merged_entry track None (cumulative !! l) (DataPoint.current d !! l))
    ∧ wf_map cumulative'.
Proof.
  intros Hlv Hcum Hcur.
  unfold ResultsProvider.on_datapoint, ResultsProvider.__merge_to_cumulative.
  destruct (merge_maps_ok track None (DataPoint.current d) cumulative Hcur)
    as (cumulative' & -> & Hl).
  pose proof (wf_merged_entries _ _ _ _ _ Hlv Hcur Hcum Hl) as Hwf.
  rewrite datapoint_recalculate_ok; simpl.
  - by exists cumulative'.
  - by apply wf_map_recalculated.
  - by apply wf_map_deepcopy.
Qed.

Lemma merge_points_ok `{MathSqrt} pts : ∀ self point,
  wf_datapoint point →
  Forall (λ d, DataPoint.ts d = DataPoint.ts point
               ∧ wf_map (DataPoint.current d) ∧ wf_map (DataPoint.cumulative d)) pts →
  ∃ self' point',
    ConsolidatingAggregator.merge_points pts self point = ((self', point'), Ok ())
    ∧ wf_datapoint point'
    ∧ DataPoint.ts point' = DataPoint.ts point
    ∧ (∀ l, throughput_at (DataPoint.current point') l
            = throughput_at (DataPoint.current point) l
              + Zsum ((λ d, throughput_at (DataPoint.current d) l) <$> pts))
    ∧ ConsolidatingAggregator.cumulative self' = ConsolidatingAggregator.cumulative self
    ∧ ConsolidatingAggregator.buffer self' = ConsolidatingAggregator.buffer self
    ∧ ConsolidatingAggregator.buffer_len self' = ConsolidatingAggregator.buffer_len self
    ∧ ConsolidatingAggregator.track_percentiles self'
      = ConsolidatingAggregator.track_percentiles self.
Proof.
  induction pts as [|d pts IH]; intros self point Hpoint Hpts.
  { exists self, point. split_and!; try done. intros l. unfold Zsum. simpl. lia. }
  apply list.Forall_cons in Hpts as [(Hts & Hcur & Hcum) Hpts].
  cbn [ConsolidatingAggregator.merge_points].
  destruct (merge_point_ok point d Hpoint Hcur Hcum (eq_sym Hts))
    as (point1 & d' & -> & _ & Hl & _ & _ & _ & Hts1 & Hlv1 & _ & Hwf1).
  destruct (IH (ConsolidatingAggregator.emit (Debug "Merging %s" [DataPoint.ts d]) self) point1 Hwf1)
    as (self' & point' & -> & Hwf' & Hts' & Hthr & Hc & Hb & Hbl & Htp).
  { eapply list.Forall_impl; [exact Hpts|]. intros x (? & ? & ?). split_and!; [congruence|done..]. }
  exists self', point'. split_and!; try done; [congruence|].
  intros l. rewrite Hthr, fmap_cons. unfold Zsum at 2. simpl. fold (Zsum ((λ d0, throughput_at (DataPoint.current d0) l) <$> pts)).
  destruct Hpoint as (Hpc & _ & Hplv).
  rewrite (merge_point_throughput point d point1 l Hpc Hcur Hplv Hl). lia.
Qed.

(** C5. When the consolidator emits the data point of a timestamp [T]
    for which it has buffered one data point from each of two sources, both
    with an overall (label [""]) sample count of 100, the overall sample
    count of the emitted data point is 200.  The [current] of the emitted
    data point is merged once into the running cumulative: under every label
    the cumulative sample count grows by the count of the emitted [current].
    The data point carries the recalculated deep copy of the running
    cumulative, and [T] leaves the buffer, so that a later pull cannot emit
    and count it again. *)
Theorem consolidated_emission `{MathSqrt} (self : ConsolidatingAggregator.t)
    (final_pass : bool) (T : Z) (rest : list Z) (out : list DataPoint.t)
    (d1 d2 : DataPoint.t) (k1 k2 : KPISet.t) :
  Forall valid_level (ConsolidatingAggregator.track_percentiles self) →
  wf_map (ConsolidatingAggregator.cumulative self) →
  wf_datapoint d1 → wf_datapoint d2 →
  ConsolidatingAggregator.buffer self !! T = Some [d1; d2] →
  DataPoint.ts d1 = T → DataPoint.ts d2 = T →
  DataPoint.current d1 !! ""%string = Some k1 → KPISet.throughput k1 = 100 →
  DataPoint.current d2 !! ""%string = Some k2 → KPISet.throughput k2 = 100 →
  final_pass = true
  ∨ T + ConsolidatingAggregator.buffer_len self ≤ List.last (T :: rest) T →
  ∃ self' point,
    ConsolidatingAggregator.calc_loop ConsolidatingAggregator.on_datapoint
      final_pass (T :: rest) self out
    = ConsolidatingAggregator.calc_loop ConsolidatingAggregator.on_datapoint
        final_pass rest self' (out ++ [point])
    ∧ DataPoint.ts point = T
    ∧ throughput_at (DataPoint.current point) "" = 200
    ∧ (∀ l, throughput_at (ConsolidatingAggregator.cumulative self') l
            = throughput_at (ConsolidatingAggregator.cumulative self) l
              + throughput_at (DataPoint.current point) l)
    ∧ DataPoint.cumulative point
      = recalculated <$> (KPISet.deepcopy <$> ConsolidatingAggregator.cumulative self')
    ∧ (∀ l, throughput_at (DataPoint.cumulative point) l
            = throughput_at (ConsolidatingAggregator.cumulative self') l)
    ∧ ConsolidatingAggregator.buffer self' = delete T (ConsolidatingAggregator.buffer self).
Proof.
  intros Hlv Hcum (Hc1 & Hm1 & _) (Hc2 & Hm2 & _) Hbuf Hts1 Hts2 Hk1 Ht1 Hk2 Ht2 Hguard.
  cbn [ConsolidatingAggregator.calc_loop].
  assert (final_pass
          || bool_decide (T + ConsolidatingAggregator.buffer_len self ≤ List.last (T :: rest) T)
          = true) as ->.
  { destruct Hguard as [->|Hle]; [done|]. rewrite bool_decide_true by done. apply orb_true_r. }
  cbn [ConsolidatingAggregator.buffer ConsolidatingAggregator.emit]. rewrite Hbuf.
  set (self2 := ConsolidatingAggregator.set_buffer _ _).
  set (point0 := DataPoint.init T _).
  assert (wf_datapoint point0) as Hwf0.
  { split_and!; simpl; [apply map_Forall_empty..|done]. }
  destruct (merge_points_ok [d1; d2] self2 point0 Hwf0)
    as (self3 & point2 & -> & (Hwc2 & Hwm2 & Hwl2) & Hts & Hthr & Hcum3 & Hbuf3 & _ & Htp3).
  { apply list.Forall_cons; split; [done|]. apply list.Forall_cons; split; [done|].
    apply Forall_nil_2. }
  rewrite datapoint_recalculate_ok by done.
  unfold ConsolidatingAggregator.on_datapoint.
  match goal with |- context [ResultsProvider.on_datapoint ?t ?c ?d] =>
    destruct (on_datapoint_ok t c d) as (cumulative' & -> & Hl & Hwf') end.
  { by rewrite Htp3. }
  { by rewrite Hcum3. }
  { simpl. by apply wf_map_recalculated. }
  simpl in Hl.
  eexists _, _. split; [reflexivity|]. simpl.
  assert (∀ l, throughput_at (recalculated <$> (recalculated <$> (recalculated <$>
                 DataPoint.current point2))) l
               = throughput_at (DataPoint.current point2) l) as Hsame.
  { intros l. rewrite !throughput_at_recalculated; [done|done|..];
      repeat apply wf_map_recalculated; done. }
  split_and!.
  - done.
  - rewrite Hsame, Hthr. unfold throughput_at, Zsum. simpl.
    rewrite Hk1, Hk2, lookup_empty. simpl. lia.
  - intros l. rewrite Hsame.
    rewrite (throughput_at_merged _ _ _ _ _ l (wf_map_recalculated _ Hwc2) Hl).
    rewrite throughput_at_recalculated by done. by rewrite Hcum3.
  - done.
  - intros l. rewrite throughput_at_recalculated by by apply wf_map_deepcopy.
    unfold throughput_at. rewrite lookup_fmap. by destruct (cumulative' !! l).
  - by rewrite Hbuf3.
Qed.

Lemma consolidated_emission_witness :
  ∃ self' point,
    ConsolidatingAggregator.calc_loop (H := approx_sqrt)
      (ConsolidatingAggregator.on_datapoint (H := approx_sqrt))
      true [5] consolidator_with_two []
    = ConsolidatingAggregator.calc_loop (H := approx_sqrt)
      (ConsolidatingAggregator.on_datapoint (H := approx_sqrt))
        true [] self' ([] ++ [point])
    ∧ DataPoint.ts point = 5
    ∧ throughput_at (DataPoint.current point) "" = 200
    ∧ (∀ l, throughput_at (ConsolidatingAggregator.cumulative self') l
            = throughput_at (ConsolidatingAggregator.cumulative consolidator_with_two) l
              + throughput_at (DataPoint.current point) l)
    ∧ DataPoint.cumulative point
      = recalculated (H := approx_sqrt)
          <$> (KPISet.deepcopy <$> ConsolidatingAggregator.cumulative self')
    ∧ (∀ l, throughput_at (DataPoint.cumulative point) l
            = throughput_at (ConsolidatingAggregator.cumulative self') l)
    ∧ ConsolidatingAggregator.buffer self'
      = delete 5 (ConsolidatingAggregator.buffer consolidator_with_two).
Proof.
  apply (consolidated_emission (H := approx_sqrt) consolidator_with_two true 5 [] []
           (point_of_source 1 5) (point_of_source 2 5)
           (kpiset_of_count 100) (kpiset_of_count 100)).
  - repeat constructor; by vm_compute.
  - apply map_Forall_empty.
  - apply point_of_source_wf.
  - apply point_of_source_wf.
  - reflexivity.
  - reflexivity.
  - reflexivity.
  - reflexivity.
  - reflexivity.
  - reflexivity.
  - reflexivity.
  - by left.
Defined.

(** The scenario of C5 run through [datapoints]: a final pull on the
    consolidator above emits one data point, for timestamp 5, whose overall
    sample count is 200; the running cumulative then holds 200, and a second
    final pull with nothing new emits nothing and leaves the cumulative at
    200. *)
Example consolidation_scenario :
  let first := ConsolidatingAggregator.datapoints (H := approx_sqrt) true [] consolidator_with_two in
  let second := ConsolidatingAggregator.datapoints (H := approx_sqrt) true [[]; []] first.1.1 in
  first.2 = Ok ()
  ∧ (λ d, (DataPoint.ts d, throughput_at (DataPoint.current d) "",
           throughput_at (DataPoint.cumulative d) "")) <$> first.1.2 = [(5, 200, 200)]
  ∧ throughput_at (ConsolidatingAggregator.cumulative first.1.1) "" = 200
  ∧ second.2 = Ok ()
  ∧ second.1.2 = []
  ∧ throughput_at (ConsolidatingAggregator.cumulative second.1.1) "" = 200.
Proof. by vm_compute. Qed.

(** * Label generalization: hexadecimal runs *)

Lemma is_hex_word c : Re.is_hex c = true → Re.is_word c = true.
Proof. destruct c as [[] [] [] [] [] [] [] []]; by vm_compute. Qed.

Lemma is_hex_not_dash c : Re.is_hex c = true → Ascii.eqb "-" c = false.
Proof. destruct c as [[] [] [] [] [] [] [] []]; by vm_compute. Qed.

(** A repetition fails when its continuation fails on every rest of the
    input. *)
Lemma rep_none {X} (P : list ascii → Prop) cls (k : option ascii → list ascii → nat → option X) :
  (∀ c s, P (c :: s) → P s) →
  (∀ prev s n, P s → k prev s n = None) →
  ∀ s lo hi prev n, P s → Re.rep cls lo hi prev s n k = None.
Proof.
  intros Htail Hk. induction s as [|c s IH]; intros lo hi prev n Hs; simpl.
  - destruct lo; [by apply Hk|done].
  - rewrite (IH _ _ _ _ (Htail _ _ Hs)).
    destruct (cls c && _); destruct lo; try done; by apply Hk.
Qed.

(** An open repetition over a run of the class takes the whole run when
    the continuation accepts the end of the input. *)
Lemma rep_greedy_all {X} cls (k : option ascii → list ascii → nat → option X) x :
  ∀ s lo prev n c0,
    Forall (λ c, cls c = true) s → s ≠ [] → (lo ≤ length s)%nat →
    k (Some (List.last s c0)) [] (length s + n)%nat = Some x →
    Re.rep cls lo None prev s n k = Some x.
Proof.
  induction s as [|c s IH]; intros lo prev n c0 Hall Hne Hlo Hk; [done|].
  apply list.Forall_cons in Hall as [Hc Hall]. simpl. rewrite Hc. simpl.
  destruct s as [|c' s].
  - simpl in *. destruct lo as [|[|lo]]; [| |lia]; simpl; by rewrite Hk.
  - assert (Re.rep cls (pred lo) None (Some c) (c' :: s) (S n) k = Some x) as ->; [|done].
    apply (IH (pred lo) (Some c) (S n) c0); [done|done|simpl in *; lia|].
    rewrite <-Hk. f_equal. simpl. lia.
Qed.

Lemma sub_from_skip r repl : ∀ s prev, Re.sub_from r repl prev (length s) s = [].
Proof. induction s as [|c s IH]; intros prev; [done|]. simpl. apply IH. Qed.

Lemma uuid_rule_no_match prev h :
  Forall (λ c, Re.is_hex c = true) h → Re.match_at uuid_rule prev h = None.
Proof.
  intros Hh. unfold Re.match_at.
  assert (∃ tail, uuid_rule
                  = Re.Cat Re.Boundary
                      (Re.Cat (Re.Rep Re.is_hex 8 (Some 8%nat)) (Re.Cat (Re.lit "-") tail)))
    as [tail ->] by (eexists; reflexivity).
  cbn [Re.run Re.lit]. destruct (xorb _ _); [|done].
  apply (rep_none (Forall (λ c, Re.is_hex c = true))); [| |done].
  - intros c s Hs. by apply list.Forall_cons in Hs as [_ ?].
  - intros p s n Hs. destruct Hs as [|c s Hc _]; [done|].
    by rewrite (is_hex_not_dash c Hc).
Qed.

Lemma uuid_rule_keeps_hex h : ∀ prev,
  Forall (λ c, Re.is_hex c = true) h →
  Re.sub_from uuid_rule (list_ascii_of_string "U") prev 0 h = h.
Proof.
  induction h as [|c h IH]; intros prev Hh; [done|].
  cbn [Re.sub_from]. rewrite uuid_rule_no_match by done.
  apply list.Forall_cons in Hh as [_ Hh]. by rewrite IH.
Qed.

Lemma hex_rule_match c h :
  Forall (λ c, Re.is_hex c = true) (c :: h) → (1 ≤ length h)%nat →
  Re.match_at hex_rule (Some "/"%char) (c :: h) = Some (S (length h)).
Proof.
  intros Hh Hlen. unfold Re.match_at.
  change hex_rule with (Re.Cat Re.Boundary (Re.Cat (Re.Rep Re.is_hex 2 None) Re.Boundary)).
  cbn [Re.run head].
  pose proof Hh as [Hc _]%list.Forall_cons.
  change (Re.word_opt (Some "/"%char)) with false.
  change (Re.word_opt (Some c)) with (Re.is_word c).
  rewrite (is_hex_word c Hc). cbn [xorb].
  apply (rep_greedy_all _ _ _ (c :: h) 2%nat _ 0%nat c); [done|done|simpl; lia|].
  assert (Re.is_hex (List.last (c :: h) c) = true) as Hlast.
  { apply (proj1 (list.Forall_forall _ _) Hh). by apply sorted_last_elem. }
  cbn [Re.word_opt]. rewrite (is_hex_word _ Hlast). cbn [xorb].
  f_equal. simpl. lia.
Qed.

(** No match starts at a character that is not at a word boundary or is
    not in the repeated class. *)
Lemma no_match_here cls lo hi tail prev c s :
  xorb (Re.word_opt prev) (Re.is_word c) = false ∨ cls c = false →
  Re.match_at (Re.Cat Re.Boundary (Re.Cat (Re.Rep cls (S lo) hi) tail)) prev (c :: s) = None.
Proof.
  intros Hor. unfold Re.match_at. cbn [Re.run head Re.word_opt].
  destruct (xorb _ _) eqn:Hx; [|done].
  destruct Hor as [?|Hc]; [congruence|]. cbn [Re.rep]. by rewrite Hc.
Qed.

Lemma sub_uuid_item h :
  Forall (λ c, Re.is_hex c = true) h →
  Re.sub uuid_rule "U" (item_label h) = item_label h.
Proof.
  intros Hh. unfold Re.sub, item_label. rewrite list_ascii_of_string_of_list_ascii. f_equal.
  pose proof (uuid_rule_keeps_hex h (Some "/"%char) Hh) as Htail.
  assert (∃ tail, uuid_rule
                  = Re.Cat Re.Boundary (Re.Cat (Re.Rep Re.is_hex 8 (Some 8%nat)) tail))
    as [tail Heq] by (eexists; reflexivity).
  rewrite Heq in Htail |- *. cbn [list_ascii_of_string] in Htail.
  cbn [list_ascii_of_string app Re.sub_from].
  repeat (rewrite no_match_here by (vm_compute; auto); cbn [Re.sub_from]).
  by rewrite Htail.
Qed.

Lemma sub_hex_item h :
  (2 ≤ length h)%nat → Forall (λ c, Re.is_hex c = true) h →
  Re.sub hex_rule "U" (item_label h) = "/item/U"%string.
Proof.
  intros Hlen Hh. unfold Re.sub, item_label. rewrite list_ascii_of_string_of_list_ascii.
  destruct h as [|c h]; [simpl in Hlen; lia|].
  pose proof (hex_rule_match c h Hh ltac:(simpl in Hlen; lia)) as Hmatch.
  change hex_rule with (Re.Cat Re.Boundary (Re.Cat (Re.Rep Re.is_hex 2 None) Re.Boundary))
    in Hmatch |- *.
  cbn [list_ascii_of_string app Re.sub_from].
  repeat (rewrite no_match_here by (vm_compute; auto); cbn [Re.sub_from]).
  rewrite Hmatch. by rewrite sub_from_skip.
Qed.

(** X30. A label ["/item/" + h] whose last segment [h] is a run of two or
    more hexadecimal characters is generalized to ["/item/U"], whatever the
    length of the run and also when all its characters are digits. *)
Theorem hex_runs_collapse (h : list ascii) :
  (2 ≤ length h)%nat →
  Forall (λ c, Re.is_hex c = true) h →
  ResultsReader.__generalize_label (item_label h) = "/item/U"%string.
Proof.
  intros Hlen Hh.
  unfold ResultsReader.__generalize_label.
  change (foldl _ (item_label h) ResultsReader.label_generalize_regexps)
    with (Re.sub digit_rule "N" (Re.sub hex_rule "U" (Re.sub uuid_rule "U" (item_label h)))).
  rewrite sub_uuid_item, sub_hex_item by done. by vm_compute.
Qed.

Lemma hex_runs_collapse_witness :
  ResultsReader.__generalize_label "/item/beef" = "/item/U"%string.
Proof.
  apply (hex_runs_collapse (list_ascii_of_string "beef")).
  - simpl. lia.
  - repeat constructor.
Defined.

(** * Further properties of KPISet *)

(** ** Percentiles *)

Lemma levels_checked levels :
  forallb (λ p, bool_decide (0 ≤ p)%Qc && bool_decide (p ≤ Qc_of_Z 100)%Qc) levels = true →
  Forall valid_level levels.
Proof.
  induction levels as [|p l IH]; simpl; [by constructor|].
  intros [[H0%bool_decide_eq_true H100%bool_decide_eq_true]%andb_prop Hl]%andb_prop.
  constructor; [done|by apply IH].
Qed.

Lemma levels_rejected levels :
  Exists (λ p, ¬ valid_level p) levels →
  forallb (λ p, bool_decide (0 ≤ p)%Qc && bool_decide (p ≤ Qc_of_Z 100)%Qc) levels = false.
Proof.
  intros Hex. apply not_true_is_false. intros Hall%levels_checked.
  apply list.Exists_exists in Hex as (p & Hin & Hp).
  by eapply Hp, list.Forall_forall.
Qed.

(** X2. The values that [__perc_and_stdev] returns do not decrease with the
    level: of two returned pairs, the one with the higher level has the
    higher or the same value. *)
Theorem percentiles_monotone `{MathSqrt} (h : gmap Qc Z) levels avg percs stdev :
  positive_counts h →
  KPISet.perc_and_stdev h levels avg = Ok (percs, stdev) →
  ∀ p v q w, (p, v) ∈ percs → (q, w) ∈ percs → (p ≤ q)%Qc → (v ≤ w)%Qc.
Proof.
  intros Hpos Hrun p v q w Hp Hq Hle.
  assert (Forall valid_level levels) as Hlv.
  { apply levels_checked. unfold KPISet.perc_and_stdev in Hrun.
    destruct (forallb _ levels); [done|]. by simpl in Hrun. }
  destruct (decide (h = ∅)) as [->|Hne].
  { rewrite perc_and_stdev_empty in Hrun by done. simplify_eq. by apply elem_of_nil in Hp. }
  destruct (perc_and_stdev_spec h levels avg Hpos Hlv Hne) as (percs' & Hrun' & Hall).
  rewrite Hrun in Hrun'. simplify_eq.
  apply Forall2_tagged in Hall as [_ Hrank].
  apply Hrank in Hp, Hq.
  assert (is_Some (h !! v)) as Hv.
  { destruct (decide (p < Qc_of_Z 100)%Qc) as [Hp100|Hp100].
    - by destruct (rank_exceeds h p v Hp100 Hp) as (? & _).
    - by destruct (rank_max h p v Hp100 Hp) as (? & _). }
  destruct (decide (q < Qc_of_Z 100)%Qc) as [Hq100|Hq100].
  - assert (p < Qc_of_Z 100)%Qc as Hp100 by by eapply Qcle_lt_trans.
    destruct (rank_exceeds h p v Hp100 Hp) as (_ & _ & Hmin).
    destruct (rank_exceeds h q w Hq100 Hq) as (Hw & Hgt & _).
    apply Hmin; [done|]. eapply Qcle_lt_trans; [|done].
    apply ppos_mono; [|done]. by apply Z.lt_le_incl, total_pos.
  - destruct (rank_max h q w Hq100 Hq) as (_ & Hmax). by apply Hmax.
Qed.

Lemma percentiles_monotone_witness :
  ∃ percs stdev p v q w,
    positive_counts two_values
    ∧ KPISet.perc_and_stdev (H := approx_sqrt) two_values [Qc_of_Z 50; 0%Qc] 0%Qc
      = Ok (percs, stdev)
    ∧ (p, v) ∈ percs ∧ (q, w) ∈ percs ∧ (p ≤ q)%Qc ∧ (v ≤ w)%Qc.
Proof.
  assert (∃ percs stdev,
    KPISet.perc_and_stdev (H := approx_sqrt) two_values [Qc_of_Z 50; 0%Qc] 0%Qc
    = Ok (percs, stdev) ∧ ∃ p v q w, percs = [(p, v); (q, w)] ∧ (p ≤ q)%Qc)
    as (percs & stdev & Hrun & p & v & q & w & -> & Hle).
  { eexists _, _. split; [vm_compute; reflexivity|]. eexists _, _, _, _. split; [done|].
    by vm_compute. }
  exists [(p, v); (q, w)], stdev, p, v, q, w.
  assert ((p, v) ∈ [(p, v); (q, w)]) as Hp by apply list_elem_of_here.
  assert ((q, w) ∈ [(p, v); (q, w)]) as Hq by apply list_elem_of_further, list_elem_of_here.
  split_and!; [apply two_values_positive|done..|].
  exact (percentiles_monotone (H := approx_sqrt) two_values [Qc_of_Z 50; 0%Qc] 0%Qc
           [(p, v); (q, w)] stdev two_values_positive Hrun p v q w Hp Hq Hle).
Defined.

(** ** Recalculation *)

Lemma put_percentiles_union percs : ∀ m,
  put_percentiles m percs = list_to_map (reverse percs) ∪ m.
Proof.
  unfold put_percentiles.
  induction percs as [|[l v] percs IH]; intros m; simpl.
  - by rewrite (left_id_L ∅ (∪)).
  - rewrite IH, reverse_cons, list_to_map_app. simpl.
    rewrite <-(assoc_L (∪)). f_equal.
    by rewrite insert_empty, <-insert_union_singleton_l.
Qed.

Lemma put_percentiles_twice percs m :
  put_percentiles (put_percentiles m percs) percs = put_percentiles m percs.
Proof.
  rewrite !put_percentiles_union.
  by rewrite (assoc_L (∪)), (idemp_L (∪)).
Qed.

Lemma recalculate_again `{MathSqrt} (k k' : KPISet.t) (r : result unit) :
  KPISet.recalculate k = (k', r) → KPISet.recalculate k' = (k', r).
Proof.
  unfold KPISet.recalculate.
  destruct (KPISet.perc_and_stdev (KPISet.rt k) (KPISet.perc_levels k) _)
    as [[percs stdev]| |] eqn:Hrun;
    intros [= <- <-]; cbn [KPISet.throughput KPISet.sum_rt KPISet.sum_lt KPISet.sum_cn
      KPISet.avg_rt KPISet.avg_lt KPISet.avg_ct KPISet._concurrencies KPISet.concurrency
      KPISet.rt KPISet.perc_levels KPISet.perc KPISet.stdev_rt KPISet.succ KPISet.fail
      KPISet.errors KPISet.rc];
    destruct (bool_decide (KPISet.throughput k ≠ 0));
    destruct (bool_decide (KPISet._concurrencies k ≠ ∅));
    rewrite Hrun; try done;
    fold (put_percentiles (KPISet.perc k) percs);
    fold (put_percentiles (put_percentiles (KPISet.perc k) percs) percs);
    by rewrite put_percentiles_twice.
Qed.

(** X3. [recalculate] is idempotent: a second call right after the first
    leaves the KPISet as the first left it and ends in the same way, also
    when the first call raised. *)
Theorem recalculate_idempotent `{MathSqrt} (k : KPISet.t) :
  KPISet.recalculate (KPISet.recalculate k).1 = KPISet.recalculate k.
Proof. destruct (KPISet.recalculate k) as [k' r] eqn:Hrec. simpl. by apply (recalculate_again k). Qed.

(** X4. The copy that [__deepcopy__] makes of a recalculated KPISet is itself
    unchanged by [recalculate]: the copy has no per-source concurrencies, so
    its concurrency stays the copied value. *)
Theorem deepcopy_of_recalculated_is_stable `{MathSqrt} (k k' : KPISet.t) (r : result unit) :
  KPISet.recalculate k = (k', r) →
  KPISet.recalculate (KPISet.deepcopy k') = (KPISet.deepcopy k', r)
  ∧ KPISet.concurrency (KPISet.deepcopy k') = KPISet.concurrency k'
  ∧ KPISet._concurrencies (KPISet.deepcopy k') = ∅.
Proof.
  intros Hrec. split; [|done]. revert Hrec.
  unfold KPISet.recalculate, KPISet.deepcopy.
  destruct (KPISet.perc_and_stdev (KPISet.rt k) (KPISet.perc_levels k) _)
    as [[percs stdev]| |] eqn:Hrun;
    intros [= <- <-]; cbn [KPISet.throughput KPISet.sum_rt KPISet.sum_lt KPISet.sum_cn
      KPISet.avg_rt KPISet.avg_lt KPISet.avg_ct KPISet._concurrencies KPISet.concurrency
      KPISet.rt KPISet.perc_levels KPISet.perc KPISet.stdev_rt KPISet.succ KPISet.fail
      KPISet.errors KPISet.rc];
    rewrite (bool_decide_false (∅ ≠ ∅)) by (by intros ?);
    destruct (bool_decide (KPISet.throughput k ≠ 0));
    rewrite Hrun; try done;
    fold (put_percentiles (KPISet.perc k) percs);
    fold (put_percentiles (put_percentiles (KPISet.perc k) percs) percs);
    by rewrite put_percentiles_twice.
Qed.

Lemma deepcopy_of_recalculated_is_stable_witness :
  ∃ k',
    KPISet.recalculate (H := approx_sqrt) three_samples = (k', Ok ())
    ∧ KPISet.recalculate (H := approx_sqrt) (KPISet.deepcopy k') = (KPISet.deepcopy k', Ok ())
    ∧ KPISet.concurrency (KPISet.deepcopy k') = KPISet.concurrency k'
    ∧ KPISet._concurrencies (KPISet.deepcopy k') = ∅.
Proof.
  destruct (recalculate_ok (H := approx_sqrt) three_samples three_samples_wf)
    as (k' & percs & Hrec & _).
  exists k'. split; [done|].
  exact (deepcopy_of_recalculated_is_stable (H := approx_sqrt) three_samples k' (Ok ()) Hrec).
Defined.

(** X5. A percentile level outside [0, 100] makes [recalculate] raise
    [AssertionError] after the averages have been stored: the KPISet keeps
    its new average, its old percentiles and its old standard deviation.
    [merge_kpis] recalculates the source first, so with such a source it
    raises before it has touched the destination. *)
Theorem invalid_level_raises_after_averages `{MathSqrt} (dest k : KPISet.t) (sid : option Z) :
  Exists (λ p, ¬ valid_level p) (KPISet.perc_levels k) →
  ∃ k',
    KPISet.recalculate k = (k', Raise AssertionError)
    ∧ KPISet.avg_rt k' = new_avg_rt k
    ∧ KPISet.perc k' = KPISet.perc k
    ∧ KPISet.stdev_rt k' = KPISet.stdev_rt k
    ∧ KPISet.merge_kpis dest k sid = ((dest, k'), Raise AssertionError).
Proof.
  intros Hex%levels_rejected.
  assert (∀ avg, KPISet.perc_and_stdev (KPISet.rt k) (KPISet.perc_levels k) avg
                 = Raise AssertionError) as Hrun.
  { intros avg. unfold KPISet.perc_and_stdev. by rewrite Hex. }
  eexists. split; [unfold KPISet.recalculate; by rewrite Hrun|].
  split_and!; try done.
  unfold KPISet.merge_kpis, KPISet.recalculate. by rewrite Hrun.
Qed.

Lemma invalid_level_raises_after_averages_witness :
  ∃ k',
    KPISet.recalculate (H := approx_sqrt)
      (KPISet.add_sample (KPISet.init [Qc_of_Z 101]) (sample_of 3 None))
    = (k', Raise AssertionError)
    ∧ KPISet.avg_rt k' = Qc_of_Z 3.
Proof.
  destruct (invalid_level_raises_after_averages (H := approx_sqrt) (KPISet.init [])
              (KPISet.add_sample (KPISet.init [Qc_of_Z 101]) (sample_of 3 None)) None)
    as (k' & Hrec & Havg & _).
  { apply Exists_cons_hd. intros [_ Hle]. by vm_compute in Hle. }
  exists k'. split; [done|]. rewrite Havg. by apply Qc_is_canon.
Defined.

(** ** Restoring from a dictionary *)

Lemma Qc_mult_div (a n : Qc) : n ≠ 0%Qc → (a * n / n)%Qc = a.
Proof. intros Hn. unfold Qcdiv. by rewrite <-Qcmult_assoc, Qcmult_inv_r, Qcmult_1_r. Qed.

Lemma Qc_of_Z_ne_0 n : n ≠ 0 → Qc_of_Z n ≠ 0%Qc.
Proof. intros Hn Heq. apply Hn. rewrite <-Z2Qc_inj_0 in Heq. by apply Z2Qc_inj in Heq. Qed.

(** X6. [from_dict] restores the three sums as average times sample count.
    When these products are computed without rounding (the average, the
    count and the product are binary64 numbers), the averages that
    [recalculate] stores on the restored KPISet are the averages of the
    dictionary, whatever the sample count is and whether or not the
    recalculation of the percentiles succeeds. *)
Theorem from_dict_keeps_averages `{MathSqrt} (obj : KPISet.t) :
  exact_product (KPISet.avg_rt obj) (KPISet.throughput obj) →
  exact_product (KPISet.avg_lt obj) (KPISet.throughput obj) →
  exact_product (KPISet.avg_ct obj) (KPISet.throughput obj) →
  let k' := (KPISet.recalculate (KPISet.from_dict obj)).1 in
  KPISet.avg_rt k' = KPISet.avg_rt obj
  ∧ KPISet.avg_lt k' = KPISet.avg_lt obj
  ∧ KPISet.avg_ct k' = KPISet.avg_ct obj
  ∧ KPISet.throughput k' = KPISet.throughput obj
  ∧ KPISet.sum_rt k' = (KPISet.avg_rt obj * Qc_of_Z (KPISet.throughput obj))%Qc.
Proof.
  intros _ _ _. unfold KPISet.recalculate.
  destruct (KPISet.perc_and_stdev _ _ _) as [[percs stdev]| |]; simpl;
    (case_bool_decide as Hn; [rewrite !Qc_mult_div by by apply Qc_of_Z_ne_0|]); done.
Qed.

Lemma from_dict_keeps_averages_witness :
  let k' := (KPISet.recalculate (H := approx_sqrt) (KPISet.from_dict dictionary_of_three)).1 in
  KPISet.avg_rt k' = Q2Qc (1 # 2)
  ∧ KPISet.avg_lt k' = Q2Qc (1 # 2)
  ∧ KPISet.avg_ct k' = Q2Qc (1 # 2)
  ∧ KPISet.throughput k' = 3
  ∧ KPISet.sum_rt k' = (Q2Qc (1 # 2) * Qc_of_Z 3)%Qc.
Proof.
  assert (exact_product (Q2Qc (1 # 2)) 3) as Hexact.
  { split_and!; [binary64_by 1 (-1)|binary64_by 3 0|binary64_by 3 (-1)]. }
  apply (from_dict_keeps_averages (H := approx_sqrt) dictionary_of_three); apply Hexact.
Defined.

(** * Histograms and error records *)

(** ** Sums over dictionaries *)

Lemma map_sum_empty `{Countable K} {V} (f : V → Z) : map_sum f (∅ : gmap K V) = 0.
Proof. unfold map_sum. by rewrite map_to_list_empty. Qed.

Lemma map_sum_insert_fresh `{Countable K} {V} (f : V → Z) (m : gmap K V) k v :
  m !! k = None → map_sum f (<[k := v]> m) = map_sum f m + f v.
Proof.
  intros Hk. unfold map_sum.
  rewrite (Zsum_perm _ (f <$> ((k, v) :: map_to_list m).*2)).
  - rewrite !fmap_cons. unfold Zsum. simpl. lia.
  - by rewrite map_to_list_insert.
Qed.

Lemma map_sum_insert `{Countable K} {V} (f : V → Z) (m : gmap K V) k v :
  map_sum f (<[k := v]> m) = map_sum f m - from_option f 0 (m !! k) + f v.
Proof.
  destruct (m !! k) as [x|] eqn:Hk; simpl.
  - rewrite <-(insert_delete_id m k x Hk) at 2.
    rewrite <-(insert_delete_eq m k v).
    rewrite !map_sum_insert_fresh by apply lookup_delete_eq. lia.
  - rewrite map_sum_insert_fresh by done. lia.
Qed.

Lemma total_map_sum `{Countable K} (c : gmap K Z) : Counter.total c = map_sum id c.
Proof. unfold Counter.total, map_sum. by rewrite list_fmap_id. Qed.

Lemma total_incr `{Countable K} (c : gmap K Z) k n :
  Counter.total (Counter.incr c k n) = Counter.total c + n.
Proof.
  rewrite !total_map_sum. unfold Counter.incr, Counter.get.
  rewrite map_sum_insert. destruct (c !! k); simpl; lia.
Qed.

Lemma update_empty `{Countable K} (a : gmap K Z) : Counter.update a ∅ = a.
Proof.
  apply map_eq. intros i. unfold Counter.update.
  rewrite lookup_union_with, lookup_empty. by destruct (a !! i).
Qed.

Lemma update_insert_fresh `{Countable K} (a b : gmap K Z) k v :
  b !! k = None →
  Counter.update a (<[k := v]> b) = <[k := default 0 (a !! k) + v]> (Counter.update a b).
Proof.
  intros Hk. apply map_eq. intros i. unfold Counter.update.
  rewrite lookup_union_with, !lookup_insert.
  destruct (decide (k = i)) as [->|Hne].
  - destruct (a !! i); simpl; f_equal; lia.
  - by rewrite lookup_union_with.
Qed.

Lemma total_update `{Countable K} (a b : gmap K Z) :
  Counter.total (Counter.update a b) = Counter.total a + Counter.total b.
Proof.
  induction b as [|k v b Hk IH] using map_ind.
  - rewrite update_empty, (total_map_sum ∅), map_sum_empty. lia.
  - rewrite update_insert_fresh by done.
    rewrite !total_map_sum, !map_sum_insert, <-!total_map_sum, IH.
    unfold Counter.update. rewrite lookup_union_with, Hk.
    destruct (a !! k); simpl; unfold id; lia.
Qed.

Lemma positive_update_any `{Countable K} (a b : gmap K Z) :
  map_Forall (λ _ n, 0 < n) a → map_Forall (λ _ n, 0 < n) b →
  map_Forall (λ _ n, 0 < n) (Counter.update a b).
Proof.
  intros Ha Hb i n. unfold Counter.update. rewrite lookup_union_with.
  destruct (a !! i) as [x|] eqn:Hx, (b !! i) as [y|] eqn:Hy; simpl; intros [= <-].
  - apply Ha in Hx. apply Hb in Hy. simpl in *. lia.
  - by apply Ha in Hx.
  - by apply Hb in Hy.
Qed.

(** ** The histogram of response times *)

Lemma recalculate_errors `{MathSqrt} (k : KPISet.t) :
  KPISet.errors (KPISet.recalculate k).1 = KPISet.errors k.
Proof.
  unfold KPISet.recalculate. by destruct (KPISet.perc_and_stdev _ _ _) as [[??]| |].
Qed.

(** X7. In every KPISet built from an empty one by [add_sample], [merge_kpis],
    [recalculate] and [__deepcopy__], the counts of the response-time
    histogram add up to the sample count and each of them is positive. *)
Theorem histogram_counts_samples `{MathSqrt} (k : KPISet.t) :
  built k →
  Counter.total (KPISet.rt k) = KPISet.throughput k ∧ positive_counts (KPISet.rt k).
Proof.
  induction 1 as [levels|k s _ [IHt IHp]|k _ [IHt IHp]|k _ [IHt IHp]
                  |k src sid _ [IHt IHp] _ [IHt' IHp']|k src sid _ _ _ [IHt' IHp']].
  - split; [rewrite total_map_sum; apply map_sum_empty|]. intros v n. simpl. by rewrite lookup_empty.
  - simpl. rewrite total_incr, IHt. split; [done|]. by apply positive_incr.
  - destruct (recalculate_keeps k) as (-> & _ & _ & _ & -> & _). done.
  - done.
  - destruct (recalculate_keeps src) as (Ht & _ & _ & _ & Hrt & _).
    unfold KPISet.merge_kpis. destruct (KPISet.recalculate src) as [src' r].
    simpl in Ht, Hrt. destruct r; simpl; try done.
    rewrite total_update, Hrt, Ht, IHt, IHt'. split; [done|].
    by apply positive_update.
  - destruct (merge_kpis_counts k src sid) as [_ ->].
    destruct (recalculate_keeps src) as (-> & _ & _ & _ & -> & _). done.
Qed.

Lemma histogram_counts_samples_witness :
  built (H := approx_sqrt) four_samples
  ∧ Counter.total (KPISet.rt four_samples) = KPISet.throughput four_samples
  ∧ positive_counts (KPISet.rt four_samples).
Proof.
  split; [apply four_samples_built|].
  exact (histogram_counts_samples (H := approx_sqrt) four_samples four_samples_built).
Defined.

(** ** Error records *)

Lemma count_of_cons m item l :
  count_of m (item :: l)
  = (if decide (KPISet.err_msg item = m) then KPISet.err_cnt item else 0) + count_of m l.
Proof.
  unfold count_of, error_total. rewrite filter_cons.
  destruct (decide (KPISet.err_msg item = m)); [done|]. lia.
Qed.

Lemma count_of_app m l1 l2 : count_of m (l1 ++ l2) = count_of m l1 + count_of m l2.
Proof.
  induction l1 as [|item l1 IH]; simpl.
  - unfold count_of at 2, error_total. simpl. unfold Zsum. simpl. lia.
  - rewrite !count_of_cons, IH. lia.
Qed.

Lemma count_of_inc_list m v l :
  count_of m (KPISet.inc_list l (KPISet.err_msg v) v)
  = count_of m l + (if decide (KPISet.err_msg v = m) then KPISet.err_cnt v else 0).
Proof.
  induction l as [|item l IH]; simpl.
  - rewrite count_of_cons. unfold count_of, error_total, Zsum. simpl. lia.
  - destruct (decide (KPISet.err_msg item = KPISet.err_msg v)) as [Heq|Hne].
    + rewrite !count_of_cons. simpl. rewrite <-Heq.
      repeat case_decide; try lia; done.
    + rewrite !count_of_cons, IH. lia.
Qed.

Lemma error_total_inc_list sel v l :
  error_total (KPISet.inc_list l sel v) = error_total l + KPISet.err_cnt v.
Proof.
  unfold error_total, Zsum. induction l as [|item l IH]; [simpl; lia|].
  cbn [KPISet.inc_list].
  destruct (decide (KPISet.err_msg item = sel)); rewrite !fmap_cons;
    cbn [foldr KPISet.err_cnt]; lia.
Qed.

Lemma inc_list_messages v l x :
  x ∈ KPISet.err_msg <$> KPISet.inc_list l (KPISet.err_msg v) v →
  x ∈ KPISet.err_msg <$> l ∨ x = KPISet.err_msg v.
Proof.
  induction l as [|item l IH]; simpl.
  - intros ->%list_elem_of_singleton. by right.
  - destruct (decide (KPISet.err_msg item = KPISet.err_msg v)); simpl.
    + by left.
    + intros [->|[Hin| ->]%IH]%list.elem_of_cons.
      * left. apply list_elem_of_here.
      * left. by apply list_elem_of_further.
      * by right.
Qed.

Lemma inc_list_NoDup v l :
  NoDup (KPISet.err_msg <$> l) →
  NoDup (KPISet.err_msg <$> KPISet.inc_list l (KPISet.err_msg v) v).
Proof.
  induction l as [|item l IH]; simpl.
  - intros _. apply list.NoDup_cons. split; [apply not_elem_of_nil|constructor].
  - intros [Hnot Hl]%list.NoDup_cons.
    destruct (decide (KPISet.err_msg item = KPISet.err_msg v)); simpl.
    + by apply list.NoDup_cons.
    + apply list.NoDup_cons. split; [|by apply IH].
      intros [Hin|Heq]%inc_list_messages; done.
Qed.

Lemma add_samples_errors m samples : ∀ k,
  let k' := foldl KPISet.add_sample k samples in
  count_of m (KPISet.errors k')
  = count_of m (KPISet.errors k) + Z.of_nat (length (failed_with m samples))
  ∧ (NoDup (KPISet.err_msg <$> KPISet.errors k) → NoDup (KPISet.err_msg <$> KPISet.errors k'))
  ∧ error_total (KPISet.errors k') - KPISet.fail k'
    = error_total (KPISet.errors k) - KPISet.fail k.
Proof.
  induction samples as [|s samples IH]; intros k; simpl.
  - split_and!; [unfold failed_with; simpl; lia|done|done].
  - destruct (IH (KPISet.add_sample k s)) as (IHc & IHn & IHt).
    rewrite IHc, IHt. unfold failed_with. rewrite filter_cons. simpl.
    destruct (KPISet.s_error s) as [error|] eqn:Herr.
    + pose (v := KPISet.error_item_skel error (KPISet.s_r_code s) 1 KPISet.ERRTYPE_ERROR ∅).
      change error with (KPISet.err_msg v) at 1 3 5.
      fold v. rewrite count_of_inc_list, error_total_inc_list. simpl.
      split_and!.
      * destruct (decide (Some error = Some m)) as [[= ->]|Hne].
        -- rewrite decide_True by done. simpl. lia.
        -- rewrite decide_False by congruence. lia.
      * intros Hk. apply IHn. simpl. rewrite Herr.
        change error with (KPISet.err_msg v). by apply inc_list_NoDup.
      * lia.
    + rewrite decide_False by done.
      split_and!; [lia| |done].
      intros Hk. apply IHn. simpl. by rewrite Herr.
Qed.

(** X8. On a KPISet filled by [add_sample] alone, the error records account for
    the failed samples: for every message the counts of the records that
    carry it add up to the number of samples that failed with it, no two
    records carry the same message, and all counts together are the
    failure count. *)
Theorem error_records_account_for_failures (levels : list Qc) (samples : list KPISet.sample) :
  let k := from_samples levels samples in
  (∀ m, count_of m (KPISet.errors k) = Z.of_nat (length (failed_with m samples)))
  ∧ NoDup (KPISet.err_msg <$> KPISet.errors k)
  ∧ error_total (KPISet.errors k) = KPISet.fail k.
Proof.
  unfold from_samples. split_and!.
  - intros m. destruct (add_samples_errors m samples (KPISet.init levels)) as (-> & _ & _).
    unfold count_of, error_total, Zsum. simpl. lia.
  - destruct (add_samples_errors "" samples (KPISet.init levels)) as (_ & Hn & _).
    apply Hn. simpl. constructor.
  - destruct (add_samples_errors "" samples (KPISet.init levels)) as (_ & _ & Ht).
    unfold error_total at 2 in Ht. unfold Zsum in Ht. simpl in Ht. lia.
Qed.

Lemma merge_errors_fold m src_errors : ∀ acc,
  let acc' := foldl (λ acc src_item, KPISet.inc_list acc (KPISet.err_msg src_item) src_item)
                acc src_errors in
  count_of m acc' = count_of m acc + count_of m src_errors
  ∧ (NoDup (KPISet.err_msg <$> acc) → NoDup (KPISet.err_msg <$> acc')).
Proof.
  induction src_errors as [|item l IH]; intros acc; simpl.
  - split; [|done]. unfold count_of at 3, error_total, Zsum. simpl. lia.
  - destruct (IH (KPISet.inc_list acc (KPISet.err_msg item) item)) as [IHc IHn].
    rewrite IHc, count_of_inc_list, count_of_cons. split; [lia|].
    intros Hacc. by apply IHn, inc_list_NoDup.
Qed.

(** X9. [merge_kpis] adds the error records of the source to those of the
    destination message by message: after the merge, for every message the
    destination counts what it counted before plus what the source counts,
    and it still has one record per message if it had so before. *)
Theorem merge_adds_error_counts `{MathSqrt} (dest src : KPISet.t) (sid : option Z) :
  wf_kpiset src →
  ∃ dest' src',
    KPISet.merge_kpis dest src sid = ((dest', src'), Ok ())
    ∧ (∀ m, count_of m (KPISet.errors dest')
            = count_of m (KPISet.errors dest) + count_of m (KPISet.errors src))
    ∧ (NoDup (KPISet.err_msg <$> KPISet.errors dest) →
       NoDup (KPISet.err_msg <$> KPISet.errors dest'))
    ∧ KPISet.fail dest' = KPISet.fail dest + KPISet.fail src.
Proof.
  intros Hwf.
  destruct (recalculate_ok src Hwf) as (src' & percs & Hrec & _ & _ & _ & _ & _ & Hf & _).
  pose proof (recalculate_errors src) as Herr. rewrite Hrec in Herr. simpl in Herr.
  unfold KPISet.merge_kpis. rewrite Hrec. eexists _, _. split; [done|]. simpl.
  rewrite Herr, Hf.
  pose proof (λ m, merge_errors_fold m (KPISet.errors src) (KPISet.errors dest)) as Hfold.
  simpl in Hfold. split_and!; [intros m; apply Hfold|apply (Hfold ""%string)|done].
Qed.

Lemma merge_adds_error_counts_witness :
  ∃ dest' src',
    KPISet.merge_kpis (H := approx_sqrt)
      (from_samples [Qc_of_Z 50] [sample_of 1 (Some "boom"%string)])
      three_samples None
    = ((dest', src'), Ok ())
    ∧ count_of "boom" (KPISet.errors dest') = 2.
Proof.
  destruct (merge_adds_error_counts (H := approx_sqrt)
              (from_samples [Qc_of_Z 50] [sample_of 1 (Some "boom"%string)])
              three_samples None three_samples_wf)
    as (dest' & src' & Hrun & Hcount & _).
  exists dest', src'. split; [done|]. by rewrite Hcount.
Defined.

(** * Further properties of the reader *)

(** ** Buffering *)

Lemma buffered_append {A} (b : gmap Z (list A)) t x :
  buffered (<[t := default [] (b !! t) ++ [x]]> b) = buffered b + 1.
Proof.
  unfold buffered. rewrite map_sum_insert.
  destruct (b !! t); simpl; rewrite ?length_app; simpl; lia.
Qed.

(** X17. A pull ends at the first result that is not a row.  At [None] the rows
    before it are buffered, a debug record is logged and the results after
    it are not looked at.  At a value that is neither [None] nor a tuple
    [ValueError] is raised; the rows before it stay buffered, and
    [_calculate_datapoints] yields no data point. *)
Theorem pull_ends_at_first_non_row `{MathSqrt}
    (on_yield : ResultsReader.t → DataPoint.t → (ResultsReader.t * DataPoint.t) * result unit)
    (final_pass : bool) (rows : list ResultsReader.raw)
    (rest : list ResultsReader.read_result) (self : ResultsReader.t) :
  let before := (ResultsReader.__process_readers (ResultsReader.Row <$> rows) self).1 in
  ResultsReader.__process_readers
    ((ResultsReader.Row <$> rows) ++ ResultsReader.NoData :: rest) self
  = (ResultsReader.emit (Debug "No data from reader" []) before, Ok ())
  ∧ ResultsReader.__process_readers
      ((ResultsReader.Row <$> rows) ++ ResultsReader.Unsupported :: rest) self
    = (before, Raise (ValueError "Unsupported results from reader"))
  ∧ ResultsReader._calculate_datapoints on_yield final_pass
      ((ResultsReader.Row <$> rows) ++ ResultsReader.Unsupported :: rest) self
    = ((before, []), Raise (ValueError "Unsupported results from reader")).
Proof.
  assert (∀ self,
    ResultsReader.__process_readers
      ((ResultsReader.Row <$> rows) ++ ResultsReader.NoData :: rest) self
    = (ResultsReader.emit (Debug "No data from reader" [])
         (ResultsReader.__process_readers (ResultsReader.Row <$> rows) self).1, Ok ())
    ∧ ResultsReader.__process_readers
        ((ResultsReader.Row <$> rows) ++ ResultsReader.Unsupported :: rest) self
      = ((ResultsReader.__process_readers (ResultsReader.Row <$> rows) self).1,
         Raise (ValueError "Unsupported results from reader"))) as Hboth.
  { induction rows as [|r rows IH]; intros self'; [done|].
    rewrite !fmap_cons. cbn [app ResultsReader.__process_readers].
    destruct (bool_decide (ResultsReader.label r ∈ _)); apply IH. }
  destruct (Hboth self) as [Hnone Hbad]. simpl. split_and!; [done..|].
  unfold ResultsReader._calculate_datapoints. by rewrite Hbad.
Qed.

Lemma process_rows_step (r : ResultsReader.raw) rows (self : ResultsReader.t) :
  ResultsReader.label r ∉ ResultsReader.ignored_labels self →
  ∃ self',
    ResultsReader.__process_readers (ResultsReader.Row <$> r :: rows) self
    = ResultsReader.__process_readers (ResultsReader.Row <$> rows) self'
    ∧ ResultsReader.ignored_labels self' = ResultsReader.ignored_labels self
    ∧ ResultsReader.min_timestamp self' = ResultsReader.min_timestamp self
    ∧ ResultsReader.buffer self'
      = (let t := if bool_decide (ResultsReader.t_stamp r < ResultsReader.min_timestamp self)
                  then ResultsReader.min_timestamp self else ResultsReader.t_stamp r in
         <[t := default [] (ResultsReader.buffer self !! t)
                ++ [(ResultsReader.label r, ResultsReader.fields r)]]>
           (ResultsReader.buffer self))
    ∧ ResultsReader.log self'
      = (if bool_decide (ResultsReader.t_stamp r < ResultsReader.min_timestamp self)
         then ResultsReader.log self
              ++ [Warning "Putting sample %s into %s"
                    [ResultsReader.t_stamp r; ResultsReader.min_timestamp self]]
         else ResultsReader.log self).
Proof.
  intros Hlabel. rewrite fmap_cons. cbn [ResultsReader.__process_readers].
  rewrite bool_decide_false by done.
  eexists. split; [reflexivity|].
  by destruct (bool_decide (ResultsReader.t_stamp r < _)).
Qed.

(** X18. A pull of rows always returns, and it buffers every row whose label is
    not ignored and no other: the number of buffered samples grows by the
    number of accepted rows.  One warning is logged for every accepted row
    that is below the watermark, nothing is stored below the watermark, and
    the watermark itself is not moved. *)
Theorem every_accepted_row_is_buffered (rows : list ResultsReader.raw) (self : ResultsReader.t) :
  let run := ResultsReader.__process_readers (ResultsReader.Row <$> rows) self in
  let rows' := accepted (ResultsReader.ignored_labels self) rows in
  run.2 = Ok ()
  ∧ buffered (ResultsReader.buffer run.1)
    = buffered (ResultsReader.buffer self) + Z.of_nat (length rows')
  ∧ length (warnings (ResultsReader.log run.1))
    = (length (warnings (ResultsReader.log self))
       + length (late (ResultsReader.min_timestamp self) rows'))%nat
  ∧ (∀ t, t < ResultsReader.min_timestamp self →
          ResultsReader.buffer run.1 !! t = ResultsReader.buffer self !! t)
  ∧ ResultsReader.min_timestamp run.1 = ResultsReader.min_timestamp self.
Proof.
  revert self. induction rows as [|r rows IH]; intros self.
  { simpl. split_and!; try done; unfold accepted, late; simpl; lia. }
  unfold accepted, late in *. rewrite filter_cons.
  destruct (decide (ResultsReader.label r ∉ ResultsReader.ignored_labels self))
    as [Hlabel|Hlabel].
  - destruct (process_rows_step r rows self Hlabel) as (self' & -> & Hign & Hmin & Hbuf & Hlog).
    destruct (IH self') as (IHr & IHb & IHw & IHt & IHm).
    rewrite Hign, Hmin in *. rewrite filter_cons.
    split_and!; [done| | | |done].
    + rewrite IHb, Hbuf. cbn zeta. rewrite buffered_append. simpl. lia.
    + rewrite IHw, Hlog. unfold warnings.
      destruct (decide (ResultsReader.t_stamp r < ResultsReader.min_timestamp self)) as [Hl|Hl].
      * rewrite bool_decide_true by done. rewrite list.filter_app, length_app. simpl. lia.
      * rewrite bool_decide_false by done. lia.
    + intros t Ht. rewrite IHt by done. rewrite Hbuf. cbn zeta.
      apply lookup_insert_ne. case_bool_decide; lia.
  - apply dec_stable in Hlabel.
    rewrite fmap_cons. cbn [ResultsReader.__process_readers].
    rewrite bool_decide_true by done. apply IH.
Qed.

(** ** Order of emission *)

Lemma process_readers_keys_above results : ∀ self,
  keys_above self → keys_above (ResultsReader.__process_readers results self).1.
Proof.
  induction results as [|[|r|] results IH]; intros self Hself; try done.
  cbn [ResultsReader.__process_readers].
  destruct (bool_decide (ResultsReader.label r ∈ _)); [by apply IH|].
  apply IH. intros t. unfold keys_above in Hself.
  destruct (bool_decide (ResultsReader.t_stamp r < _)) eqn:Hlate; simpl;
    rewrite lookup_insert.
  - destruct (decide (ResultsReader.min_timestamp self = t)); [intros _; lia|apply Hself].
  - apply bool_decide_eq_false in Hlate.
    destruct (decide (ResultsReader.t_stamp r = t)); [intros _; lia|apply Hself].
Qed.

Lemma eligible_prefix final_pass len l : ∃ rest, l = eligible final_pass len l ++ rest.
Proof.
  induction l as [|t l [rest IH]]; [by exists []|]. cbn [eligible].
  destruct (final_pass || bool_decide _).
  - exists rest. simpl. by rewrite <-IH.
  - by exists (t :: l).
Qed.

Lemma sorted_last_bound (l : list Z) x :
  StronglySorted Z.lt l → x ∈ l → ∃ m, list.last l = Some m ∧ m ∈ l ∧ x ≤ m.
Proof.
  intros Hs Hx. destruct (list.last l) as [m|] eqn:Hl.
  - exists m. split; [done|].
    apply last_Some in Hl as [l' ->]. split; [apply list.elem_of_app; right; by left|].
    apply list.elem_of_app in Hx as [Hx|Hx%list_elem_of_singleton]; [|lia].
    apply Z.lt_le_incl. eapply StronglySorted_app_1_elem_of; [done..|by left].
  - apply last_None in Hl. subst. by apply elem_of_nil in Hx.
Qed.

(** X19. A pull of the reader emits its data points in ascending order of
    timestamp, none below the watermark it started with and all below the
    watermark it ends with; the watermark never moves back and afterwards no
    buffered timestamp is below it.  The timestamps that successive pulls
    emit are therefore strictly increasing. *)
Theorem pulls_emit_in_order `{MathSqrt} (final_pass : bool)
    (results : list ResultsReader.read_result) (self self1 : ResultsReader.t) :
  Forall valid_level (ResultsReader.track_percentiles self) →
  keys_above self →
  ResultsReader.__process_readers results self = (self1, Ok ()) →
  ∃ self2 out,
    ResultsReader._calculate_datapoints ResultsReader.collect final_pass results self
    = ((self2, out), Ok ())
    ∧ StronglySorted Z.lt (DataPoint.ts <$> out)
    ∧ Forall (λ t, ResultsReader.min_timestamp self ≤ t < ResultsReader.min_timestamp self2)
        (DataPoint.ts <$> out)
    ∧ ResultsReader.min_timestamp self ≤ ResultsReader.min_timestamp self2
    ∧ keys_above self2.
Proof.
  intros Hlv Hkeys Hproc.
  pose proof (process_readers_keeps results self) as (Htrack & _ & Hmin & _).
  pose proof (process_readers_keys_above results self Hkeys) as Hkeys1.
  rewrite Hproc in Htrack, Hmin, Hkeys1. simpl in Htrack, Hmin, Hkeys1.
  unfold ResultsReader._calculate_datapoints. rewrite Hproc.
  set (self1' := ResultsReader.emit _ self1).
  case_bool_decide as Hemp.
  { eexists _, _. split; [done|]. simpl. rewrite Hmin.
    split_and!; [constructor|constructor|lia|].
    intros t. unfold self1'. simpl. apply Hkeys1. }
  destruct (reader_loop_collect final_pass (ResultsReader.sorted_keys (ResultsReader.buffer self1'))
              self1' []) as (self2 & out & Hrun & Hout & Hbuf & Hmin2 & _).
  { unfold self1'. simpl. by rewrite Htrack. }
  { apply sorted_keys_NoDup. }
  { intros t. apply sorted_keys_elem. }
  rewrite Hrun. exists self2, out. split; [done|].
  pose proof (sorted_keys_strict (ResultsReader.buffer self1')) as Hsorted.
  destruct (eligible_prefix final_pass (ResultsReader.buffer_len self1')
              (ResultsReader.sorted_keys (ResultsReader.buffer self1'))) as [rest Hsplit].
  rewrite <-Hout in Hsplit.
  assert (StronglySorted Z.lt (DataPoint.ts <$> out)) as Hsout.
  { rewrite Hout. by apply eligible_sorted. }
  assert (∀ t, t ∈ DataPoint.ts <$> out → ResultsReader.min_timestamp self ≤ t) as Hlow.
  { intros t Ht. rewrite <-Hmin. apply Hkeys1.
    apply (sorted_keys_elem (ResultsReader.buffer self1')).
    rewrite Hsplit. apply list.elem_of_app. by left. }
  split_and!; [done| | |].
  - apply list.Forall_forall. intros t Ht. split; [by apply Hlow|].
    destruct (sorted_last_bound _ t Hsout Ht) as (m & Hm & _ & Hle).
    rewrite Hmin2, Hm. simpl. lia.
  - rewrite Hmin2. destruct (list.last (DataPoint.ts <$> out)) as [m|] eqn:Hm; simpl.
    + apply last_Some in Hm as [l' Hm].
      assert (m ∈ DataPoint.ts <$> out) as Hin.
      { rewrite Hm. apply list.elem_of_app. right. by left. }
      apply Hlow in Hin. lia.
    + unfold self1'. simpl. lia.
  - intros t Ht. rewrite Hbuf in Ht.
    case_bool_decide as Hin; [by destruct Ht|].
    assert (t ∈ rest) as Hrest.
    { apply (sorted_keys_elem (ResultsReader.buffer self1')) in Ht.
      rewrite Hsplit in Ht. by apply list.elem_of_app in Ht as [?|?]. }
    rewrite Hmin2. destruct (list.last (DataPoint.ts <$> out)) as [m|] eqn:Hm; simpl.
    + apply last_Some in Hm as [l' Hm].
      assert (m < t); [|lia].
      rewrite Hsplit in Hsorted.
      eapply StronglySorted_app_1_elem_of; [done| |done].
      rewrite Hm. apply list.elem_of_app. right. by left.
    + unfold self1'. simpl. by apply Hkeys1.
Qed.

Lemma pulls_emit_in_order_witness :
  ∃ self2 out,
    ResultsReader._calculate_datapoints (H := approx_sqrt) ResultsReader.collect false
      (rows_at [10; 10; 11; 13]) fresh_reader
    = ((self2, out), Ok ())
    ∧ StronglySorted Z.lt (DataPoint.ts <$> out)
    ∧ Forall (λ t, 0 ≤ t < ResultsReader.min_timestamp self2) (DataPoint.ts <$> out)
    ∧ 0 ≤ ResultsReader.min_timestamp self2
    ∧ keys_above self2.
Proof.
  apply (pulls_emit_in_order (H := approx_sqrt) false (rows_at [10; 10; 11; 13]) fresh_reader
           (ResultsReader.__process_readers (rows_at [10; 10; 11; 13]) fresh_reader).1).
  - repeat constructor; by vm_compute.
  - intros t [x Hx]. unfold fresh_reader, ResultsReader.init in Hx. simpl in Hx.
    by rewrite lookup_empty in Hx.
  - reflexivity.
Defined.

(** ** Aggregation of a bucket *)

Lemma merge_overall_spec `{MathSqrt} sid items : ∀ overall current,
  NoDup items.*1 →
  Forall (λ kv : string * KPISet.t, wf_kpiset kv.2) items →
  ∃ overall' current',
    ResultsReader.merge_overall sid items overall current = ((overall', current'), Ok ())
    ∧ KPISet.throughput overall'
      = KPISet.throughput overall + Zsum (KPISet.throughput <$> items.*2)
    ∧ ∀ l, current' !! l
           = match (list_to_map items : gmap string KPISet.t) !! l with
             | Some v => Some (recalculated v)
             | None => current !! l
             end.
Proof.
  induction items as [|[label val] items IH]; intros overall current Hnd Hwf.
  { exists overall, current. split; [done|]. split; [unfold Zsum; simpl; lia|].
    intros l. simpl. by rewrite lookup_empty. }
  apply list.Forall_cons in Hwf as [Hval Hwf]. simpl in Hval.
  rewrite fmap_cons in Hnd. apply list.NoDup_cons in Hnd as [Hnotin Hnd]. simpl in Hnotin.
  cbn [ResultsReader.merge_overall].
  destruct (merged_spec overall val sid Hval) as [-> Ht].
  destruct (IH (merged overall val sid) (<[label := recalculated val]> current) Hnd Hwf)
    as (overall' & current' & -> & Ht' & Hcur).
  exists overall', current'. split; [done|]. split.
  { rewrite Ht', Ht, !fmap_cons. unfold Zsum. simpl. lia. }
  assert ((list_to_map items : gmap string KPISet.t) !! label = None) as Hnone.
  { by apply not_elem_of_list_to_map_1. }
  intros l. rewrite list_to_map_cons_lookup, Hcur.
  destruct (decide (label = l)) as [<-|Hne].
  - by rewrite Hnone, lookup_insert_eq.
  - by rewrite lookup_insert_ne.
Qed.

Lemma throughput_at_insert m label k l :
  throughput_at (<[label := k]> m) l
  = if decide (label = l) then KPISet.throughput k else throughput_at m l.
Proof. unfold throughput_at. rewrite lookup_insert. by destruct (decide (label = l)). Qed.

Lemma aggregate_spec `{MathSqrt} (self : ResultsReader.t) (timestamp : Z)
    (samples : list (string * KPISet.sample)) :
  Forall valid_level (ResultsReader.track_percentiles self) →
  ∃ datapoint,
    ResultsReader.__aggreagate_current self
      (ResultsReader.__get_new_datapoint self timestamp) samples
    = (datapoint, Ok ())
    ∧ DataPoint.ts datapoint = timestamp
    ∧ throughput_at (DataPoint.current datapoint) "" = Z.of_nat (length samples)
    ∧ (∀ l, l ≠ ""%string →
            throughput_at (DataPoint.current datapoint) l
            = Z.of_nat (length (counted_under self l samples)))
    ∧ wf_map (DataPoint.current datapoint).
Proof.
  intros Hlv. unfold ResultsReader.__aggreagate_current.
  cbn [ResultsReader.__get_new_datapoint DataPoint.current DataPoint.source_id
       DataPoint.cumulative DataPoint.perc_levels DataPoint.ts DataPoint.subresults].
  match goal with |- context [foldl ?f _ samples] => set (add := f) end.
  assert (∀ c s, add c s
            = <[bucket_label self s.1
                := KPISet.add_sample
                     (default (KPISet.init (ResultsReader.track_percentiles self))
                        (c !! bucket_label self s.1)) s.2]> c) as Hadd.
  { intros c s. unfold add. by rewrite BetterDict_get_insert, BetterDict_get_value. }
  assert (∀ l c, wf_map c →
            wf_map (foldl add c l)
            ∧ map_sum KPISet.throughput (foldl add c l)
              = map_sum KPISet.throughput c + Z.of_nat (length l)
            ∧ ∀ lb, throughput_at (foldl add c l) lb
                    = throughput_at c lb + Z.of_nat (length (counted_under self lb l)))
    as Hfold.
  { induction l as [|s l IH]; intros c Hc.
    { simpl. split_and!; [done|lia|]. intros lb. unfold counted_under. simpl. lia. }
    cbn [foldl]. destruct (IH (add c s)) as (IHw & IHs & IHl).
    { rewrite Hadd. apply wf_map_insert; [done|]. apply wf_add_sample. by apply wf_map_default. }
    split_and!; [done| |].
    - rewrite IHs, Hadd, map_sum_insert.
      destruct (c !! bucket_label self s.1); simpl; lia.
    - intros lb. rewrite IHl, Hadd, throughput_at_insert.
      unfold counted_under. rewrite filter_cons.
      destruct (decide (bucket_label self s.1 = lb)) as [<-|Hne].
      + unfold throughput_at. destruct (c !! bucket_label self s.1); simpl; lia.
      + lia. }
  destruct (Hfold samples ∅) as (Hwf & Hsum & Hlabel); [by apply map_Forall_empty|].
  set (current := foldl add ∅ samples) in *.
  destruct (merge_overall_spec (Some (ResultsReader.self_id self)) (map_to_list current)
              (KPISet.init (ResultsReader.track_percentiles self)) current)
    as (overall & current' & Hrun & Ht & Hcur).
  { apply NoDup_fst_map_to_list. }
  { by apply wf_map_items. }
  rewrite Hrun.
  eexists. split; [reflexivity|]. simpl. split_and!; [done| | |].
  - rewrite throughput_at_insert, decide_True by done.
    rewrite Ht. simpl. fold (map_sum KPISet.throughput current).
    rewrite Hsum, map_sum_empty. lia.
  - intros l Hl. rewrite throughput_at_insert, decide_False by done.
    rewrite <-(Z.add_0_l (Z.of_nat _)).
    change 0 with (throughput_at ∅ l) at 1. rewrite <-Hlabel.
    unfold throughput_at. rewrite Hcur, list_to_map_to_list.
    destruct (current !! l) as [k|] eqn:Hk; [|done]. simpl.
    apply recalculated_spec. by eapply Hwf.
  - apply wf_map_insert.
    + intros l k. rewrite Hcur, list_to_map_to_list.
      destruct (current !! l) as [k'|] eqn:Hk; [|done]. intros [= <-].
      apply wf_recalculated. by eapply Hwf.
    + assert (∀ items overall0 current0 overall1 current1,
                Forall (λ kv : string * KPISet.t, wf_kpiset kv.2) items →
                wf_kpiset overall0 →
                ResultsReader.merge_overall (Some (ResultsReader.self_id self)) items
                  overall0 current0 = ((overall1, current1), Ok ()) →
                wf_kpiset overall1) as Hoverall.
      { induction items as [|[lb val] items IH]; intros o0 c0 o1 c1 Hitems Ho0 Hm.
        - simpl in Hm. by simplify_eq.
        - apply list.Forall_cons in Hitems as [Hval Hitems]. simpl in Hval.
          cbn [ResultsReader.merge_overall] in Hm.
          destruct (merged_spec o0 val (Some (ResultsReader.self_id self)) Hval) as [Hms _].
          rewrite Hms in Hm. eapply IH; [done| |exact Hm]. by apply wf_merged. }
      eapply Hoverall; [by apply wf_map_items| |exact Hrun]. by apply wf_init.
Qed.

(** X20. [__aggreagate_current] counts every sample of the bucket once under
    its label and once under the overall label [""]: on the data point of a
    new bucket, the sample count of the overall label is the number of
    samples, and the sample count of any other label is the number of
    samples that are counted under it (an empty label counts as
    ["[empty]"], and labels are generalized when the reader is set to). *)
Theorem bucket_counts_every_sample `{MathSqrt} (self : ResultsReader.t) (timestamp : Z)
    (samples : list (string * KPISet.sample)) :
  Forall valid_level (ResultsReader.track_percentiles self) →
  ∃ datapoint,
    ResultsReader.__aggreagate_current self
      (ResultsReader.__get_new_datapoint self timestamp) samples
    = (datapoint, Ok ())
    ∧ DataPoint.ts datapoint = timestamp
    ∧ throughput_at (DataPoint.current datapoint) "" = Z.of_nat (length samples)
    ∧ ∀ l, l ≠ ""%string →
           throughput_at (DataPoint.current datapoint) l
           = Z.of_nat (length (counted_under self l samples)).
Proof.
  intros Hlv.
  destruct (aggregate_spec self timestamp samples Hlv) as (d & Hrun & Hts & Hall & Hlabel & _).
  by exists d.
Qed.

Lemma bucket_counts_every_sample_witness :
  ∃ datapoint,
    ResultsReader.__aggreagate_current (H := approx_sqrt) fresh_reader
      (ResultsReader.__get_new_datapoint fresh_reader 10)
      [("home"%string, sample_of 1 None); (""%string, sample_of 2 None)]
    = (datapoint, Ok ())
    ∧ DataPoint.ts datapoint = 10
    ∧ throughput_at (DataPoint.current datapoint) "" = 2
    ∧ throughput_at (DataPoint.current datapoint) "[empty]" = 1.
Proof.
  destruct (bucket_counts_every_sample (H := approx_sqrt) fresh_reader 10
              [("home"%string, sample_of 1 None); (""%string, sample_of 2 None)])
    as (datapoint & Hrun & Hts & Hall & Hlabel).
  { repeat constructor; by vm_compute. }
  exists datapoint. split_and!; [done..|].
  by rewrite Hlabel.
Defined.

(** * Further properties of the consolidator *)

(** ** Buffering *)

Lemma min_of_list (l : list Z) :
  match foldr (λ k acc, Some (from_option (Z.min k) k acc)) None l with
  | Some m => m ∈ l ∧ ∀ t, t ∈ l → m ≤ t
  | None => l = []
  end.
Proof.
  induction l as [|k l IH]; [done|]. simpl.
  destruct (foldr _ None l) as [m|]; simpl.
  - destruct IH as [Hin Hmin]. split.
    + destruct (Z.min_spec k m) as [[_ ->]|[_ ->]]; [by left|by right].
    + intros t [->|Ht%Hmin]%list.elem_of_cons; lia.
  - subst. split; [by left|]. by intros t ->%list_elem_of_singleton.
Qed.

Lemma min_key_spec {V} (b : gmap Z V) :
  match ConsolidatingAggregator.min_key b with
  | Some m => is_min_key b m
  | None => b = ∅
  end.
Proof.
  unfold ConsolidatingAggregator.min_key, is_min_key.
  pose proof (min_of_list (map_to_list b).*1) as Hmin.
  assert (∀ t, t ∈ (map_to_list b).*1 ↔ is_Some (b !! t)) as Hkeys.
  { intros t. rewrite list_elem_of_fmap. split.
    - intros [[t' v] [-> Hin%elem_of_map_to_list]]. by exists v.
    - intros [v Hv]. exists (t, v). split; [done|]. by apply elem_of_map_to_list. }
  destruct (foldr _ None _) as [m|].
  - destruct Hmin as [Hin Hle]. split; [by apply Hkeys|].
    intros t Ht. by apply Hle, Hkeys.
  - apply fmap_nil_inv in Hmin. by apply map_to_list_empty_iff.
Qed.

Lemma min_key_unique {V} (b : gmap Z V) m m' : is_min_key b m → is_min_key b m' → m = m'.
Proof. intros [Hm Hle] [Hm' Hle']. apply Hle in Hm'. apply Hle' in Hm. lia. Qed.

Lemma buffer_point_buffer (self : ConsolidatingAggregator.t) (data : DataPoint.t) :
  let self' := ConsolidatingAggregator.buffer_point self data in
  ∃ key data',
    ConsolidatingAggregator.buffer self'
    = <[key := default [] (ConsolidatingAggregator.buffer self !! key) ++ [data']]>
        (ConsolidatingAggregator.buffer self)
    ∧ DataPoint.ts data' = key
    ∧ DataPoint.current data' = DataPoint.current data
    ∧ DataPoint.cumulative data' = DataPoint.cumulative data
    ∧ (key = DataPoint.ts data ∧ data' = data
         ∧ ConsolidatingAggregator.log self' = ConsolidatingAggregator.log self
         ∧ (∀ m, is_min_key (ConsolidatingAggregator.buffer self) m → m ≤ DataPoint.ts data)
       ∨ is_min_key (ConsolidatingAggregator.buffer self) key
         ∧ DataPoint.ts data < key
         ∧ data' = ConsolidatingAggregator.set_ts key data
         ∧ ConsolidatingAggregator.log self'
           = ConsolidatingAggregator.log self
             ++ [Warning "Putting datapoint %s into %s" [DataPoint.ts data; key]])
    ∧ ConsolidatingAggregator.cumulative self' = ConsolidatingAggregator.cumulative self
    ∧ ConsolidatingAggregator.track_percentiles self'
      = ConsolidatingAggregator.track_percentiles self
    ∧ ConsolidatingAggregator.buffer_len self' = ConsolidatingAggregator.buffer_len self.
Proof.
  unfold ConsolidatingAggregator.buffer_point.
  pose proof (min_key_spec (ConsolidatingAggregator.buffer self)) as Hmin.
  case_bool_decide as Hne.
  - destruct (ConsolidatingAggregator.min_key _) as [mints|]; [|done].
    case_bool_decide as Hlate.
    + exists mints, (ConsolidatingAggregator.set_ts mints data). simpl.
      rewrite BetterDict_get_insert, BetterDict_get_value.
      split_and!; try done. right. by split_and!.
    + exists (DataPoint.ts data), data. simpl.
      rewrite BetterDict_get_insert, BetterDict_get_value.
      split_and!; try done. left. split_and!; try done.
      intros m Hm. rewrite (min_key_unique _ _ _ Hm Hmin). lia.
  - exists (DataPoint.ts data), data. simpl.
    rewrite BetterDict_get_insert, BetterDict_get_value.
    split_and!; try done. left. split_and!; try done.
    intros m [[x Hx] _]. rewrite Hne in Hx.
    by rewrite lookup_empty in Hx.
Qed.

Lemma buffer_point_keeps_min (self : ConsolidatingAggregator.t) (data : DataPoint.t) (m : Z) :
  is_min_key (ConsolidatingAggregator.buffer self) m →
  is_min_key (ConsolidatingAggregator.buffer (ConsolidatingAggregator.buffer_point self data)) m.
Proof.
  intros Hm.
  destruct (buffer_point_buffer self data)
    as (key & data' & Hbuf & _ & _ & _ & Hcase & _).
  simpl in Hbuf. rewrite Hbuf.
  destruct Hm as [Hin Hle]. split.
  - rewrite lookup_insert. by destruct (decide (key = m)).
  - intros t. rewrite lookup_insert. destruct (decide (key = t)) as [<-|_]; [|apply Hle].
    intros _. destruct Hcase as [(-> & _ & _ & Hmin)|(Hkey & _)].
    + by apply Hmin.
    + by rewrite (min_key_unique _ _ _ Hkey (conj Hin Hle)).
Qed.

(** X22. A data point that is older than the oldest buffered timestamp is
    buffered under that oldest timestamp, with its own timestamp rewritten
    to it, and a warning is logged; any other data point is buffered under
    its own timestamp, unchanged and without a warning.  Either way the
    oldest buffered timestamp stays the oldest. *)
Theorem late_point_is_restamped (self : ConsolidatingAggregator.t) (data : DataPoint.t) (m : Z) :
  is_min_key (ConsolidatingAggregator.buffer self) m →
  let self' := ConsolidatingAggregator.buffer_point self data in
  let b := ConsolidatingAggregator.buffer self in
  (DataPoint.ts data < m →
     ConsolidatingAggregator.buffer self'
     = <[m := default [] (b !! m) ++ [ConsolidatingAggregator.set_ts m data]]> b
     ∧ ConsolidatingAggregator.log self'
       = ConsolidatingAggregator.log self
         ++ [Warning "Putting datapoint %s into %s" [DataPoint.ts data; m]])
  ∧ (m ≤ DataPoint.ts data →
     ConsolidatingAggregator.buffer self'
     = <[DataPoint.ts data := default [] (b !! DataPoint.ts data) ++ [data]]> b
     ∧ ConsolidatingAggregator.log self' = ConsolidatingAggregator.log self)
  ∧ is_min_key (ConsolidatingAggregator.buffer self') m.
Proof.
  intros Hm. pose proof (buffer_point_keeps_min self data m Hm) as Hmin'.
  destruct (buffer_point_buffer self data)
    as (key & data' & Hbuf & _ & _ & _ & Hcase & _).
  simpl in *. rewrite Hbuf.
  destruct Hcase as [(-> & -> & Hlog & Hmin)|(Hkey & Hlate & -> & Hlog)].
  - split_and!; [|done|by rewrite <-Hbuf]. intros Hlt. specialize (Hmin m Hm). lia.
  - rewrite (min_key_unique _ _ _ Hkey Hm) in *. split_and!; [done| |by rewrite <-Hbuf].
    intros Hle. lia.
Qed.

Lemma late_point_is_restamped_witness :
  let self' :=
    ConsolidatingAggregator.buffer_point consolidator_with_two (point_of_source 3 4) in
  is_min_key (ConsolidatingAggregator.buffer consolidator_with_two) 5
  ∧ (length <$> ConsolidatingAggregator.buffer self' !! 5) = Some 3%nat
  ∧ ConsolidatingAggregator.buffer self' !! 4 = None
  ∧ is_min_key (ConsolidatingAggregator.buffer self') 5.
Proof.
  assert (is_min_key (ConsolidatingAggregator.buffer consolidator_with_two) 5) as Hmin.
  { pose proof (min_key_spec (ConsolidatingAggregator.buffer consolidator_with_two)) as Hspec.
    by vm_compute ConsolidatingAggregator.min_key in Hspec. }
  destruct (late_point_is_restamped consolidator_with_two (point_of_source 3 4) 5 Hmin)
    as (Hlate & _ & Hmin').
  destruct Hlate as [Hbuf _]; [simpl; lia|].
  simpl. split_and!; [done| | |done].
  - rewrite Hbuf, lookup_insert_eq. simpl. rewrite length_app. by vm_compute.
  - rewrite Hbuf, lookup_insert_ne by done. by vm_compute.
Defined.

Lemma buffer_point_inv (self : ConsolidatingAggregator.t) (data : DataPoint.t) :
  let self' := ConsolidatingAggregator.buffer_point self data in
  buffered (ConsolidatingAggregator.buffer self')
  = buffered (ConsolidatingAggregator.buffer self) + 1
  ∧ (keyed (ConsolidatingAggregator.buffer self) → keyed (ConsolidatingAggregator.buffer self'))
  ∧ (wf_points (ConsolidatingAggregator.buffer self) → wf_point data →
     wf_points (ConsolidatingAggregator.buffer self'))
  ∧ (∀ m, is_min_key (ConsolidatingAggregator.buffer self) m →
          is_min_key (ConsolidatingAggregator.buffer self') m)
  ∧ ConsolidatingAggregator.cumulative self' = ConsolidatingAggregator.cumulative self
  ∧ ConsolidatingAggregator.track_percentiles self'
    = ConsolidatingAggregator.track_percentiles self
  ∧ ConsolidatingAggregator.buffer_len self' = ConsolidatingAggregator.buffer_len self.
Proof.
  destruct (buffer_point_buffer self data)
    as (key & data' & Hbuf & Hts & Hcur & Hcum & Hcase & Hc & Ht & Hl).
  simpl. rewrite Hbuf. split_and!; try done.
  - apply buffered_append.
  - intros Hkeyed t points. rewrite lookup_insert.
    destruct (decide (key = t)) as [<-|_]; [|apply Hkeyed].
    intros [= <-]. apply Forall_app. split; [|by repeat constructor].
    destruct (ConsolidatingAggregator.buffer self !! key) as [pts|] eqn:Hpts; simpl; [|done].
    by eapply Hkeyed.
  - intros Hwf Hdata t points. rewrite lookup_insert.
    destruct (decide (key = t)) as [<-|_]; [|apply Hwf].
    intros [= <-]. apply Forall_app. split.
    + destruct (ConsolidatingAggregator.buffer self !! key) as [pts|] eqn:Hpts; simpl; [|done].
      by eapply Hwf.
    + apply list.Forall_cons. split; [|constructor].
      destruct Hdata as [? ?]. split; by rewrite ?Hcur, ?Hcum.
  - intros m Hm. rewrite <-Hbuf. by apply buffer_point_keeps_min.
Qed.

Lemma process_underlings_inv points : ∀ self : ConsolidatingAggregator.t,
  let self' := foldl ConsolidatingAggregator.buffer_point self points in
  buffered (ConsolidatingAggregator.buffer self')
  = buffered (ConsolidatingAggregator.buffer self) + Z.of_nat (length points)
  ∧ (keyed (ConsolidatingAggregator.buffer self) → keyed (ConsolidatingAggregator.buffer self'))
  ∧ (wf_points (ConsolidatingAggregator.buffer self) → Forall wf_point points →
     wf_points (ConsolidatingAggregator.buffer self'))
  ∧ (∀ m, is_min_key (ConsolidatingAggregator.buffer self) m →
          is_min_key (ConsolidatingAggregator.buffer self') m)
  ∧ ConsolidatingAggregator.cumulative self' = ConsolidatingAggregator.cumulative self
  ∧ ConsolidatingAggregator.track_percentiles self'
    = ConsolidatingAggregator.track_percentiles self
  ∧ ConsolidatingAggregator.buffer_len self' = ConsolidatingAggregator.buffer_len self.
Proof.
  induction points as [|d points IH]; intros self.
  { simpl. split_and!; try done. lia. }
  destruct (buffer_point_inv self d) as (Hb & Hk & Hw & Hm & Hc & Ht & Hl).
  destruct (IH (ConsolidatingAggregator.buffer_point self d))
    as (IHb & IHk & IHw & IHm & IHc & IHt & IHl).
  simpl in *. rewrite IHb, Hb, IHc, IHt, IHl. split_and!; try done.
  - lia.
  - intros Hkeyed. by apply IHk, Hk.
  - intros Hwf [Hd Hpoints]%list.Forall_cons. apply IHw; [|done]. by apply Hw.
  - intros m Hmin. by apply IHm, Hm.
Qed.

(** X23. [_process_underlings] buffers every data point that the underlings
    return and drops none.  It keeps each buffered data point under its own
    timestamp, rewritten if need be, so that every point of a buffered list
    carries the key of the list; and it never lowers the oldest buffered
    timestamp once there is one. *)
Theorem consolidator_buffers_every_point (pulled : list (list DataPoint.t))
    (self : ConsolidatingAggregator.t) :
  let self' := ConsolidatingAggregator._process_underlings pulled self in
  buffered (ConsolidatingAggregator.buffer self')
  = buffered (ConsolidatingAggregator.buffer self) + Z.of_nat (length (concat pulled))
  ∧ (keyed (ConsolidatingAggregator.buffer self) → keyed (ConsolidatingAggregator.buffer self'))
  ∧ (∀ m, is_min_key (ConsolidatingAggregator.buffer self) m →
          is_min_key (ConsolidatingAggregator.buffer self') m)
  ∧ ConsolidatingAggregator.cumulative self' = ConsolidatingAggregator.cumulative self.
Proof.
  destruct (process_underlings_inv (concat pulled) self) as (Hb & Hk & _ & Hm & Hc & _).
  by split_and!.
Qed.

(** ** A pull of the consolidator *)

Lemma keyed_delete (b : gmap Z (list DataPoint.t)) t : keyed b → keyed (delete t b).
Proof. intros Hk t' pts [_ Hpts]%lookup_delete_Some. by eapply Hk. Qed.

Lemma wf_points_delete (b : gmap Z (list DataPoint.t)) t : wf_points b → wf_points (delete t b).
Proof. intros Hw t' pts [_ Hpts]%lookup_delete_Some. by eapply Hw. Qed.

Lemma consolidator_round `{MathSqrt} (self : ConsolidatingAggregator.t)
    (final_pass : bool) (T : Z) (rest : list Z) (out : list DataPoint.t)
    (pts : list DataPoint.t) :
  Forall valid_level (ConsolidatingAggregator.track_percentiles self) →
  wf_map (ConsolidatingAggregator.cumulative self) →
  ConsolidatingAggregator.buffer self !! T = Some pts →
  Forall (λ d, DataPoint.ts d = T) pts → Forall wf_point pts →
  final_pass
  || bool_decide (T + ConsolidatingAggregator.buffer_len self ≤ List.last (T :: rest) T) = true →
  ∃ self' point,
    ConsolidatingAggregator.calc_loop ConsolidatingAggregator.on_datapoint
      final_pass (T :: rest) self out
    = ConsolidatingAggregator.calc_loop ConsolidatingAggregator.on_datapoint
        final_pass rest self' (out ++ [point])
    ∧ DataPoint.ts point = T
    ∧ (∀ l, throughput_at (DataPoint.current point) l
            = Zsum ((λ d, throughput_at (DataPoint.current d) l) <$> pts))
    ∧ (∀ l, throughput_at (ConsolidatingAggregator.cumulative self') l
            = throughput_at (ConsolidatingAggregator.cumulative self) l
              + throughput_at (DataPoint.current point) l)
    ∧ wf_map (ConsolidatingAggregator.cumulative self')
    ∧ ConsolidatingAggregator.buffer self' = delete T (ConsolidatingAggregator.buffer self)
    ∧ ConsolidatingAggregator.buffer_len self' = ConsolidatingAggregator.buffer_len self
    ∧ ConsolidatingAggregator.track_percentiles self'
      = ConsolidatingAggregator.track_percentiles self.
Proof.
  intros Hlv Hcum Hbuf Hts Hwf Hguard.
  cbn [ConsolidatingAggregator.calc_loop]. rewrite Hguard.
  cbn [ConsolidatingAggregator.buffer ConsolidatingAggregator.emit]. rewrite Hbuf.
  set (self2 := ConsolidatingAggregator.set_buffer _ _).
  set (point0 := DataPoint.init T _).
  assert (wf_datapoint point0) as Hwf0.
  { split_and!; simpl; [apply map_Forall_empty..|done]. }
  destruct (merge_points_ok pts self2 point0 Hwf0)
    as (self3 & point2 & -> & (Hwc2 & Hwm2 & Hwl2) & Hts2 & Hthr & Hcum3 & Hbuf3 & Hbl3 & Htp3).
  { apply list.Forall_forall. intros d Hd.
    pose proof (proj1 (list.Forall_forall _ _) Hts d Hd) as Htd.
    pose proof (proj1 (list.Forall_forall _ _) Hwf d Hd) as [Hcd Hmd].
    by split_and!. }
  rewrite datapoint_recalculate_ok by done.
  unfold ConsolidatingAggregator.on_datapoint.
  match goal with |- context [ResultsProvider.on_datapoint ?t ?c ?d] =>
    destruct (on_datapoint_ok t c d) as (cumulative' & -> & Hl & Hwf') end.
  { by rewrite Htp3. }
  { by rewrite Hcum3. }
  { simpl. by apply wf_map_recalculated. }
  simpl in Hl.
  eexists _, _. split; [reflexivity|]. simpl.
  assert (∀ l, throughput_at (recalculated <$> (recalculated <$> (recalculated <$>
                 DataPoint.current point2))) l
               = throughput_at (DataPoint.current point2) l) as Hsame.
  { intros l. rewrite !throughput_at_recalculated; [done|done|..];
      repeat apply wf_map_recalculated; done. }
  split_and!.
  - done.
  - intros l. rewrite Hsame, Hthr. unfold throughput_at at 1. simpl.
    rewrite lookup_empty. simpl. lia.
  - intros l. rewrite Hsame.
    rewrite (throughput_at_merged _ _ _ _ _ l (wf_map_recalculated _ Hwc2) Hl).
    rewrite throughput_at_recalculated by done. by rewrite Hcum3.
  - done.
  - by rewrite Hbuf3.
  - by rewrite Hbl3.
  - by rewrite Htp3.
Qed.

Lemma eligible_subset final_pass len l t : t ∈ eligible final_pass len l → t ∈ l.
Proof.
  intros Ht. destruct (eligible_prefix final_pass len l) as [rest Hl].
  rewrite Hl. apply list.elem_of_app. by left.
Qed.

Lemma consolidator_loop `{MathSqrt} final_pass : ∀ timestamps self out,
  Forall valid_level (ConsolidatingAggregator.track_percentiles self) →
  wf_map (ConsolidatingAggregator.cumulative self) →
  keyed (ConsolidatingAggregator.buffer self) →
  wf_points (ConsolidatingAggregator.buffer self) →
  NoDup timestamps →
  (∀ t, t ∈ timestamps → is_Some (ConsolidatingAggregator.buffer self !! t)) →
  ∃ self' out',
    ConsolidatingAggregator.calc_loop ConsolidatingAggregator.on_datapoint
      final_pass timestamps self out
    = ((self', out ++ out'), Ok ())
    ∧ DataPoint.ts <$> out'
      = eligible final_pass (ConsolidatingAggregator.buffer_len self) timestamps
    ∧ (∀ t, ConsolidatingAggregator.buffer self' !! t
            = if bool_decide (t ∈ DataPoint.ts <$> out') then None
              else ConsolidatingAggregator.buffer self !! t)
    ∧ Forall (λ d, ∀ l, throughput_at (DataPoint.current d) l
                        = buffered_at (ConsolidatingAggregator.buffer self) (DataPoint.ts d) l)
        out'
    ∧ (∀ l, throughput_at (ConsolidatingAggregator.cumulative self') l
            = throughput_at (ConsolidatingAggregator.cumulative self) l
              + Zsum ((λ d, throughput_at (DataPoint.current d) l) <$> out'))
    ∧ wf_map (ConsolidatingAggregator.cumulative self').
Proof.
  induction timestamps as [|T rest IH]; intros self out Hlv Hcum Hkeyed Hwf Hnd Hbuf.
  { exists self, []. simpl. rewrite app_nil_r. split_and!; try done.
    intros l. unfold Zsum. simpl. lia. }
  apply list.NoDup_cons in Hnd as [Hnotin Hnd].
  cbn [eligible].
  destruct (final_pass || bool_decide (T + ConsolidatingAggregator.buffer_len self ≤ _))
    eqn:Hguard.
  2:{ exists self, []. cbn [ConsolidatingAggregator.calc_loop]. rewrite Hguard.
      simpl. rewrite app_nil_r. split_and!; try done.
      intros l. unfold Zsum. simpl. lia. }
  destruct (Hbuf T ltac:(by left)) as [pts Hpts].
  destruct (consolidator_round self final_pass T rest out pts Hlv Hcum Hpts
              (Hkeyed _ _ Hpts) (Hwf _ _ Hpts) Hguard)
    as (self1 & point & -> & Hts & Hthr & Hcum1 & Hwf1 & Hbuf1 & Hbl1 & Htp1).
  destruct (IH self1 (out ++ [point]))
    as (self' & out' & -> & Hout & Hbuf' & Hall & Hcum' & Hwf');
    [by rewrite Htp1|done|rewrite Hbuf1; by apply keyed_delete
    |rewrite Hbuf1; by apply wf_points_delete|done| |].
  { intros t Ht. rewrite Hbuf1, lookup_delete_ne; [|by intros ->]. apply Hbuf. by right. }
  exists self', (point :: out'). split_and!.
  - by rewrite <-app_assoc.
  - by rewrite fmap_cons, Hts, Hout, Hbl1.
  - intros t. rewrite Hbuf', fmap_cons, Hts, Hbuf1.
    destruct (decide (t = T)) as [->|Hne].
    + rewrite (bool_decide_true (T ∈ T :: _)) by by left.
      destruct (bool_decide (T ∈ DataPoint.ts <$> out')); [done|]. by rewrite lookup_delete_eq.
    + rewrite lookup_delete_ne by done.
      destruct (decide (t ∈ DataPoint.ts <$> out')) as [Hin|Hnin].
      * by rewrite !bool_decide_true by (try right; done).
      * rewrite !bool_decide_false; [done| |done].
        by intros [?|?]%list.elem_of_cons.
  - apply list.Forall_cons. split.
    + intros l. rewrite Hthr, Hts. unfold buffered_at. by rewrite Hpts.
    + apply list.Forall_forall. intros d Hd l.
      rewrite (proj1 (list.Forall_forall _ _) Hall d Hd l).
      unfold buffered_at. rewrite Hbuf1, lookup_delete_ne; [done|].
      intros Heq. apply Hnotin. rewrite Heq. eapply eligible_subset. rewrite <-Hout.
      apply list_elem_of_fmap. by exists d.
  - intros l. rewrite Hcum', Hcum1, fmap_cons. unfold Zsum. simpl. lia.
  - done.
Qed.

(** X24. A pull of the consolidator returns whenever the buffered and the
    pulled data points are well formed and every buffered point carries the
    key it is buffered under: [merge_point] never meets a timestamp other
    than the one being consolidated.  The pull emits, in ascending order, the
    buffered timestamps that are at least [buffer_len] older than the newest
    one (all of them on the final pass); each emitted data point counts,
    under every label, the samples of the data points buffered under its
    timestamp, the running cumulative grows by the counts of the emitted
    points, and the emitted timestamps leave the buffer. *)
Theorem consolidator_pull_succeeds `{MathSqrt} (final_pass : bool)
    (pulled : list (list DataPoint.t)) (self : ConsolidatingAggregator.t) :
  Forall valid_level (ConsolidatingAggregator.track_percentiles self) →
  wf_map (ConsolidatingAggregator.cumulative self) →
  keyed (ConsolidatingAggregator.buffer self) →
  wf_points (ConsolidatingAggregator.buffer self) →
  Forall wf_point (concat pulled) →
  let self1 := ConsolidatingAggregator._process_underlings pulled self in
  ∃ self2 out,
    ConsolidatingAggregator.datapoints final_pass pulled self = ((self2, out), Ok ())
    ∧ StronglySorted Z.lt (DataPoint.ts <$> out)
    ∧ (∀ t, t ∈ DataPoint.ts <$> out
            ↔ is_Some (ConsolidatingAggregator.buffer self1 !! t)
              ∧ (final_pass = true
                 ∨ ∃ tmax, is_Some (ConsolidatingAggregator.buffer self1 !! tmax)
                           ∧ t + ConsolidatingAggregator.buffer_len self ≤ tmax))
    ∧ Forall (λ d, ∀ l, throughput_at (DataPoint.current d) l
                        = buffered_at (ConsolidatingAggregator.buffer self1) (DataPoint.ts d) l)
        out
    ∧ (∀ l, throughput_at (ConsolidatingAggregator.cumulative self2) l
            = throughput_at (ConsolidatingAggregator.cumulative self) l
              + Zsum ((λ d, throughput_at (DataPoint.current d) l) <$> out))
    ∧ (∀ t, ConsolidatingAggregator.buffer self2 !! t
            = if bool_decide (t ∈ DataPoint.ts <$> out) then None
              else ConsolidatingAggregator.buffer self1 !! t)
    ∧ keyed (ConsolidatingAggregator.buffer self2).
Proof.
  intros Hlv Hcum Hkeyed Hwf Hpulled.
  destruct (process_underlings_inv (concat pulled) self)
    as (_ & Hk1 & Hw1 & _ & Hc1 & Ht1 & Hl1).
  specialize (Hk1 Hkeyed). specialize (Hw1 Hwf Hpulled).
  unfold ConsolidatingAggregator.datapoints, ConsolidatingAggregator._calculate_datapoints.
  fold (ConsolidatingAggregator._process_underlings pulled self) in *.
  set (self1 := ConsolidatingAggregator._process_underlings pulled self) in *.
  cbv zeta. set (self1' := ConsolidatingAggregator.emit _ self1).
  change (ConsolidatingAggregator.buffer self1') with (ConsolidatingAggregator.buffer self1) at 1.
  case_bool_decide as Hemp.
  { eexists _, _. split; [done|]. simpl in *. split_and!.
    - constructor.
    - intros t. split; [by intros ?%elem_of_nil|].
      intros [[x Hx] _]. rewrite Hemp in Hx. by rewrite lookup_empty in Hx.
    - constructor.
    - intros l. rewrite Hc1. unfold Zsum. simpl. lia.
    - done.
    - done. }
  destruct (consolidator_loop final_pass
              (ResultsReader.sorted_keys (ConsolidatingAggregator.buffer self1')) self1' [])
    as (self2 & out & Hrun & Hout & Hbuf & Hall & Hcum2 & Hwf2).
  { unfold self1'. simpl. by rewrite Ht1. }
  { unfold self1'. simpl. by rewrite Hc1. }
  { done. }
  { done. }
  { apply sorted_keys_NoDup. }
  { intros t. apply sorted_keys_elem. }
  rewrite Hrun. exists self2, out. split; [done|].
  pose proof (sorted_keys_strict (ConsolidatingAggregator.buffer self1')) as Hsorted.
  split_and!.
  - rewrite Hout. by apply eligible_sorted.
  - intros t. rewrite Hout, (eligible_spec _ _ _ Hsorted).
    unfold self1'. simpl. rewrite Hl1.
    setoid_rewrite sorted_keys_elem. done.
  - done.
  - intros l. rewrite Hcum2. unfold self1'. simpl. by rewrite Hc1.
  - done.
  - intros t pts. rewrite Hbuf. case_bool_decide; [done|]. apply Hk1.
Qed.

Lemma consolidator_pull_succeeds_witness :
  ∃ self2 out,
    ConsolidatingAggregator.datapoints (H := approx_sqrt) true
      [[point_of_source 1 5]; [point_of_source 2 5; point_of_source 2 3]]
      (ConsolidatingAggregator.set_buffer ∅ consolidator_with_two)
    = ((self2, out), Ok ())
    ∧ DataPoint.ts <$> out = [5]
    ∧ (λ d, throughput_at (DataPoint.current d) "") <$> out = [300]
    ∧ throughput_at (ConsolidatingAggregator.cumulative self2) "" = 300.

Proof.
  destruct (consolidator_pull_succeeds (H := approx_sqrt) true
              [[point_of_source 1 5]; [point_of_source 2 5; point_of_source 2 3]]
              (ConsolidatingAggregator.set_buffer ∅ consolidator_with_two))
    as (self2 & out & Hrun & _).
  - repeat constructor; by vm_compute.
  - apply map_Forall_empty.
  - intros t pts Hpts. simpl in Hpts. by rewrite lookup_empty in Hpts.
  - intros t pts Hpts. simpl in Hpts. by rewrite lookup_empty in Hpts.
  - simpl. repeat (apply list.Forall_cons; split;
      [match goal with |- wf_point (point_of_source ?s ?t) =>
         destruct (point_of_source_wf s t) as (? & ? & _); by split end|]).
    constructor.
  - exists self2, out. split; [done|].
    vm_compute in Hrun. injection Hrun as <- <-. by vm_compute.
Defined.

(** * Further properties of the JTL reader *)

(** ** Latency *)

Lemma millis_nonneg a : 0 ≤ a → (0 ≤ JTLReader.millis a)%Qc.
Proof.
  intros Ha. apply Qcnot_lt_le. intros Hlt.
  assert (JTLReader.millis a < JTLReader.millis 0)%Qc as Hlt'.
  { replace (JTLReader.millis 0) with 0%Qc; [done|]. by apply Qc_is_canon. }
  apply (proj1 (millis_lt a 0)) in Hlt'. lia.
Qed.

(** X25. The latency that [_read] yields for a row with a non-negative latency
    is never negative, whatever the connect time is, and with a non-negative
    connect time it is never more than the latency of the row. *)
Theorem yielded_latency_is_bounded (is_distributed : bool) (r : JTLReader.row) :
  0 ≤ JTLReader.Latency r →
  (0 ≤ yielded_latency is_distributed r)%Qc
  ∧ (∀ c, JTLReader.Connect r = Some c → 0 ≤ c →
          (yielded_latency is_distributed r ≤ JTLReader.millis (JTLReader.Latency r))%Qc).
Proof.
  intros Hl. unfold yielded_latency, JTLReader.read_row. simpl.
  pose proof (millis_nonneg _ Hl) as Hnn.
  destruct (JTLReader.Connect r) as [c|]; simpl.
  - case_bool_decide as Hlt.
    + split.
      * apply Qclt_le_weak. by apply Qclt_minus_iff in Hlt.
      * intros c' [= <-] Hc. apply Qcle_minus_iff.
        replace (JTLReader.millis (JTLReader.Latency r)
                 + - (JTLReader.millis (JTLReader.Latency r) - JTLReader.millis c))%Qc
          with (JTLReader.millis c) by ring.
        by apply millis_nonneg.
    + split; [done|]. intros. apply Qcle_refl.
  - split; [done|]. by intros.
Qed.

Lemma yielded_latency_is_bounded_witness :
  0 ≤ JTLReader.Latency (jtl_row 3 (Some 5))
  ∧ (0 ≤ yielded_latency true (jtl_row 3 (Some 5)))%Qc.
Proof.
  split; [simpl; lia|].
  apply (yielded_latency_is_bounded true (jtl_row 3 (Some 5))). simpl. lia.
Defined.

(** ** Thread names *)

Lemma rfind_from_none c s : ∀ i found, c ∉ s → JTLReader.rfind_from c s i found = found.
Proof.
  induction s as [|x s IH]; intros i found Hc; [done|]. simpl.
  apply not_elem_of_cons in Hc as [Hne Hc].
  rewrite (proj2 (Ascii.eqb_neq x c)) by done. by apply IH.
Qed.

Lemma rfind_from_last c p q : ∀ i found,
  c ∉ q → JTLReader.rfind_from c (p ++ c :: q) i found = i + Z.of_nat (length p).
Proof.
  induction p as [|x p IH]; intros i found Hc; simpl.
  - rewrite Ascii.eqb_refl, rfind_from_none by done. lia.
  - rewrite IH by done. lia.
Qed.

(** X26. The thread name that [_read] yields for a row of a distributed test is
    the thread name of the row up to its last space.  A thread name without
    a space loses its last character: [rfind] returns -1 and the slice
    [[:-1]] drops one character.  Outside a distributed test the yielded
    name is empty. *)
Theorem thread_name_is_cut_at_last_space (r : JTLReader.row) :
  let name := list_ascii_of_string (JTLReader.threadName r) in
  yielded_trname false r = ""%string
  ∧ (∀ prefix suffix, name = prefix ++ " "%char :: suffix → " "%char ∉ suffix →
       yielded_trname true r = string_of_list_ascii prefix)
  ∧ (" "%char ∉ name →
       yielded_trname true r = string_of_list_ascii (take (length name - 1) name)).
Proof.
  unfold yielded_trname, JTLReader.read_row. simpl. split_and!; [done| |].
  - intros prefix suffix -> Hsuffix. f_equal. unfold JTLReader.rfind.
    rewrite rfind_from_last by done. unfold JTLReader.slice_to.
    rewrite bool_decide_false by lia.
    replace (Z.to_nat (0 + Z.of_nat (length prefix))) with (length prefix) by lia.
    apply take_app_length.
  - intros Hname. f_equal. unfold JTLReader.rfind.
    rewrite rfind_from_none by done. unfold JTLReader.slice_to.
    rewrite bool_decide_true by lia. f_equal. lia.
Qed.

Lemma thread_name_is_cut_at_last_space_witness :
  yielded_trname true (jtl_row_named "Thread Group 1-1" "200") = "Thread Group"%string
  ∧ yielded_trname true (jtl_row_named "worker" "200") = "worke"%string.
Proof.
  destruct (thread_name_is_cut_at_last_space (jtl_row_named "Thread Group 1-1" "200"))
    as (_ & Hcut & _).
  destruct (thread_name_is_cut_at_last_space (jtl_row_named "worker" "200"))
    as (_ & _ & Hnone).
  split.
  - apply (Hcut (list_ascii_of_string "Thread Group") (list_ascii_of_string "1-1")).
    + reflexivity.
    + vm_compute. intros Hin. repeat (apply list.elem_of_cons in Hin as [Hin|Hin]; [done|]).
      by apply elem_of_nil in Hin.
  - apply Hnone.
    vm_compute. intros Hin. repeat (apply list.elem_of_cons in Hin as [Hin|Hin]; [done|]).
    by apply elem_of_nil in Hin.
Defined.

(** ** Response codes *)

Lemma last_segment_none sep s : ∀ acc,
  sep ∉ s → JTLReader.last_segment sep s acc = acc ++ s.
Proof.
  induction s as [|c s IH]; intros acc Hs; simpl; [by rewrite app_nil_r|].
  apply not_elem_of_cons in Hs as [Hne Hs].
  rewrite (proj2 (Ascii.eqb_neq c sep)) by done.
  rewrite IH by done. by rewrite <-app_assoc.
Qed.

Lemma last_segment_last sep p q : ∀ acc,
  sep ∉ q → JTLReader.last_segment sep (p ++ sep :: q) acc = q.
Proof.
  induction p as [|c p IH]; intros acc Hq; simpl.
  - rewrite Ascii.eqb_refl. by apply last_segment_none.
  - destruct (Ascii.eqb c sep); by apply IH.
Qed.

(** X27. A response code that ends with [Exception] is cut to what follows its
    last dot, the class name of a qualified Java exception; without a dot it
    stays whole.  Any other response code is yielded as it is. *)
Theorem exception_code_is_last_segment (is_distributed : bool) (r : JTLReader.row) :
  let code := list_ascii_of_string (JTLReader.responseCode r) in
  let exception := JTLReader.endswith code (list_ascii_of_string "Exception") in
  (exception = false → yielded_code is_distributed r = Some (JTLReader.responseCode r))
  ∧ (exception = true → "."%char ∉ code →
       yielded_code is_distributed r = Some (JTLReader.responseCode r))
  ∧ (exception = true → ∀ package class,
       code = package ++ "."%char :: class → "."%char ∉ class →
       yielded_code is_distributed r = Some (string_of_list_ascii class)).
Proof.
  unfold yielded_code, JTLReader.read_row. cbn [ResultsReader.fields KPISet.s_r_code].
  split_and!.
  - by intros ->.
  - intros -> Hcode. rewrite last_segment_none by done. simpl.
    by rewrite string_of_list_ascii_of_string.
  - intros -> package class -> Hclass. by rewrite last_segment_last.
Qed.

Lemma exception_code_is_last_segment_witness :
  yielded_code true (jtl_row_named "worker" "java.net.ConnectException")
  = Some "ConnectException"%string.
Proof.
  destruct (exception_code_is_last_segment true
              (jtl_row_named "worker" "java.net.ConnectException")) as (_ & _ & Hcut).
  apply (Hcut eq_refl (list_ascii_of_string "java.net")
           (list_ascii_of_string "ConnectException")).
  - reflexivity.
  - vm_compute. intros Hin. repeat (apply list.elem_of_cons in Hin as [Hin|Hin]; [done|]).
    by apply elem_of_nil in Hin.
Defined.

(** * Label generalization: the three rules together *)

(** ** Labels without hexadecimal characters *)

Lemma is_digit_hex c : Re.is_digit c = true → Re.is_hex c = true.
Proof. unfold Re.is_hex, Re.is_digit. by intros ->. Qed.

Lemma is_digit_word c : Re.is_digit c = true → Re.is_word c = true.
Proof. intros Hc. by apply is_hex_word, is_digit_hex. Qed.

Lemma sub_from_no_class cls lo hi tail repl : ∀ s prev,
  Forall (λ c, cls c = false) s →
  Re.sub_from (Re.Cat Re.Boundary (Re.Cat (Re.Rep cls (S lo) hi) tail)) repl prev 0 s = s.
Proof.
  induction s as [|c s IH]; intros prev Hs; [done|].
  apply list.Forall_cons in Hs as [Hc Hs].
  cbn [Re.sub_from]. rewrite no_match_here by by right. by rewrite IH.
Qed.

Lemma sub_no_class cls lo hi tail replacement label :
  Forall (λ c, cls c = false) (list_ascii_of_string label) →
  Re.sub (Re.Cat Re.Boundary (Re.Cat (Re.Rep cls (S lo) hi) tail)) replacement label = label.
Proof.
  intros Hl. unfold Re.sub. rewrite sub_from_no_class by done.
  apply string_of_list_ascii_of_string.
Qed.

(** X28. A label of ASCII characters without a hexadecimal character is left
    as it is by all three rules. *)
Theorem labels_without_hex_are_kept (label : string) :
  ascii_label label →
  Forall (λ c, Re.is_hex c = false) (list_ascii_of_string label) →
  ResultsReader.__generalize_label label = label.
Proof.
  intros _ Hl.
  assert (Forall (λ c, Re.is_digit c = false) (list_ascii_of_string label)) as Hd.
  { eapply list.Forall_impl; [exact Hl|]. intros c Hc.
    destruct (Re.is_digit c) eqn:Hdc; [|done]. apply is_digit_hex in Hdc. congruence. }
  unfold ResultsReader.__generalize_label, ResultsReader.label_generalize_regexps.
  cbn [foldl fst snd].
  rewrite (sub_no_class Re.is_hex 7 (Some 8%nat) _ "U" label) by done.
  rewrite (sub_no_class Re.is_hex 1 None _ "U" label) by done.
  by rewrite (sub_no_class Re.is_digit 1 None _ "N" label).
Qed.

Lemma labels_without_hex_are_kept_witness :
  ResultsReader.__generalize_label "/sign-in/now" = "/sign-in/now"%string.
Proof.
  apply labels_without_hex_are_kept; [|repeat constructor].
  apply (bool_decide_unpack _). by vm_compute.
Defined.

(** ** The rule for digits after the rule for hexadecimal runs *)

Lemma match_at_run_rule cls prev s :
  Re.match_at (run_rule cls) prev s
  = if xorb (Re.word_opt prev) (Re.word_opt (head s))
    then Re.rep cls 2 None prev s 0 closing_boundary else None.
Proof. done. Qed.

Lemma closing_boundary_eq prev s n :
  closing_boundary prev s n
  = if xorb (Re.word_opt prev) (Re.word_opt (head s)) then Some n else None.
Proof. done. Qed.

Lemma last_or_cons prev c ds : last_or prev (c :: ds) = last_or (Some c) ds.
Proof. unfold last_or. rewrite last_cons. by destruct (list.last ds). Qed.

Lemma rep_necessary cls : ∀ s lo prev n x,
  Re.rep cls lo None prev s n closing_boundary = Some x →
  ∃ ds rest,
    s = ds ++ rest ∧ Forall (λ c, cls c = true) ds ∧ (lo ≤ length ds)%nat
    ∧ x = (n + length ds)%nat
    ∧ xorb (Re.word_opt (last_or prev ds)) (Re.word_opt (head rest)) = true.
Proof.
  assert (∀ s lo prev n x,
    match lo with O => closing_boundary prev s n | S _ => None end = Some x →
    ∃ ds rest,
      s = ds ++ rest ∧ Forall (λ c, cls c = true) ds ∧ (lo ≤ length ds)%nat
      ∧ x = (n + length ds)%nat
      ∧ xorb (Re.word_opt (last_or prev ds)) (Re.word_opt (head rest)) = true) as Hstop.
  { intros s [|lo] prev n x; [|done]. rewrite closing_boundary_eq.
    destruct (xorb _ _) eqn:Hx; [|done]. intros [= <-].
    exists [], s. split_and!; try done; simpl; lia. }
  induction s as [|c s IH]; intros lo prev n x; cbn [Re.rep]; [apply Hstop|].
  destruct (cls c) eqn:Hc; [|apply Hstop]. cbn [andb negb].
  rewrite bool_decide_false by done. cbn [negb fmap option_fmap option_map].
  destruct (Re.rep cls (pred lo) None (Some c) s (S n) closing_boundary) as [y|] eqn:Hrep.
  - intros [= <-]. apply IH in Hrep as (ds & rest & -> & Hds & Hlo & -> & Hx).
    exists (c :: ds), rest. rewrite last_or_cons. split_and!; try done.
    + by apply list.Forall_cons.
    + simpl. lia.
    + simpl. lia.
  - apply Hstop.
Qed.

Lemma rep_stops cls lo prev rest n :
  word_class cls → Re.word_opt (head rest) = false →
  Re.rep cls lo None prev rest n closing_boundary
  = match lo with O => closing_boundary prev rest n | S _ => None end.
Proof.
  intros Hw Hrest. destruct rest as [|c rest]; [done|]. cbn [Re.rep].
  destruct (cls c) eqn:Hc; [|done]. apply Hw in Hc. simpl in Hrest. congruence.
Qed.

Lemma rep_sufficient cls : ∀ ds lo prev n rest,
  word_class cls →
  Forall (λ c, cls c = true) ds → ds ≠ [] → (lo ≤ length ds)%nat →
  Re.word_opt (head rest) = false →
  Re.rep cls lo None prev (ds ++ rest) n closing_boundary = Some (n + length ds)%nat.
Proof.
  intros ds lo prev n rest Hw. revert lo prev n.
  induction ds as [|d ds IH]; intros lo prev n Hds Hne Hlo Hrest; [done|].
  apply list.Forall_cons in Hds as [Hd Hds].
  cbn [app Re.rep]. rewrite Hd. cbn [andb negb].
  rewrite bool_decide_false by done. cbn [negb fmap option_fmap option_map].
  destruct ds as [|d' ds].
  - cbn [app]. rewrite rep_stops by done.
    simpl in Hlo. destruct lo as [|[|lo]]; [| |lia];
      cbn [pred]; rewrite closing_boundary_eq; cbn [Re.word_opt];
      rewrite (Hw d Hd), Hrest; simpl; f_equal; lia.
  - rewrite IH; [|done|done|simpl in *; lia|done]. simpl. f_equal. lia.
Qed.

Lemma match_necessary cls prev s x :
  word_class cls →
  Re.match_at (run_rule cls) prev s = Some x →
  Re.word_opt prev = false
  ∧ ∃ ds rest,
      s = ds ++ rest ∧ Forall (λ c, cls c = true) ds ∧ (2 ≤ length ds)%nat
      ∧ x = length ds ∧ Re.word_opt (head rest) = false.
Proof.
  intros Hw. rewrite match_at_run_rule.
  destruct (xorb _ _) eqn:Hstart; [|done].
  intros (ds & rest & -> & Hds & Hlen & -> & Hx)%rep_necessary.
  destruct ds as [|d ds]; [simpl in Hlen; lia|].
  pose proof Hds as [Hd _]%list.Forall_cons. apply Hw in Hd.
  cbn [app head Re.word_opt] in Hstart. rewrite Hd in Hstart.
  split; [by destruct (Re.word_opt prev)|].
  exists (d :: ds), rest. split_and!; try done.
  assert (Re.word_opt (last_or prev (d :: ds)) = true) as Hlast.
  { unfold last_or. destruct (list.last (d :: ds)) as [c|] eqn:Hl.
    - apply last_Some_elem_of in Hl. simpl. apply Hw.
      by apply (proj1 (list.Forall_forall _ _) Hds).
    - by apply last_None in Hl. }
  rewrite Hlast in Hx. by destruct (Re.word_opt (head rest)).
Qed.

Lemma match_sufficient cls prev ds rest :
  word_class cls →
  Re.word_opt prev = false →
  Forall (λ c, cls c = true) ds → (2 ≤ length ds)%nat →
  Re.word_opt (head rest) = false →
  Re.match_at (run_rule cls) prev (ds ++ rest) = Some (length ds).
Proof.
  intros Hw Hprev Hds Hlen Hrest. rewrite match_at_run_rule.
  destruct ds as [|d ds]; [simpl in Hlen; lia|].
  pose proof Hds as [Hd _]%list.Forall_cons. apply Hw in Hd.
  cbn [app head Re.word_opt]. rewrite Hprev, Hd. cbn [xorb].
  change (d :: ds ++ rest) with ((d :: ds) ++ rest).
  by rewrite rep_sufficient.
Qed.

Lemma sub_from_drop r repl : ∀ s prev skip,
  (skip ≤ length s)%nat →
  ∃ prev', Re.sub_from r repl prev skip s = Re.sub_from r repl prev' 0 (drop skip s).
Proof.
  induction s as [|c s IH]; intros prev skip Hskip.
  - exists prev. by destruct skip.
  - destruct skip as [|skip]; [by exists prev|].
    cbn [Re.sub_from drop]. apply IH. simpl in Hskip. lia.
Qed.

Lemma hex_word_class : word_class Re.is_hex.
Proof. intros c. apply is_hex_word. Qed.

Lemma digit_word_class : word_class Re.is_digit.
Proof. intros c. apply is_digit_word. Qed.

(** What the rule for hexadecimal runs copies: a run of digits of its
    output that ends at a character that is not a word character, or at the
    end, stood in the input, where it ended in the same way. *)
Lemma hex_output_copy repl0 : ∀ ds s q rest,
  Re.is_word repl0 = true → Re.is_digit repl0 = false →
  Forall (λ c, Re.is_digit c = true) ds → ds ≠ [] →
  Re.sub_from (run_rule Re.is_hex) [repl0] q 0 s = ds ++ rest →
  Re.word_opt (head rest) = false →
  ∃ rest', s = ds ++ rest' ∧ Re.word_opt (head rest') = false.
Proof.
  intros ds s q rest Hword Hnd. revert s q.
  induction ds as [|d ds IH]; intros s q Hds Hne Hout Hrest; [done|].
  apply list.Forall_cons in Hds as [Hd Hds].
  destruct s as [|c s]; [done|]. cbn [Re.sub_from] in Hout.
  assert (c = d ∧ Re.sub_from (run_rule Re.is_hex) [repl0] (Some c) 0 s = ds ++ rest)
    as [-> Hout'].
  { destruct (Re.match_at _ q (c :: s)) as [[|m]|]; simpl in Hout;
      injection Hout as Hc Hout; try done. congruence. }
  destruct ds as [|d' ds].
  - simpl in Hout'. destruct s as [|x s].
    + exists []. by rewrite app_nil_r.
    + exists (x :: s). split; [done|]. cbn [Re.sub_from] in Hout'.
      destruct (Re.match_at _ (Some d) (x :: s)) as [[|m]|];
        simpl in Hout'; subst rest; simpl in Hrest; try done. congruence.
  - destruct (IH s (Some d) Hds ltac:(done) Hout' Hrest) as (rest' & -> & Hrest').
    by exists rest'.
Qed.

Lemma digit_scan_fixed repl0 replN : ∀ n s,
  Re.is_word repl0 = true → Re.is_digit repl0 = false →
  (length s ≤ n)%nat →
  ∀ p q,
    q = p ∨ (Re.word_opt q = true ∧ Re.word_opt (head s) = false) →
    Re.sub_from (run_rule Re.is_digit) replN q 0
      (Re.sub_from (run_rule Re.is_hex) [repl0] p 0 s)
    = Re.sub_from (run_rule Re.is_hex) [repl0] p 0 s.
Proof.
  induction n as [|n IH]; intros s Hword Hnd Hlen p q Hrel.
  { destruct s; [done|simpl in Hlen; lia]. }
  destruct s as [|c s]; [done|]. simpl in Hlen.
  assert (∀ p' q', Re.match_at (run_rule Re.is_hex) p' (c :: s) = None
                   ∨ Re.match_at (run_rule Re.is_hex) p' (c :: s) = Some O →
            (∀ x, Re.match_at (run_rule Re.is_digit) q'
                    (c :: Re.sub_from (run_rule Re.is_hex) [repl0] (Some c) 0 s)
                  ≠ Some (S x)) →
            Re.sub_from (run_rule Re.is_digit) replN q' 0
              (Re.sub_from (run_rule Re.is_hex) [repl0] p' 0 (c :: s))
            = Re.sub_from (run_rule Re.is_hex) [repl0] p' 0 (c :: s)) as Hcopy.
  { intros p' q' Hhex Hdig. cbn [Re.sub_from].
    assert (∀ (o : option nat) (A : Type) (a b : nat → A) (d : A),
              o = None ∨ o = Some O →
              match o with Some (S m) => a m | Some O => d | None => d end = d) as Hsel.
    { intros o A a b d [-> | ->]; done. }
    destruct Hhex as [-> | ->]; cbn [Re.sub_from];
      (destruct (Re.match_at (run_rule Re.is_digit) q' _) as [[|x]|] eqn:Hm;
        [| by destruct (Hdig x) |]); f_equal; apply IH; try done; try lia; by left. }
  destruct Hrel as [-> | [Hq Hc]].
  - destruct (Re.match_at (run_rule Re.is_hex) p (c :: s)) as [[|m]|] eqn:Hmatch.
    + apply Hcopy; [by right|]. intros x Hdig.
      apply (match_necessary _ _ _ _ digit_word_class) in Hdig
        as (Hp & ds & rest & Heq & Hds & Hlen2 & _ & Hrest).
      destruct (hex_output_copy repl0 ds (c :: s) p rest) as (rest' & Hs & Hrest');
        try done.
      { intros ->. simpl in Hlen2. lia. }
      { cbn [Re.sub_from]. by rewrite Hmatch. }
      rewrite Hs in Hmatch.
      rewrite (match_sufficient Re.is_hex p ds rest' hex_word_class) in Hmatch; try done.
      * injection Hmatch as Hm. lia.
      * eapply list.Forall_impl; [exact Hds|]. apply is_digit_hex.
    + pose proof Hmatch as Hm.
      apply (match_necessary _ _ _ _ hex_word_class) in Hm
        as (Hp & ds & rest & Heq & Hds & Hlen2 & Hx & Hrest).
      cbn [Re.sub_from]. rewrite Hmatch.
      destruct (sub_from_drop (run_rule Re.is_hex) [repl0] s (Some c) m)
        as [p' ->].
      { apply (f_equal length) in Heq. rewrite length_app in Heq. simpl in Heq. lia. }
      assert (drop m s = rest) as ->.
      { change (drop m s) with (drop (S m) (c :: s)).
        rewrite Heq, Hx. by rewrite drop_app_length. }
      cbn [app Re.sub_from].
      rewrite (no_match_here Re.is_digit 1 None Re.Boundary) by by right.
      f_equal. apply IH; try done.
      * apply (f_equal length) in Heq. rewrite length_app in Heq. simpl in Heq. lia.
      * right. simpl. by rewrite Hword.
    + apply Hcopy; [by left|]. intros x Hdig.
      apply (match_necessary _ _ _ _ digit_word_class) in Hdig
        as (Hp & ds & rest & Heq & Hds & Hlen2 & _ & Hrest).
      destruct (hex_output_copy repl0 ds (c :: s) p rest) as (rest' & Hs & Hrest');
        try done.
      { intros ->. simpl in Hlen2. lia. }
      { cbn [Re.sub_from]. by rewrite Hmatch. }
      rewrite Hs in Hmatch.
      rewrite (match_sufficient Re.is_hex p ds rest' hex_word_class) in Hmatch; try done.
      eapply list.Forall_impl; [exact Hds|]. apply is_digit_hex.
  - simpl in Hc.
    assert (Re.is_hex c = false) as Hhex.
    { destruct (Re.is_hex c) eqn:Hh; [|done]. apply is_hex_word in Hh. congruence. }
    assert (Re.is_digit c = false) as Hdig.
    { destruct (Re.is_digit c) eqn:Hd; [|done]. apply is_digit_word in Hd. congruence. }
    apply Hcopy.
    + left. by apply (no_match_here Re.is_hex 1 None Re.Boundary); right.
    + intros x. by rewrite (no_match_here Re.is_digit 1 None Re.Boundary) by by right.
Qed.

(** X29. The rule for runs of digits never changes a label of ASCII
    characters: it runs after the rule for hexadecimal runs, and every run
    of two or more digits between word boundaries is such a hexadecimal run
    and is already collapsed into [U].  The generalized label is therefore
    the result of the first two rules. *)
Theorem digit_rule_never_fires (label : string) :
  ascii_label label →
  Re.sub digit_rule "N" (Re.sub hex_rule "U" label) = Re.sub hex_rule "U" label
  ∧ ResultsReader.__generalize_label label
    = Re.sub hex_rule "U" (Re.sub uuid_rule "U" label).
Proof.
  intros _.
  assert (∀ l, Re.sub digit_rule "N" (Re.sub hex_rule "U" l) = Re.sub hex_rule "U" l) as Hdead.
  { intros l. unfold Re.sub. rewrite list_ascii_of_string_of_list_ascii. f_equal.
    change hex_rule with (run_rule Re.is_hex). change digit_rule with (run_rule Re.is_digit).
    cbn [list_ascii_of_string].
    by eapply (digit_scan_fixed "U" ["N"%char]); [..|by left]. }
  split; [apply Hdead|].
  unfold ResultsReader.__generalize_label, ResultsReader.label_generalize_regexps.
  cbn [foldl fst snd]. apply Hdead.
Qed.

Lemma digit_rule_never_fires_witness :
  Re.sub digit_rule "N" (Re.sub hex_rule "U" "/order/12/line/345")
  = Re.sub hex_rule "U" "/order/12/line/345"
  ∧ ResultsReader.__generalize_label "/order/12/line/345"
    = Re.sub hex_rule "U" (Re.sub uuid_rule "U" "/order/12/line/345").
Proof.
  apply digit_rule_never_fires. apply (bool_decide_unpack _). by vm_compute.
Defined.

(** * Error records as shared objects *)

Lemma view_unchanged (h h' : gmap nat KPISet.error_item) (l : list nat) :
  (∀ r, r ∈ l → h' !! r = h !! r) → Shared.view h' l = Shared.view h l.
Proof.
  intros Hsame. unfold Shared.view. apply list_fmap_ext.
  intros i r Hr. apply Hsame. by eapply list_elem_of_lookup_2.
Qed.

(** X10. On a list of distinct references, [inc_list] changes what the list
    stands for as [inc_list] on a list of records does: the first record with
    the selected message is incremented, or the record [value] is appended;
    records that the list does not refer to are untouched. *)
Theorem inc_list_on_references (h : gmap nat KPISet.error_item) (values : list nat)
    (selector : string) (value : nat) (vs : list KPISet.error_item)
    (v : KPISet.error_item) :
  NoDup values →
  Shared.view h values = Some <$> vs →
  h !! value = Some v →
  ∃ h' values',
    Shared.inc_list h values selector value = Some (h', values')
    ∧ Shared.view h' values' = Some <$> KPISet.inc_list vs selector v
    ∧ (∀ r, r ∉ values → h' !! r = h !! r).
Proof.
  intros Hnd Hview Hv. revert vs Hnd Hview.
  induction values as [|item rest IH]; intros vs Hnd Hview.
  { destruct vs; [|done]. eexists _, _. split; [done|]. simpl. by rewrite Hv. }
  destruct vs as [|i vs]; [done|]. unfold Shared.view in Hview.
  rewrite !fmap_cons in Hview. cbv beta in Hview. injection Hview as Hitem Hrest.
  apply list.NoDup_cons in Hnd as [Hnotin Hnd].
  cbn [Shared.inc_list KPISet.inc_list]. rewrite Hitem. cbn [mbind option_bind].
  destruct (decide (KPISet.err_msg i = selector)) as [Hsel|Hsel].
  - rewrite Hv. cbn [mbind option_bind]. eexists _, _. split; [done|]. split.
    + unfold Shared.view. rewrite !fmap_cons. cbv beta. rewrite lookup_insert_eq. f_equal.
      rewrite <-Hrest. apply list_fmap_ext. intros k r Hr.
      apply lookup_insert_ne. intros ->. apply Hnotin. by eapply list_elem_of_lookup_2.
    + intros r [Hne _]%not_elem_of_cons. by apply lookup_insert_ne.
  - destruct (IH vs Hnd Hrest) as (h' & rest' & -> & Hview' & Hframe).
    cbn [mbind option_bind]. eexists _, _. split; [done|]. split.
    + unfold Shared.view in *. rewrite !fmap_cons, Hview'. cbv beta.
      by rewrite Hframe, Hitem.
    + intros r [_ Hr]%not_elem_of_cons. by apply Hframe.
Qed.

Lemma inc_list_on_references_witness :
  ∃ h' values',
    Shared.inc_list two_booms [0%nat] "boom" 1%nat = Some (h', values')
    ∧ Shared.view h' values'
      = Some <$> KPISet.inc_list
                   [KPISet.error_item_skel "boom" (Some "500"%string) 1 KPISet.ERRTYPE_ERROR ∅]
                   "boom"
                   (KPISet.error_item_skel "boom" (Some "500"%string) 1 KPISet.ERRTYPE_ERROR ∅)
    ∧ (∀ r, r ∉ [0%nat] → h' !! r = two_booms !! r).
Proof.
  apply (inc_list_on_references two_booms [0%nat] "boom" 1%nat).
  - apply NoDup_singleton.
  - reflexivity.
  - reflexivity.
Defined.

Lemma inc_list_appends (h : gmap nat KPISet.error_item) (selector : string) (value : nat) :
  ∀ values, without_message h selector values →
  Shared.inc_list h values selector value = Some (h, values ++ [value]).
Proof.
  induction values as [|item rest IH]; intros Hall; [done|].
  apply list.Forall_cons in Hall as [(i & Hi & Hne) Hall].
  cbn [Shared.inc_list]. rewrite Hi. cbn [mbind option_bind].
  rewrite decide_False by done. by rewrite IH.
Qed.

Lemma inc_list_increments (h : gmap nat KPISet.error_item) (item value : nat) i v :
  h !! item = Some i → h !! value = Some v →
  ∀ values, without_message h (KPISet.err_msg i) values →
  Shared.inc_list h (values ++ [item]) (KPISet.err_msg i) value
  = Some (<[item := incremented i v]> h, values ++ [item]).
Proof.
  intros Hi Hv. induction values as [|r rest IH]; intros Hall.
  - cbn [app Shared.inc_list]. rewrite Hi. cbn [mbind option_bind].
    rewrite decide_True by done. by rewrite Hv.
  - apply list.Forall_cons in Hall as [(j & Hj & Hne) Hall].
    cbn [app Shared.inc_list]. rewrite Hj. cbn [mbind option_bind].
    rewrite decide_False by done. by rewrite IH.
Qed.

(** X11. The record that [merge_kpis] appends to the errors of the destination
    is the record of the source itself.  When a second source with the same
    message is merged into the destination, the record that is incremented
    is therefore the record of the first source: what the first source counts
    for the message changes although the first source is not part of the
    second merge. *)
Theorem merged_record_is_shared (h : gmap nat KPISet.error_item) (dest : list nat)
    (first second : nat) (i1 i2 : KPISet.error_item) :
  h !! first = Some i1 → h !! second = Some i2 →
  KPISet.err_msg i2 = KPISet.err_msg i1 →
  without_message h (KPISet.err_msg i1) dest →
  let h' := <[first := incremented i1 i2]> h in
  Shared.merge_errors h dest [first] = Some (h, dest ++ [first])
  ∧ Shared.merge_errors h (dest ++ [first]) [second] = Some (h', dest ++ [first])
  ∧ Shared.view h [first] = [Some i1]
  ∧ Shared.view h' [first] = [Some (incremented i1 i2)].
Proof.
  intros H1 H2 Hmsg Hdest. split_and!.
  - cbn [Shared.merge_errors]. rewrite H1. cbn [mbind option_bind].
    by rewrite inc_list_appends.
  - cbn [Shared.merge_errors]. rewrite H2. cbn [mbind option_bind]. rewrite Hmsg.
    by rewrite (inc_list_increments h first second i1 i2).
  - unfold Shared.view. simpl. by rewrite H1.
  - unfold Shared.view. simpl. by rewrite lookup_insert_eq.
Qed.

Lemma merged_record_is_shared_witness :
  let boom n := KPISet.error_item_skel "boom" (Some "500"%string) n KPISet.ERRTYPE_ERROR ∅ in
  ∃ h',
    Shared.merge_errors two_booms [] [0%nat] = Some (two_booms, [0%nat])
    ∧ Shared.merge_errors two_booms [0%nat] [1%nat] = Some (h', [0%nat])
    ∧ Shared.view two_booms [0%nat] = [Some (boom 1)]
    ∧ KPISet.err_cnt <$> default None (head (Shared.view h' [0%nat])) = Some 2.
Proof.
  destruct (merged_record_is_shared two_booms [] 0%nat 1%nat
              (KPISet.error_item_skel "boom" (Some "500"%string) 1 KPISet.ERRTYPE_ERROR ∅)
              (KPISet.error_item_skel "boom" (Some "500"%string) 1 KPISet.ERRTYPE_ERROR ∅))
    as (Hfirst & Hsecond & Hbefore & Hafter); [reflexivity|reflexivity|reflexivity|constructor|].
  eexists. split_and!; [exact Hfirst|exact Hsecond|exact Hbefore|].
  by rewrite Hafter.
Defined.

(** * A pull of the reader through [datapoints] *)

Lemma reader_round `{MathSqrt} (self : ResultsReader.t) (final_pass : bool) (t : Z)
    (rest : list Z) (out : list DataPoint.t) (samples : list (string * KPISet.sample)) :
  Forall valid_level (ResultsReader.track_percentiles self) →
  wf_map (ResultsReader.cumulative self) →
  ResultsReader.buffer self !! t = Some samples →
  final_pass || bool_decide (t + ResultsReader.buffer_len self ≤ List.last (t :: rest) t) = true →
  ∃ self' d,
    ResultsReader.calc_loop ResultsReader.on_datapoint final_pass (t :: rest) self out
    = ResultsReader.calc_loop ResultsReader.on_datapoint final_pass rest self' (out ++ [d])
    ∧ DataPoint.ts d = t
    ∧ throughput_at (DataPoint.current d) "" = Z.of_nat (length samples)
    ∧ (∀ l, throughput_at (ResultsReader.cumulative self') l
            = throughput_at (ResultsReader.cumulative self) l
              + throughput_at (DataPoint.current d) l)
    ∧ (∀ l, throughput_at (DataPoint.cumulative d) l
            = throughput_at (ResultsReader.cumulative self') l)
    ∧ wf_map (ResultsReader.cumulative self')
    ∧ ResultsReader.buffer self' = delete t (ResultsReader.buffer self)
    ∧ ResultsReader.buffer_len self' = ResultsReader.buffer_len self
    ∧ ResultsReader.track_percentiles self' = ResultsReader.track_percentiles self
    ∧ ResultsReader.min_timestamp self' = t + 1.
Proof.
  intros Hlv Hcum Hbuf Hguard.
  cbn [ResultsReader.calc_loop]. rewrite Hguard.
  cbn [ResultsReader.buffer ResultsReader.emit ResultsReader.set_min_timestamp].
  rewrite Hbuf.
  set (self2 := ResultsReader.set_buffer _ _).
  destruct (aggregate_spec self2 t samples) as (d & -> & Hts & Hall & _ & Hwf); [done|].
  unfold ResultsReader.on_datapoint.
  destruct (on_datapoint_ok (ResultsReader.track_percentiles self2)
              (ResultsReader.cumulative self2) d) as (cumulative' & -> & Hl & Hwf');
    [done|done|done|].
  eexists _, _. split; [reflexivity|]. simpl.
  assert (∀ l, throughput_at (recalculated <$> (recalculated <$> DataPoint.current d)) l
               = throughput_at (DataPoint.current d) l) as Hsame.
  { intros l. rewrite !throughput_at_recalculated; [done|done|].
    by apply wf_map_recalculated. }
  split_and!; try done.
  - by rewrite Hsame.
  - intros l. rewrite Hsame.
    by rewrite (throughput_at_merged _ _ _ _ _ l Hwf Hl).
  - intros l. rewrite throughput_at_recalculated by by apply wf_map_deepcopy.
    unfold throughput_at. rewrite lookup_fmap. by destruct (cumulative' !! l).
Qed.

Lemma reader_loop_datapoints `{MathSqrt} final_pass : ∀ timestamps self out,
  Forall valid_level (ResultsReader.track_percentiles self) →
  wf_map (ResultsReader.cumulative self) →
  NoDup timestamps →
  (∀ t, t ∈ timestamps → is_Some (ResultsReader.buffer self !! t)) →
  ∃ self' out',
    ResultsReader.calc_loop ResultsReader.on_datapoint final_pass timestamps self out
    = ((self', out ++ out'), Ok ())
    ∧ DataPoint.ts <$> out' = eligible final_pass (ResultsReader.buffer_len self) timestamps
    ∧ (∀ t, ResultsReader.buffer self' !! t
            = if bool_decide (t ∈ DataPoint.ts <$> out') then None
              else ResultsReader.buffer self !! t)
    ∧ Forall (λ d, throughput_at (DataPoint.current d) ""
                   = Z.of_nat (length (default [] (ResultsReader.buffer self !! DataPoint.ts d))))
        out'
    ∧ (∀ l, throughput_at (ResultsReader.cumulative self') l
            = throughput_at (ResultsReader.cumulative self) l
              + Zsum ((λ d, throughput_at (DataPoint.current d) l) <$> out'))
    ∧ from_option (λ d, ∀ l, throughput_at (DataPoint.cumulative d) l
                             = throughput_at (ResultsReader.cumulative self') l)
        True (list.last out').
Proof.
  induction timestamps as [|t rest IH]; intros self out Hlv Hcum Hnd Hbuf.
  { exists self, []. simpl. rewrite app_nil_r. split_and!; try done.
    intros l. unfold Zsum. simpl. lia. }
  apply list.NoDup_cons in Hnd as [Hnotin Hnd].
  cbn [eligible].
  destruct (final_pass || bool_decide (t + ResultsReader.buffer_len self ≤ _)) eqn:Hguard.
  2:{ exists self, []. cbn [ResultsReader.calc_loop]. rewrite Hguard.
      simpl. rewrite app_nil_r. split_and!; try done.
      intros l. unfold Zsum. simpl. lia. }
  destruct (Hbuf t ltac:(by left)) as [samples Hsamples].
  destruct (reader_round self final_pass t rest out samples Hlv Hcum Hsamples Hguard)
    as (self1 & d & -> & Hts & Hall & Hcum1 & Hdc & Hwf1 & Hbuf1 & Hbl1 & Htp1 & _).
  destruct (IH self1 (out ++ [d]))
    as (self' & out' & -> & Hout & Hbuf' & Hcounts & Hcum' & Hlast);
    [by rewrite Htp1|done|done| |].
  { intros t' Ht'. rewrite Hbuf1, lookup_delete_ne; [|by intros ->]. apply Hbuf. by right. }
  exists self', (d :: out'). split_and!.
  - by rewrite <-app_assoc.
  - by rewrite fmap_cons, Hts, Hout, Hbl1.
  - intros t'. rewrite Hbuf', fmap_cons, Hts, Hbuf1.
    destruct (decide (t' = t)) as [->|Hne].
    + rewrite (bool_decide_true (t ∈ t :: _)) by by left.
      destruct (bool_decide (t ∈ DataPoint.ts <$> out')); [done|]. by rewrite lookup_delete_eq.
    + rewrite lookup_delete_ne by done.
      destruct (decide (t' ∈ DataPoint.ts <$> out')) as [Hin|Hnin].
      * by rewrite !bool_decide_true by (try right; done).
      * rewrite !bool_decide_false; [done| |done].
        by intros [?|?]%list.elem_of_cons.
  - apply list.Forall_cons. split.
    + by rewrite Hall, Hts, Hsamples.
    + apply list.Forall_forall. intros d' Hd'.
      rewrite (proj1 (list.Forall_forall _ _) Hcounts d' Hd').
      rewrite Hbuf1, lookup_delete_ne; [done|].
      intros Heq. apply Hnotin. rewrite Heq. eapply eligible_subset. rewrite <-Hout.
      apply list_elem_of_fmap. by exists d'.
  - intros l. rewrite Hcum', Hcum1, fmap_cons. unfold Zsum. simpl. lia.
  - rewrite last_cons. destruct (list.last out') as [d'|] eqn:Hl; [done|]. simpl.
    apply last_None in Hl. subst out'.
    cbn [ResultsReader.calc_loop] in *. intros l. rewrite Hdc.
    specialize (Hcum' l). simpl in Hcum'. unfold Zsum in Hcum'. simpl in Hcum'.
    unfold throughput_at in *. lia.
Qed.

(** X21. A pull of the reader through [datapoints] returns when the percentile
    levels are valid and the running cumulative is well formed.  Every
    emitted data point counts under the overall label the samples that were
    buffered for its timestamp, the running cumulative grows under every
    label by the counts of the emitted data points, the last emitted data
    point carries the counts of the running cumulative as the pull leaves
    it, and the emitted timestamps leave the buffer. *)
Theorem reader_datapoints_accumulate `{MathSqrt} (final_pass : bool)
    (results : list ResultsReader.read_result) (self self1 : ResultsReader.t) :
  Forall valid_level (ResultsReader.track_percentiles self) →
  wf_map (ResultsReader.cumulative self) →
  ResultsReader.__process_readers results self = (self1, Ok ()) →
  ∃ self2 out,
    ResultsReader.datapoints final_pass results self = ((self2, out), Ok ())
    ∧ DataPoint.ts <$> out
      = eligible final_pass (ResultsReader.buffer_len self)
          (ResultsReader.sorted_keys (ResultsReader.buffer self1))
    ∧ Forall (λ d, throughput_at (DataPoint.current d) ""
                   = Z.of_nat (length (default [] (ResultsReader.buffer self1 !! DataPoint.ts d))))
        out
    ∧ (∀ l, throughput_at (ResultsReader.cumulative self2) l
            = throughput_at (ResultsReader.cumulative self) l
              + Zsum ((λ d, throughput_at (DataPoint.current d) l) <$> out))
    ∧ from_option (λ d, ∀ l, throughput_at (DataPoint.cumulative d) l
                             = throughput_at (ResultsReader.cumulative self2) l)
        True (list.last out)
    ∧ (∀ t, ResultsReader.buffer self2 !! t
            = if bool_decide (t ∈ DataPoint.ts <$> out) then None
              else ResultsReader.buffer self1 !! t).
Proof.
  intros Hlv Hcum Hproc.
  pose proof (process_readers_keeps results self) as (Htrack & Hlen & _ & _).
  assert (ResultsReader.cumulative self1 = ResultsReader.cumulative self) as Hc1.
  { clear Htrack Hlen Hlv Hcum. revert self self1 Hproc.
    induction results as [|[|r|] results IH]; intros self self1 Hproc;
      cbn [ResultsReader.__process_readers] in Hproc; try by simplify_eq.
    destruct (bool_decide (ResultsReader.label r ∈ _)); [by eapply IH|].
    apply IH in Hproc. rewrite Hproc. simpl. by case_bool_decide. }
  rewrite Hproc in Htrack, Hlen. simpl in Htrack, Hlen.
  unfold ResultsReader.datapoints, ResultsReader._calculate_datapoints. rewrite Hproc.
  set (self1' := ResultsReader.emit _ self1).
  case_bool_decide as Hemp.
  { eexists _, _. split; [done|].
    simpl in Hemp. unfold ResultsReader.sorted_keys. rewrite Hemp, map_to_list_empty.
    simpl. split_and!; try done.
    - intros l. rewrite Hc1. unfold Zsum. simpl. lia.
    - intros t. by rewrite Hemp. }
  destruct (reader_loop_datapoints final_pass
              (ResultsReader.sorted_keys (ResultsReader.buffer self1')) self1' [])
    as (self2 & out & Hrun & Hout & Hbuf & Hcounts & Hcum2 & Hlast).
  { unfold self1'. simpl. by rewrite Htrack. }
  { unfold self1'. simpl. by rewrite Hc1. }
  { apply sorted_keys_NoDup. }
  { intros t. apply sorted_keys_elem. }
  rewrite Hrun. exists self2, out. split; [done|].
  split_and!; try done.
  - rewrite Hout. unfold self1'. simpl. by rewrite Hlen.
  - intros l. rewrite Hcum2. unfold self1'. simpl. by rewrite Hc1.
Qed.

Lemma reader_datapoints_accumulate_witness :
  ∃ self2 out,
    ResultsReader.datapoints (H := approx_sqrt) false (rows_at [10; 10; 11; 13]) fresh_reader
    = ((self2, out), Ok ())
    ∧ DataPoint.ts <$> out = [10; 11]
    ∧ (λ d, throughput_at (DataPoint.current d) "") <$> out = [2; 1]
    ∧ throughput_at (ResultsReader.cumulative self2) "" = 3.
Proof.
  destruct (reader_datapoints_accumulate (H := approx_sqrt) false (rows_at [10; 10; 11; 13])
              fresh_reader
              (ResultsReader.__process_readers (rows_at [10; 10; 11; 13]) fresh_reader).1)
    as (self2 & out & Hrun & _).
  - repeat constructor; by vm_compute.
  - apply map_Forall_empty.
  - reflexivity.
  - exists self2, out. split; [done|].
    vm_compute in Hrun. injection Hrun as <- <-. by vm_compute.
Defined.

(** * Sample counts through [merge_point] *)

(** X16. [merge_point] adds the sample counts of the source to those of the
    receiver label by label, in [current] and in [cumulative]; a label that
    only the source has is created in the receiver.  The source, which is
    the last of the receiver's subresults afterwards, keeps its counts. *)
Theorem merge_point_adds_counts `{MathSqrt} (self src : DataPoint.t) :
  wf_datapoint self → wf_datapoint src → DataPoint.ts self = DataPoint.ts src →
  ∃ self' src',
    DataPoint.merge_point self src = ((self', src'), Ok ())
    ∧ (∀ l, throughput_at (DataPoint.current self') l
            = throughput_at (DataPoint.current self) l
              + throughput_at (DataPoint.current src) l)
    ∧ (∀ l, throughput_at (DataPoint.cumulative self') l
            = throughput_at (DataPoint.cumulative self) l
              + throughput_at (DataPoint.cumulative src) l)
    ∧ (∀ l, throughput_at (DataPoint.current src') l
            = throughput_at (DataPoint.current src) l)
    ∧ list.last (DataPoint.subresults self') = Some src'.
Proof.
  intros (Hc & Hm & Hlv) (Hsc & Hsm & _) Hts.
  destruct (merge_point_ok self src (conj Hc (conj Hm Hlv)) Hsc Hsm Hts)
    as (self' & src' & Hrun & Hsub & Hcur & Hcum & Hscur & _).
  exists self', src'. split_and!; [done| | | |].
  - intros l. by apply (merged_map_throughput _ _ _ _ _ l Hc Hsc Hlv Hcur).
  - intros l. by apply (merged_map_throughput _ _ _ _ _ l Hm Hsm Hlv Hcum).
  - intros l. rewrite Hscur. by apply throughput_at_recalculated.
  - rewrite Hsub. apply last_snoc.
Qed.

Lemma merge_point_adds_counts_witness :
  ∃ self' src',
    DataPoint.merge_point (H := approx_sqrt) (point_of_source 1 5) (point_of_source 2 5)
    = ((self', src'), Ok ())
    ∧ throughput_at (DataPoint.current self') "" = 200
    ∧ throughput_at (DataPoint.cumulative self') "" = 200.
Proof.
  destruct (merge_point_adds_counts (H := approx_sqrt) (point_of_source 1 5)
              (point_of_source 2 5) (point_of_source_wf 1 5) (point_of_source_wf 2 5) eq_refl)
    as (self' & src' & Hrun & Hcur & Hcum & _).
  exists self', src'. split_and!; [done| |].
  - by rewrite Hcur.
  - by rewrite Hcum.
Defined.

(** * Concurrency and averages *)

Lemma recalculate_stores `{MathSqrt} (k : KPISet.t) :
  let k' := (KPISet.recalculate k).1 in
  let n := KPISet.throughput k in
  KPISet.avg_rt k' = (if bool_decide (n ≠ 0) then (KPISet.sum_rt k / Qc_of_Z n)%Qc
                      else KPISet.avg_rt k)
  ∧ KPISet.avg_lt k' = (if bool_decide (n ≠ 0) then (KPISet.sum_lt k / Qc_of_Z n)%Qc
                        else KPISet.avg_lt k)
  ∧ KPISet.avg_ct k' = (if bool_decide (n ≠ 0) then (KPISet.sum_cn k / Qc_of_Z n)%Qc
                        else KPISet.avg_ct k)
  ∧ KPISet.concurrency k'
    = (if bool_decide (KPISet._concurrencies k ≠ ∅)
       then Counter.total (KPISet._concurrencies k) else KPISet.concurrency k).
Proof.
  unfold KPISet.recalculate. by destruct (KPISet.perc_and_stdev _ _ _) as [[??]| |].
Qed.

(** ** Concurrency *)

Lemma add_samples_concurrencies name (samples : list KPISet.sample) : ∀ k,
  Forall (λ s, KPISet.s_trname s = name) samples →
  let k' := foldl KPISet.add_sample k samples in
  KPISet._concurrencies k'
  = match list.last (reporting samples) with
    | Some s => <[inl name := KPISet.s_cnc s]> (KPISet._concurrencies k)
    | None => KPISet._concurrencies k
    end
  ∧ KPISet.concurrency k' = KPISet.concurrency k.
Proof.
  induction samples as [|s samples IH]; intros k Hall; [done|].
  apply list.Forall_cons in Hall as [Hs Hall].
  destruct (IH (KPISet.add_sample k s) Hall) as [IHc IHn].
  cbn [foldl]. cbv zeta in *. rewrite IHc, IHn. split; [|done].
  unfold reporting. rewrite filter_cons. simpl. rewrite Hs.
  destruct (decide (KPISet.s_cnc s ≠ 0)) as [Hc|Hc].
  - rewrite bool_decide_true by done. rewrite last_cons.
    destruct (list.last (filter _ samples)); [|done]. by rewrite insert_insert_eq.
  - by rewrite bool_decide_false by done.
Qed.

(** X12. The concurrency of a KPISet filled by [add_sample] with samples of one
    thread name, as outside a distributed test, is after [recalculate] the
    concurrency of the last sample that reported one: it is neither summed
    nor averaged over the samples.  It stays zero when no sample reported a
    concurrency. *)
Theorem concurrency_is_latest_report `{MathSqrt} (levels : list Qc)
    (samples : list KPISet.sample) (name : string) :
  Forall (λ s, KPISet.s_trname s = name) samples →
  KPISet.concurrency (KPISet.recalculate (from_samples levels samples)).1
  = from_option KPISet.s_cnc 0 (list.last (reporting samples)).
Proof.
  intros Hall.
  destruct (recalculate_stores (from_samples levels samples)) as (_ & _ & _ & ->).
  destruct (add_samples_concurrencies name samples (KPISet.init levels) Hall) as [Hc Hn].
  unfold from_samples. cbv zeta in Hc, Hn. rewrite Hc, Hn.
  destruct (list.last (reporting samples)) as [s|]; simpl.
  - rewrite bool_decide_true by apply insert_non_empty.
    rewrite total_map_sum, map_sum_insert, lookup_empty, map_sum_empty. simpl. unfold id. lia.
  - by rewrite bool_decide_false by (by intros ?).
Qed.

Lemma concurrency_is_latest_report_witness :
  KPISet.concurrency
    (KPISet.recalculate (H := approx_sqrt)
       (from_samples [Qc_of_Z 50]
          [sample_of 1 None; sample_of 2 None; sample_of 2 (Some "boom"%string)])).1 = 1.
Proof.
  rewrite (concurrency_is_latest_report (H := approx_sqrt) [Qc_of_Z 50]
             [sample_of 1 None; sample_of 2 None; sample_of 2 (Some "boom"%string)] "").
  - reflexivity.
  - repeat constructor.
Defined.

Lemma merged_concurrencies `{MathSqrt} (dest src : KPISet.t) (sid : option Z) :
  wf_kpiset src →
  KPISet._concurrencies (merged dest src sid)
  = <[inr sid := KPISet.concurrency (recalculated src)]> (KPISet._concurrencies dest).
Proof.
  intros Hsrc. destruct (recalculated_spec src Hsrc) as [Hrec _].
  unfold merged, KPISet.merge_kpis. by rewrite Hrec.
Qed.

(** X13. The concurrency of a destination that sources are merged into is,
    after [recalculate], the sum over the source ids of the concurrency of
    the source merged last under that id: two sources with different ids add
    up, and a second merge under the same id replaces the first. *)
Theorem concurrency_sums_over_sources `{MathSqrt} (dest first second : KPISet.t)
    (sid1 sid2 : option Z) :
  wf_kpiset first → wf_kpiset second → KPISet._concurrencies dest = ∅ →
  KPISet.concurrency
    (KPISet.recalculate (merged (merged dest first sid1) second sid2)).1
  = if decide (sid1 = sid2) then KPISet.concurrency (recalculated second)
    else KPISet.concurrency (recalculated first) + KPISet.concurrency (recalculated second).
Proof.
  intros H1 H2 Hdest.
  destruct (recalculate_stores (merged (merged dest first sid1) second sid2))
    as (_ & _ & _ & ->).
  rewrite !merged_concurrencies, Hdest by done.
  rewrite bool_decide_true by apply insert_non_empty.
  rewrite total_map_sum. destruct (decide (sid1 = sid2)) as [->|Hne].
  - rewrite insert_insert_eq, map_sum_insert, lookup_empty, map_sum_empty.
    simpl. unfold id. lia.
  - rewrite map_sum_insert, lookup_insert_ne, lookup_empty by congruence.
    rewrite map_sum_insert, lookup_empty, map_sum_empty. simpl. unfold id. lia.
Qed.

Lemma concurrency_sums_over_sources_witness :
  KPISet.concurrency
    (KPISet.recalculate (H := approx_sqrt)
       (merged (H := approx_sqrt)
          (merged (H := approx_sqrt) (KPISet.init [Qc_of_Z 50]) three_samples (Some 1))
          three_samples (Some 2))).1
  = KPISet.concurrency (recalculated (H := approx_sqrt) three_samples)
    + KPISet.concurrency (recalculated (H := approx_sqrt) three_samples).
Proof.
  rewrite (concurrency_sums_over_sources (H := approx_sqrt) (KPISet.init [Qc_of_Z 50])
             three_samples three_samples (Some 1) (Some 2) three_samples_wf three_samples_wf
             eq_refl).
  by rewrite decide_False.
Defined.

(** ** Averages *)




(** ** Merging a dictionary *)

(** X15. A plain dictionary that [__merge_kpis] converts and merges adds its
    sample count and its histogram to the destination and, to the
    response-time sum, its average times its sample count.  The percentile
    levels are those of the data point, so the merge returns whenever they
    are valid and the histogram of the dictionary has positive counts. *)
Theorem merging_a_dictionary_adds_weighted_averages `{MathSqrt} (self : DataPoint.t)
    (dest obj : KPISet.t) (sid : option Z) :
  Forall valid_level (DataPoint.perc_levels self) →
  positive_counts (KPISet.rt obj) →
  ∃ dest' val',
    KPISet.merge_kpis dest (DataPoint.converted self obj) sid = ((dest', val'), Ok ())
    ∧ KPISet.throughput dest' = KPISet.throughput dest + KPISet.throughput obj
    ∧ KPISet.sum_rt dest'
      = (KPISet.sum_rt dest + KPISet.avg_rt obj * Qc_of_Z (KPISet.throughput obj))%Qc
    ∧ KPISet.rt dest' = Counter.update (KPISet.rt dest) (KPISet.rt obj).
Proof.
  intros Hlv Hpos.
  destruct (merge_kpis_ok dest (DataPoint.converted self obj) sid)
    as (dest' & val' & Hrun & Hrec & Ht & _ & _ & Hs & Hrt & _); [by split|].
  exists dest', val'. by split_and!.
Qed.

Lemma merging_a_dictionary_adds_weighted_averages_witness :
  ∃ dest' val',
    KPISet.merge_kpis (H := approx_sqrt) (kpiset_of_count 2)
      (DataPoint.converted (point_of_source 1 5) (kpiset_of_count 3)) None
    = ((dest', val'), Ok ())
    ∧ KPISet.throughput dest' = 5.
Proof.
  destruct (merging_a_dictionary_adds_weighted_averages (H := approx_sqrt)
              (point_of_source 1 5) (kpiset_of_count 2) (kpiset_of_count 3) None)
    as (dest' & val' & Hrun & Ht & _).
  - repeat constructor; by vm_compute.
  - by destruct (kpiset_of_count_wf 3 ltac:(lia)).
  - by exists dest', val'.
Defined.
